(** * Pacing dashboard generator: a shallow embedding of [generate_dashboard.py]

    The development follows the script top to bottom: the Python values the
    script manipulates (decoded JSON, exceptions), the status tables and the
    classifier, calendar dates with [strptime]/[strftime] for the one format
    the script uses, the interval generator, the paginated fetch loops over an
    explicit remote world, the processor and [main].

    Modelling conventions.
    - A Python [str] is a Rocq [string] of ASCII characters: [str.lower]
      acts on the letters A to Z and the digits of a date are 0 to 9, which
      covers every literal of the script's tables and every date the service
      writes.  Characters outside ASCII are left alone by this model of
      [lower] and are no digits for this model of [strptime].
    - [strftime] writes a year with four digits, as documented.
    - A decoded JSON document is a value of [json]; an object keeps its
      members in insertion order (an association list with distinct keys), as
      a Python [dict] does.  Numbers are integers.
    - An uncaught Python exception is the [Raise] result.
    - The two [while True] loops take a fuel argument; [None] means the fuel
      ran out before the loop ended.
    - The artifact is written in two steps: creating [docs] and opening the
      file can fail and leave the files alone; the write that follows can
      fail too, and then leaves a part of the text in the artifact. *)

From Stdlib Require Import ZArith List Permutation String Ascii Bool Lia.
Import ListNotations.

Open Scope string_scope.
Open Scope Z_scope.

(** ** Python values *)

Inductive exn : Type :=
| AttributeError
| TypeError
| ValueError
| KeyError
| FileNotFoundError
| OSError.

Inductive result (A : Type) : Type :=
| Ok (a : A)
| Raise (e : exn).

Arguments Ok {A} a.
Arguments Raise {A} e.

Definition rbind {A B : Type} (r : result A) (k : A -> result B) : result B :=
  match r with
  | Ok a => k a
  | Raise e => Raise e
  end.

Declare Scope result_scope.
Delimit Scope result_scope with result.
Notation "x <- r ;; k" := (rbind r (fun x => k))
  (at level 61, r at next level, right associativity) : result_scope.

#[local] Unset Elimination Schemes.
Inductive json : Type :=
| JNull
| JBool (b : bool)
| JNum (n : Z)
| JStr (s : string)
| JArr (items : list json)
| JObj (members : list (string * json)).
#[local] Set Elimination Schemes.

(** Python truthiness: [None], [False], [0], [''], [[]] and [{}] are falsy. *)
Definition truthy (v : json) : bool :=
  match v with
  | JNull => false
  | JBool b => b
  | JNum n => negb (n =? 0)
  | JStr s => negb (s =? "")%string
  | JArr items => match items with [] => false | _ => true end
  | JObj members => match members with [] => false | _ => true end
  end.

Fixpoint assoc {A : Type} (k : string) (members : list (string * A)) : option A :=
  match members with
  | [] => None
  | (k', v) :: rest => if (k' =? k)%string then Some v else assoc k rest
  end.

(** [d.get(k, default)]: only a dict has a [get] method. *)
Definition py_get (d : json) (k : string) (default : json) : result json :=
  match d with
  | JObj members =>
      Ok (match assoc k members with Some v => v | None => default end)
  | _ => Raise AttributeError
  end.

(** [d[k]] on a decoded JSON value with a string key. *)
Definition py_getitem (d : json) (k : string) : result json :=
  match d with
  | JObj members =>
      match assoc k members with Some v => Ok v | None => Raise KeyError end
  | _ => Raise TypeError
  end.

(** [v == s] for a string literal [s]. *)
Definition eq_str (v : json) (s : string) : bool :=
  match v with
  | JStr s' => (s' =? s)%string
  | _ => false
  end.

(** Iterating a value, as [list.extend] does: a list gives its items, a string
    its characters, a dict its keys; anything else is not iterable. *)
Definition py_iter (v : json) : result (list json) :=
  match v with
  | JArr items => Ok items
  | JStr s => Ok (map (fun c => JStr (String c "")) (list_ascii_of_string s))
  | JObj members => Ok (map (fun kv => JStr (fst kv)) members)
  | _ => Raise TypeError
  end.

(** [str.lower] on the ASCII letters. *)
Definition lower_ascii (c : ascii) : ascii :=
  let n := nat_of_ascii c in
  if (Nat.leb 65 n && Nat.leb n 90)%bool then ascii_of_nat (n + 32) else c.

Fixpoint lower (s : string) : string :=
  match s with
  | EmptyString => EmptyString
  | String c rest => String (lower_ascii c) (lower rest)
  end.

(** ** Status mappings *)

Definition COMPLETION_STATUSES : list string :=
  [ "Done"; "DONE"; "Ready for Prod Release"; "Pending Deployment";
    "Ready for Deploy/Push"; "PM Review"; "Ready for Review"; "Ready for UAT";
    "Ready for Prod" ].

Definition STATUS_GROUPS : list (string * list string) :=
  [ ("Not Started", ["To Do"; "Scoping"]);
    ("Blocked", ["Blocked"]);
    ("Dev In Prog", ["In Progress"; "Code Review"; "Fix Required"]);
    ("QA", ["In QA"; "QA In Progress"; "Ready for QA"]);
    ("Done", COMPLETION_STATUSES) ].

(** The [for group, statuses in STATUS_GROUPS.items()] loop, over any table. *)
Fixpoint status_group_loop (groups : list (string * list string))
    (status_lower : string) : string :=
  match groups with
  | [] => "Other"
  | (group, statuses) :: rest =>
      if existsb (fun s => (lower s =? status_lower)%string) statuses
      then group
      else status_group_loop rest status_lower
  end.

Definition get_status_group (status_name : json) : result string :=
  if negb (truthy status_name) then Ok "Other"
  else
    match status_name with
    | JStr s => Ok (status_group_loop STATUS_GROUPS (lower s))
    | _ => Raise AttributeError
    end.

(** [status in COMPLETION_STATUSES]: list membership by [==]. *)
Definition is_completed (status : json) : bool :=
  existsb (eq_str status) COMPLETION_STATUSES.

(** The entries the group table lists under ['Done']. *)
Definition done_group_entries : list string :=
  match assoc "Done" STATUS_GROUPS with
  | Some statuses => statuses
  | None => []
  end.

(** What the lookup is meant to compute, as a relation: two names match when
    they are equal up to case; the group of [S] is the first group of the
    table with an entry that matches the whole of [S], and ["Other"] when no
    group has one. *)
Definition ci_eq (a b : string) : Prop := lower a = lower b.

Inductive first_group (S : string)
    : list (string * list string) -> string -> Prop :=
| fg_other : first_group S [] "Other"
| fg_here : forall group statuses rest s,
    In s statuses -> ci_eq s S ->
    first_group S ((group, statuses) :: rest) group
| fg_later : forall group statuses rest g,
    (forall s, In s statuses -> ~ ci_eq s S) ->
    first_group S rest g ->
    first_group S ((group, statuses) :: rest) g.

(** ** Calendar dates

    Every [datetime] the script builds has a zero time of day, so a value is
    its calendar date.  [datetime_new] is the constructor with its range
    checks ([MINYEAR = 1], [MAXYEAR = 9999]). *)

Record datetime : Type := mkdt { year : Z; month : Z; day : Z }.

Definition is_leap (y : Z) : bool :=
  ((y mod 4 =? 0) && (negb (y mod 100 =? 0) || (y mod 400 =? 0)))%bool.

(** The second component of [calendar.monthrange(y, m)]. *)
Definition monthrange (y m : Z) : Z :=
  if m =? 2 then (if is_leap y then 29 else 28)
  else if (m =? 4) || (m =? 6) || (m =? 9) || (m =? 11) then 30
  else 31.

Definition valid_date (y m d : Z) : bool :=
  ((1 <=? y) && (y <=? 9999) && (1 <=? m) && (m <=? 12)
   && (1 <=? d) && (d <=? monthrange y m))%bool.

Definition datetime_new (y m d : Z) : result datetime :=
  if valid_date y m d then Ok (mkdt y m d) else Raise ValueError.

Definition dt_valid (t : datetime) : bool :=
  valid_date (year t) (month t) (day t).

Definition dt_ltb (a b : datetime) : bool :=
  ((year a <? year b)
   || ((year a =? year b)
       && ((month a <? month b)
           || ((month a =? month b) && (day a <? day b)))))%bool.

Definition dt_eqb (a b : datetime) : bool :=
  ((year a =? year b) && (month a =? month b) && (day a =? day b))%bool.

Definition dt_leb (a b : datetime) : bool := (dt_ltb a b || dt_eqb a b)%bool.

(** *** Formatting: [strftime] *)

Definition digit_char (n : Z) : ascii := ascii_of_nat (48 + Z.to_nat (n mod 10)).

(** [n] in decimal, zero-padded to [width] digits (the low [width] digits). *)
Fixpoint dec (width : nat) (n : Z) : string :=
  match width with
  | O => EmptyString
  | S w => dec w (n / 10) ++ String (digit_char n) EmptyString
  end.

Definition month_name (m : Z) : string :=
  match m with
  | 1 => "January" | 2 => "February" | 3 => "March" | 4 => "April"
  | 5 => "May" | 6 => "June" | 7 => "July" | 8 => "August"
  | 9 => "September" | 10 => "October" | 11 => "November"
  | _ => "December"
  end.

(** [t.strftime('%Y-%m-%d')], with the four-digit year of the documentation. *)
Definition strftime_ymd (t : datetime) : string :=
  dec 4 (year t) ++ "-" ++ dec 2 (month t) ++ "-" ++ dec 2 (day t).

(** [t.strftime('%B %Y')]. *)
Definition strftime_BY (t : datetime) : string :=
  month_name (month t) ++ " " ++ dec 4 (year t).

(** *** Parsing: [datetime.strptime(s, '%Y-%m-%d')]

    The library compiles the format to the regular expression
    [(\d\d\d\d)-(1[0-2]|0[1-9]|[1-9])-(3[0-1]|[1-2]\d|0[1-9]|[1-9]| [1-9])],
    matches it at the start of the string, rejects the input when text is
    left over, and then builds the date, which rejects day numbers the
    month does not have and the year 0.  Alternatives are tried in order. *)

Definition digit_val (c : ascii) : option Z :=
  let n := nat_of_ascii c in
  if (Nat.leb 48 n && Nat.leb n 57)%bool then Some (Z.of_nat (n - 48)) else None.

Definition in_range (lo hi : Z) (c : ascii) : option Z :=
  match digit_val c with
  | Some v => if (lo <=? v) && (v <=? hi) then Some v else None
  | None => None
  end.

(** [\d\d\d\d] *)
Definition re_year (s : list ascii) : option (Z * list ascii) :=
  match s with
  | a :: b :: c :: d :: rest =>
      match digit_val a, digit_val b, digit_val c, digit_val d with
      | Some va, Some vb, Some vc, Some vd =>
          Some (va * 1000 + vb * 100 + vc * 10 + vd, rest)
      | _, _, _, _ => None
      end
  | _ => None
  end.

(** One alternative made of two characters, the first one in [[lo1-hi1]] and
    the second one in [[lo2-hi2]]. *)
Definition re_two (lo1 hi1 lo2 hi2 : Z) (s : list ascii) : list (Z * list ascii) :=
  match s with
  | a :: b :: rest =>
      match in_range lo1 hi1 a, in_range lo2 hi2 b with
      | Some va, Some vb => [(va * 10 + vb, rest)]
      | _, _ => []
      end
  | _ => []
  end.

(** The alternative [[1-9]]. *)
Definition re_one (s : list ascii) : list (Z * list ascii) :=
  match s with
  | a :: rest =>
      match in_range 1 9 a with
      | Some va => [(va, rest)]
      | None => []
      end
  | _ => []
  end.

(** The alternative [ [1-9]]: a space, then a digit. *)
Definition re_space_one (s : list ascii) : list (Z * list ascii) :=
  match s with
  | a :: rest => if Ascii.eqb a " " then re_one rest else []
  | _ => []
  end.

(** The ways [1[0-2]|0[1-9]|[1-9]] matches a prefix, in the order tried. *)
Definition re_month (s : list ascii) : list (Z * list ascii) :=
  (re_two 1 1 0 2 s ++ re_two 0 0 1 9 s ++ re_one s)%list.

(** The ways [3[0-1]|[1-2]\d|0[1-9]|[1-9]| [1-9]] matches a prefix. *)
Definition re_day (s : list ascii) : list (Z * list ascii) :=
  (re_two 3 3 0 1 s ++ re_two 1 2 0 9 s ++ re_two 0 0 1 9 s
   ++ re_one s ++ re_space_one s)%list.

Definition re_dash (s : list ascii) : option (list ascii) :=
  match s with
  | a :: rest => if Ascii.eqb a "-" then Some rest else None
  | _ => None
  end.

(** The first month alternative after which the rest of the pattern matches:
    the result is month, day and the text left over. *)
Fixpoint re_after_year (months : list (Z * list ascii))
    : option (Z * Z * list ascii) :=
  match months with
  | [] => None
  | (m, rest) :: others =>
      match re_dash rest with
      | Some rest' =>
          match re_day rest' with
          | (d, rest'') :: _ => Some (m, d, rest'')
          | [] => re_after_year others
          end
      | None => re_after_year others
      end
  end.

Definition strptime_ymd (s : string) : result datetime :=
  match re_year (list_ascii_of_string s) with
  | Some (y, rest) =>
      match re_dash rest with
      | Some rest' =>
          match re_after_year (re_month rest') with
          | Some (m, d, []) => datetime_new y m d
          | Some (_, _, _ :: _) => Raise ValueError
          | None => Raise ValueError
          end
      | None => Raise ValueError
      end
  | None => Raise ValueError
  end.

(** *** [get_effective_date] *)

(** ['T' in s] *)
Fixpoint contains_T (s : string) : bool :=
  match s with
  | EmptyString => false
  | String c rest => if Ascii.eqb c "T" then true else contains_T rest
  end.

(** [s.split('T')[0]] *)
Fixpoint split_T_head (s : string) : string :=
  match s with
  | EmptyString => EmptyString
  | String c rest =>
      if Ascii.eqb c "T" then EmptyString else String c (split_T_head rest)
  end.

(** The body of the [try] block on a truthy [date_str]; what it raises is
    caught by the bare [except]. *)
Definition parse_date_str (date_str : json) : result datetime :=
  match date_str with
  | JStr s =>
      let s' := if contains_T s then split_T_head s else s in
      strptime_ymd s'
  | JArr items =>
      (* ['T' in date_str] is list membership; a list has no [split], and
         [strptime] wants a [str] *)
      if existsb (fun v => eq_str v "T") items
      then Raise AttributeError else Raise TypeError
  | JObj members =>
      match assoc "T" members with
      | Some _ => Raise AttributeError
      | None => Raise TypeError
      end
  | _ => Raise TypeError
  end.

Definition get_effective_date (issue : json) : result (option datetime) :=
  (fields <- py_get issue "fields" (JObj []) ;;
   status_obj <- py_get fields "status" (JObj []) ;;
   status <- py_get status_obj "name" (JStr "") ;;
   date_str <- (if eq_str status "Done"
                then py_get fields "resolutiondate" JNull
                else py_get fields "updated" JNull) ;;
   if truthy date_str then
     match parse_date_str date_str with
     | Ok d => Ok (Some d)
     | Raise _ => Ok None
     end
   else Ok None)%result.

(** The field the effective date is read from, and the part of its text
    that counts: what comes before the first ['T']. *)
Definition date_field_name (status_name : json) : string :=
  if eq_str status_name "Done" then "resolutiondate" else "updated".

Definition date_field (fields status_name : json) : option json :=
  match fields with
  | JObj members => assoc (date_field_name status_name) members
  | _ => None
  end.

Definition date_portion (s : string) : string := split_T_head s.

(** ** Configuration and the interval generator *)

Definition START_DATE : datetime := mkdt 2026 1 7.
Definition END_DATE : datetime := mkdt 2026 3 31.
Definition PORTFOLIO_KEY : string := "CPF-74".

(** The dict with keys ['start'], ['end'] and ['label']. *)
Record Interval : Type := mkInterval {
  iv_start : string;
  iv_end : string;
  iv_label : string
}.

(** The [while current <= END_DATE] loop, with the two configured dates as
    arguments.  Each [datetime(...)] call may raise. *)
Fixpoint intervals_loop (fuel : nat) (end_date current : datetime)
    (intervals : list Interval) : option (result (list Interval)) :=
  match fuel with
  | O => None
  | S fuel' =>
      if dt_leb current end_date then
        let last_day := monthrange (year current) (month current) in
        match datetime_new (year current) (month current) last_day with
        | Raise e => Some (Raise e)
        | Ok month_end =>
            let month_end :=
              if dt_ltb end_date month_end then end_date else month_end in
            let month_name := strftime_BY current in
            let intervals :=
              (intervals ++ [ {| iv_start := strftime_ymd current;
                                 iv_end := strftime_ymd month_end;
                                 iv_label := month_name |} ])%list in
            let next :=
              if month current =? 12
              then datetime_new (year current + 1) 1 1
              else datetime_new (year current) (month current + 1) 1 in
            match next with
            | Raise e => Some (Raise e)
            | Ok current' => intervals_loop fuel' end_date current' intervals
            end
        end
      else Some (Ok intervals)
  end.

(** Months from the month of [a] to the month of [b]. *)
Definition month_index (t : datetime) : Z := year t * 12 + (month t - 1).

Definition months_touched (a b : datetime) : nat :=
  Z.to_nat (month_index b - month_index a + 1).

Definition generate_intervals_between (start_date end_date : datetime)
    : option (result (list Interval)) :=
  intervals_loop (S (months_touched start_date end_date))
    end_date start_date [].

Definition generate_intervals : option (result (list Interval)) :=
  generate_intervals_between START_DATE END_DATE.

(** What the generator is meant to produce, month by month.  Months are
    numbered by [month_index]; the month with index [idx] has year
    [month_year idx] and number [month_number idx]. *)
Definition month_year (idx : Z) : Z := idx / 12.
Definition month_number (idx : Z) : Z := idx mod 12 + 1.

Definition first_of_month (idx : Z) : datetime :=
  mkdt (month_year idx) (month_number idx) 1.

Definition last_of_month (y m : Z) : datetime := mkdt y m (monthrange y m).

(** Where the interval of the [k]-th touched month starts: the start date
    itself in the first month, the first day of the month afterwards. *)
Definition cursor (start_date : datetime) (k : nat) : datetime :=
  match k with
  | O => start_date
  | S _ => first_of_month (month_index start_date + Z.of_nat k)
  end.

(** The interval of the [k]-th month touched by [[start_date, end_date]]: it
    ends on the last day of that month, or on [end_date] when that comes
    first, and is labelled with the month's name and year. *)
Definition interval_of_month (start_date end_date : datetime) (k : nat)
    : Interval :=
  let idx := month_index start_date + Z.of_nat k in
  let last := last_of_month (month_year idx) (month_number idx) in
  {| iv_start := strftime_ymd (cursor start_date k);
     iv_end := strftime_ymd (if dt_ltb end_date last then end_date else last);
     iv_label := strftime_BY (cursor start_date k) |}.

(** One interval for each month touched, in calendar order. *)
Definition monthly_intervals (start_date end_date : datetime) : list Interval :=
  map (interval_of_month start_date end_date)
    (seq 0 (months_touched start_date end_date)).

(** ** The processor *)

Record ProcessedInitiative : Type := mkInitiative {
  pi_key : json;
  pi_summary : json;
  pi_status : json
}.

Record ProcessedEpic : Type := mkEpic {
  pe_key : json;
  pe_summary : json;
  pe_status : json;
  pe_parent : json
}.

Record ProcessedIssue : Type := mkProcessed {
  key : json;
  summary : json;
  status : json;
  statusGroup : string;
  project : json;
  projectName : json;
  issueType : json;
  assignee : json;
  isCompleted : bool;
  effectiveDate : option string;
  weekLabel : option string;
  parent : json
}.

Definition process_initiative (issue : json) : result ProcessedInitiative :=
  (fields <- py_get issue "fields" (JObj []) ;;
   k <- py_get issue "key" JNull ;;
   sm <- py_get fields "summary" (JStr "") ;;
   status_obj <- py_get fields "status" (JObj []) ;;
   st <- py_get status_obj "name" (JStr "") ;;
   Ok (mkInitiative k sm st))%result.

(** [fields['parent'].get('key')] when [fields.get('parent')] is truthy. *)
Definition parent_key_of (fields : json) : result json :=
  (p <- py_get fields "parent" JNull ;;
   if truthy p then
     p' <- py_getitem fields "parent" ;;
     py_get p' "key" JNull
   else Ok JNull)%result.

Definition process_epic (issue : json) : result ProcessedEpic :=
  (fields <- py_get issue "fields" (JObj []) ;;
   parent_key <- parent_key_of fields ;;
   k <- py_get issue "key" JNull ;;
   sm <- py_get fields "summary" (JStr "") ;;
   status_obj <- py_get fields "status" (JObj []) ;;
   st <- py_get status_obj "name" (JStr "") ;;
   Ok (mkEpic k sm st parent_key))%result.

Fixpoint mapM {A B : Type} (f : A -> result B) (l : list A) : result (list B) :=
  match l with
  | [] => Ok []
  | x :: rest =>
      (y <- f x ;; ys <- mapM f rest ;; Ok (y :: ys))%result
  end.

(** *** Hashable values: dict keys and set members

    Only [None], booleans, numbers and strings hash; [True == 1] and
    [False == 0]. *)

Inductive hkey : Type :=
| HNone
| HNum (n : Z)
| HStr (s : string).

Definition py_hash (v : json) : result hkey :=
  match v with
  | JNull => Ok HNone
  | JBool b => Ok (HNum (Z.b2z b))
  | JNum n => Ok (HNum n)
  | JStr s => Ok (HStr s)
  | _ => Raise TypeError
  end.

Definition hkey_eqb (a b : hkey) : bool :=
  match a, b with
  | HNone, HNone => true
  | HNum x, HNum y => x =? y
  | HStr x, HStr y => (x =? y)%string
  | _, _ => false
  end.

(** A dict with hashable keys, in insertion order: hash, key object, value. *)
Definition pydict : Type := list (hkey * (json * json)).

Fixpoint dict_store (d : pydict) (h : hkey) (k v : json) : pydict :=
  match d with
  | [] => [(h, (k, v))]
  | (h', (k', v')) :: rest =>
      if hkey_eqb h' h then (h', (k', v)) :: rest
      else (h', (k', v')) :: dict_store rest h k v
  end.

(** [d[k] = v] *)
Definition dict_setitem (d : pydict) (k v : json) : result pydict :=
  (h <- py_hash k ;; Ok (dict_store d h k v))%result.

(** A set, as the list of its members in the order they were first added. *)
Definition pyset : Type := list (hkey * json).

Definition set_add (s : pyset) (v : json) : result pyset :=
  (h <- py_hash v ;;
   Ok (if existsb (fun e => hkey_eqb (fst e) h) s then s
       else (s ++ [(h, v)])%list))%result.

(** *** [sorted]

    [<] is defined between two strings and between two numbers; any other
    pair raises [TypeError].  Sorting fewer than two members compares
    nothing.  The members of a set are pairwise distinct, so the sorted
    order does not depend on the order they are listed in. *)

Fixpoint insert_by {A : Type} (le : A -> A -> bool) (x : A) (l : list A) : list A :=
  match l with
  | [] => [x]
  | y :: rest => if le x y then x :: l else y :: insert_by le x rest
  end.

Definition sort_by {A : Type} (le : A -> A -> bool) (l : list A) : list A :=
  fold_right (insert_by le) [] l.

Definition hkey_is_str (e : hkey * json) : bool :=
  match fst e with HStr _ => true | _ => false end.

Definition hkey_is_num (e : hkey * json) : bool :=
  match fst e with HNum _ => true | _ => false end.

Definition hkey_le (a b : hkey * json) : bool :=
  match fst a, fst b with
  | HStr x, HStr y => String.leb x y
  | HNum x, HNum y => x <=? y
  | _, _ => true
  end.

Definition sorted_set (s : pyset) : result (list json) :=
  match s with
  | [] | [_] => Ok (map snd s)
  | _ =>
      if forallb hkey_is_str s || forallb hkey_is_num s
      then Ok (map snd (sort_by hkey_le s))
      else Raise TypeError
  end.

(** *** Interval assignment *)

(** The [for interval in intervals] loop with its [break]: the label of the
    first interval that contains [effective_date], [None] when the loop runs
    to its end.  Each pass parses the interval's two dates. *)
Fixpoint week_label_loop (intervals : list Interval) (effective_date : datetime)
    : result (option string) :=
  match intervals with
  | [] => Ok None
  | interval :: rest =>
      (start <- strptime_ymd (iv_start interval) ;;
       end_ <- strptime_ymd (iv_end interval) ;;
       if dt_leb start effective_date && dt_leb effective_date end_
       then Ok (Some (iv_label interval))
       else week_label_loop rest effective_date)%result
  end.

(** [not week_label] *)
Definition label_falsy (week_label : option string) : bool :=
  match week_label with
  | None => true
  | Some l => (l =? "")%string
  end.

Definition assign_week_label (status_name : json)
    (effective_date : option datetime) (intervals : list Interval)
    : result (option string) :=
  match is_completed status_name, effective_date with
  | true, Some d =>
      (week_label <- week_label_loop intervals d ;;
       if label_falsy week_label && dt_ltb d START_DATE
       then Ok (match intervals with
                | first :: _ => Some (iv_label first)
                | [] => None
                end)
       else Ok week_label)%result
  | _, _ => Ok None
  end.

(** What the assignment is meant to compute.  An interval contains a date
    when the date lies between its two dates, both included. *)
Definition interval_contains (iv : Interval) (d : datetime) : bool :=
  match strptime_ymd (iv_start iv), strptime_ymd (iv_end iv) with
  | Ok s, Ok e => dt_leb s d && dt_leb d e
  | _, _ => false
  end.

Definition expected_week_label (completed : bool)
    (effective_date : option datetime) (intervals : list Interval)
    : option string :=
  match completed, effective_date with
  | true, Some d =>
      match find (fun iv => interval_contains iv d) intervals with
      | Some iv => Some (iv_label iv)
      | None =>
          if dt_ltb d START_DATE
          then option_map iv_label (hd_error intervals)
          else None
      end
  | _, _ => None
  end.

(** An interval as the generator writes them: two dates that parse and a
    label that is not empty. *)
Definition interval_wf (iv : Interval) : Prop :=
  (exists s, strptime_ymd (iv_start iv) = Ok s)
  /\ (exists e, strptime_ymd (iv_end iv) = Ok e)
  /\ iv_label iv <> "".

(** *** [process_issues] *)

Record loop_state : Type := mkLoop {
  processed : list ProcessedIssue;
  projects : pydict;
  issue_types : pyset;
  status_groups : pyset
}.

(** [... .get('displayName', 'Unassigned') if fields.get('assignee') else ...] *)
Definition assignee_of (fields : json) : result json :=
  (a <- py_get fields "assignee" JNull ;;
   if truthy a then
     a' <- py_get fields "assignee" (JObj []) ;;
     py_get a' "displayName" (JStr "Unassigned")
   else Ok (JStr "Unassigned"))%result.

(** One pass of the [for issue in issues] loop. *)
Definition process_issue (intervals : list Interval) (st : loop_state)
    (issue : json) : result loop_state :=
  (fields <- py_get issue "fields" (JObj []) ;;
   project_obj <- py_get fields "project" (JObj []) ;;
   project_key <- py_get project_obj "key" (JStr "Unknown") ;;
   project_name <- py_get project_obj "name" project_key ;;
   status_obj <- py_get fields "status" (JObj []) ;;
   status_name <- py_get status_obj "name" (JStr "") ;;
   issuetype_obj <- py_get fields "issuetype" (JObj []) ;;
   issue_type <- py_get issuetype_obj "name" (JStr "Unknown") ;;
   projects' <- dict_setitem (projects st) project_key project_name ;;
   issue_types' <- set_add (issue_types st) issue_type ;;
   status_group <- get_status_group status_name ;;
   status_groups' <- set_add (status_groups st) (JStr status_group) ;;
   effective_date <- get_effective_date issue ;;
   let effective_date_str := option_map strftime_ymd effective_date in
   week_label <- assign_week_label status_name effective_date intervals ;;
   parent_key <- parent_key_of fields ;;
   k <- py_get issue "key" JNull ;;
   sm <- py_get fields "summary" (JStr "") ;;
   who <- assignee_of fields ;;
   Ok {| processed :=
           (processed st ++
            [ {| key := k;
                 summary := sm;
                 status := status_name;
                 statusGroup := status_group;
                 project := project_key;
                 projectName := project_name;
                 issueType := issue_type;
                 assignee := who;
                 isCompleted := is_completed status_name;
                 effectiveDate := effective_date_str;
                 weekLabel := week_label;
                 parent := parent_key |} ])%list;
         projects := projects';
         issue_types := issue_types';
         status_groups := status_groups' |})%result.

Fixpoint process_loop (intervals : list Interval) (st : loop_state)
    (issues : list json) : result loop_state :=
  match issues with
  | [] => Ok st
  | issue :: rest =>
      (st' <- process_issue intervals st issue ;;
       process_loop intervals st' rest)%result
  end.

Record Dataset : Type := mkDataset {
  ds_issues : list ProcessedIssue;
  ds_initiatives : list ProcessedInitiative;
  ds_epics : list ProcessedEpic;
  ds_projects : list (json * json);
  ds_issueTypes : list json;
  ds_statusGroups : list json;
  ds_intervals : list Interval;
  ds_startDate : string;
  ds_endDate : string;
  ds_lastUpdated : string
}.

(** [utcnow] is the reading of the clock, formatted as the script does. *)
Definition process_issues (utcnow : string) (issues : list json)
    (intervals : list Interval) (initiatives epics : list json)
    : result Dataset :=
  (processed_initiatives <- mapM process_initiative initiatives ;;
   processed_epics <- mapM process_epic epics ;;
   st <- process_loop intervals (mkLoop [] [] [] []) issues ;;
   issueTypes <- sorted_set (issue_types st) ;;
   statusGroups <- sorted_set (status_groups st) ;;
   Ok {| ds_issues := processed st;
         ds_initiatives := processed_initiatives;
         ds_epics := processed_epics;
         ds_projects := map snd (projects st);
         ds_issueTypes := issueTypes;
         ds_statusGroups := statusGroups;
         ds_intervals := intervals;
         ds_startDate := strftime_ymd START_DATE;
         ds_endDate := strftime_ymd END_DATE;
         ds_lastUpdated := utcnow |})%result.

(** ** The remote fetcher

    The remote service is a world the script talks to through
    [requests.post]: a request moves the world on and is answered by a
    transport failure (the call raises) or by a response with a status code
    and a body, which is [None] when [response.json()] raises. *)

Record request : Type := mkRequest {
  rq_url : string;
  rq_auth : string * string;
  rq_jql : string;
  rq_maxResults : Z;
  rq_fields : list string;
  rq_nextPageToken : option json
}.

Inductive reply : Type :=
| TransportError
| Response (status_code : Z) (body : option json).

Definition FIELDS : list string :=
  [ "key"; "summary"; "status"; "project"; "resolutiondate"; "updated";
    "assignee"; "issuetype"; "labels"; "parent" ].

Definition dquote : string := String "034"%char "".
Definition newline : string := String "010"%char "".

(** The child-issue query of [fetch_jira_issues]. *)
Definition CHILD_JQL : string :=
  "parent in portfolioChildIssuesOf(" ++ dquote ++ PORTFOLIO_KEY ++ dquote ++ ")" ++ newline ++
  "AND issuetype NOT IN (" ++ newline ++
  "  Initiative, Epic, " ++ dquote ++ "Sub Test Execution" ++ dquote ++ ", "
    ++ dquote ++ "Test Execution" ++ dquote ++ "," ++ newline ++
  "  Test, " ++ dquote ++ "Test Plan" ++ dquote ++ ", " ++ dquote ++ "Test Case" ++ dquote
    ++ ", " ++ dquote ++ "Test Automation" ++ dquote ++ ", Sub-task" ++ newline ++
  ")" ++ newline ++
  "AND status NOT IN (Canceled, Cancelled, " ++ dquote ++ "Will Not Do" ++ dquote ++ ", "
    ++ dquote ++ "Resolved as Duplicate" ++ dquote ++ ")" ++ newline ++
  "AND project NOT IN (" ++ newline ++
  "  " ++ dquote ++ "QA Shared Services" ++ dquote ++ ", " ++ dquote
    ++ "QA Enterprise Systems" ++ dquote ++ "," ++ newline ++
  "  " ++ dquote ++ "QA Grading & Operations" ++ dquote ++ ", " ++ dquote ++ "QA PCGS"
    ++ dquote ++ ", " ++ dquote ++ "QA PSA Platform" ++ dquote ++ ")" ++ newline ++
  "AND parent not in (NS-1095)" ++ newline ++
  "AND key NOT IN (ESB-30,ESB-68)" ++ newline ++
  "AND NOT (" ++ newline ++
  "  (status = DONE" ++ newline ++
  "   AND resolutiondate <= " ++ dquote ++ "2026-01-06" ++ dquote ++ ")" ++ newline ++
  "  OR" ++ newline ++
  "  (status IN (" ++ dquote ++ "Ready for Prod Release" ++ dquote ++ "," ++ newline ++
  "              " ++ dquote ++ "Pending Deployment" ++ dquote ++ "," ++ newline ++
  "              " ++ dquote ++ "Ready for Deploy/Push" ++ dquote ++ ")" ++ newline ++
  "   AND updated <= " ++ dquote ++ "2026-01-06" ++ dquote ++ ")" ++ newline ++
  ")" ++ newline ++
  "ORDER BY resolutiondate DESC, updatedDate ASC".

(** [batch] by [batch_size]: [keys[i:i+batch_size]] for [i] in steps of
    [batch_size]. *)
Fixpoint batches_fuel {A : Type} (fuel : nat) (batch_size : nat) (keys : list A)
    : list (list A) :=
  match fuel with
  | O => []
  | S fuel' =>
      match keys with
      | [] => []
      | _ => firstn batch_size keys
             :: batches_fuel fuel' batch_size (skipn batch_size keys)
      end
  end.

Definition batches {A : Type} (batch_size : nat) (keys : list A) : list (list A) :=
  batches_fuel (List.length keys) batch_size keys.

(** [",".join(batch)]: every item has to be a string. *)
Fixpoint join_comma (batch : list json) : result string :=
  match batch with
  | [] => Ok ""
  | [JStr s] => Ok s
  | JStr s :: rest => (tl <- join_comma rest ;; Ok (s ++ "," ++ tl))%result
  | _ :: _ => Raise TypeError
  end.

Section Remote.

Variable World : Type.
Variable post : World -> request -> reply * World.

(** Read from the environment when the module is loaded. *)
Variable JIRA_EMAIL : string.
Variable JIRA_API_TOKEN : string.
Variable JIRA_BASE_URL : string.

Definition search_request (jql : string) (next_page_token : json) : request :=
  {| rq_url := JIRA_BASE_URL ++ "/rest/api/3/search/jql";
     rq_auth := (JIRA_EMAIL, JIRA_API_TOKEN);
     rq_jql := jql;
     rq_maxResults := 100;
     rq_fields := FIELDS;
     rq_nextPageToken :=
       if truthy next_page_token then Some next_page_token else None |}.

(** What one pass of the [try] block does with a reply: [Some] with the
    records to append and the next token, [None] when the pass leaves the
    loop through the status check or the [except] clause. *)
Definition read_page (r : reply) : option (list json * json) :=
  match r with
  | TransportError => None
  | Response status_code body =>
      if negb (status_code =? 200) then None
      else
        match body with
        | None => None
        | Some data =>
            match (issues <- py_get data "issues" (JArr []) ;;
                   items <- py_iter issues ;;
                   token <- py_get data "nextPageToken" JNull ;;
                   Ok (items, token))%result with
            | Ok page => Some page
            | Raise _ => None
            end
        end
  end.

(** What the service does along a run, as a relation:
    [pages_then jql token w pages token' w'] says that from the world [w]
    the request for [jql] with [token] and the requests that follow, each
    with the token of the page before it, are answered by [pages], every
    one with a token, and leave the world [w'] and the token [token'] for
    the next request. *)
Inductive pages_then (jql : string)
    : json -> World -> list (list json) -> json -> World -> Prop :=
| pt_done : forall token w, pages_then jql token w [] token w
| pt_more : forall token w r w1 items token1 rest token2 w2,
    post w (search_request jql token) = (r, w1) ->
    read_page r = Some (items, token1) ->
    truthy token1 = true ->
    pages_then jql token1 w1 rest token2 w2 ->
    pages_then jql token w (items :: rest) token2 w2.

(** The [while True] loop of [fetch_issues_by_jql]. *)
Fixpoint fetch_loop (fuel : nat) (jql : string) (all_issues : list json)
    (next_page_token : json) (w : World) : option (list json * World) :=
  match fuel with
  | O => None
  | S fuel' =>
      let (r, w') := post w (search_request jql next_page_token) in
      match read_page r with
      | None => Some (all_issues, w')
      | Some (items, token) =>
          let all_issues := (all_issues ++ items)%list in
          if truthy token
          then fetch_loop fuel' jql all_issues token w'
          else Some (all_issues, w')
      end
  end.

Definition fetch_issues_by_jql (fuel : nat) (jql : string) (w : World)
    : option (list json * World) :=
  fetch_loop fuel jql [] JNull w.

Definition INITIATIVES_JQL : string :=
  "parent = " ++ PORTFOLIO_KEY ++ " AND issuetype = Initiative".

Definition fetch_initiatives (fuel : nat) (w : World)
    : option (list json * World) :=
  fetch_issues_by_jql fuel INITIATIVES_JQL w.

Definition epics_jql (joined : string) : string :=
  "parent in (" ++ joined ++ ") AND issuetype = Epic".

(** The [for i in range(0, len(initiative_keys), batch_size)] loop. *)
Fixpoint epics_loop (fuel : nat) (todo : list (list json))
    (all_epics : list json) (w : World)
    : option (result (list json) * World) :=
  match todo with
  | [] => Some (Ok all_epics, w)
  | batch :: rest =>
      match join_comma batch with
      | Raise e => Some (Raise e, w)
      | Ok joined =>
          match fetch_issues_by_jql fuel (epics_jql joined) w with
          | None => None
          | Some (epics, w') =>
              epics_loop fuel rest (all_epics ++ epics)%list w'
          end
      end
  end.

Definition fetch_epics_for_initiatives (fuel : nat)
    (initiative_keys : list json) (w : World)
    : option (result (list json) * World) :=
  match initiative_keys with
  | [] => Some (Ok [], w)
  | _ => epics_loop fuel (batches 20 initiative_keys) [] w
  end.

Definition fetched : Type := (list json * list json * list json)%type.

(** The [while True] loop written out in [fetch_jira_issues]: a failed
    pass returns three empty lists. *)
Fixpoint child_loop (fuel : nat) (initiatives epics : list json)
    (all_issues : list json) (next_page_token : json) (w : World)
    : option (fetched * World) :=
  match fuel with
  | O => None
  | S fuel' =>
      let (r, w') := post w (search_request CHILD_JQL next_page_token) in
      match read_page r with
      | None => Some (([], [], []), w')
      | Some (items, token) =>
          let all_issues := (all_issues ++ items)%list in
          if truthy token
          then child_loop fuel' initiatives epics all_issues token w'
          else Some ((all_issues, initiatives, epics), w')
      end
  end.

Definition fetch_jira_issues (fuel : nat) (w : World)
    : option (result fetched * World) :=
  if (JIRA_EMAIL =? "")%string || (JIRA_API_TOKEN =? "")%string
  then Some (Ok ([], [], []), w)
  else
    match fetch_initiatives fuel w with
    | None => None
    | Some (initiatives, w1) =>
        match mapM (fun i => py_getitem i "key") initiatives with
        | Raise e => Some (Raise e, w1)
        | Ok initiative_keys =>
            match fetch_epics_for_initiatives fuel initiative_keys w1 with
            | None => None
            | Some (Raise e, w2) => Some (Raise e, w2)
            | Some (Ok epics, w2) =>
                match child_loop fuel initiatives epics [] JNull w2 with
                | None => None
                | Some (res, w3) => Some (Ok res, w3)
                end
            end
        end
    end.

End Remote.

(** ** Rendering and [main] *)

(** The files the script touches: the template next to the script, the
    artifact [docs/index.html], and whether the [docs] directory can be
    created and the artifact opened for writing. *)
Record FileSystem : Type := mkFS {
  template : option string;
  artifact : option string;
  docs_writable : bool
}.

(** [Some rest] when [s = p ++ rest]. *)
Fixpoint strip_prefix (p s : string) : option string :=
  match p with
  | EmptyString => Some s
  | String a p' =>
      match s with
      | EmptyString => None
      | String b s' => if Ascii.eqb a b then strip_prefix p' s' else None
      end
  end.

(** [s.replace(old, new)] for a non-empty [old]: the occurrences are
    replaced from the left and do not overlap. *)
Fixpoint replace_fuel (fuel : nat) (old new s : string) : string :=
  match fuel with
  | O => s
  | S fuel' =>
      match strip_prefix old s with
      | Some rest => new ++ replace_fuel fuel' old new rest
      | None =>
          match s with
          | EmptyString => EmptyString
          | String c rest => String c (replace_fuel fuel' old new rest)
          end
      end
  end.

Definition str_replace (old new s : string) : string :=
  replace_fuel (S (String.length s)) old new s.

Definition PLACEHOLDER : string := "__DASHBOARD_DATA__".

(** What the process reports: [exit(0 if success else 1)], and status 1 for
    an uncaught exception. *)
Definition exit_code (r : result bool) : Z :=
  match r with
  | Ok true => 0
  | _ => 1
  end.

Section Main.

Variable World : Type.
Variable post : World -> request -> reply * World.
Variable JIRA_EMAIL : string.
Variable JIRA_API_TOKEN : string.
Variable JIRA_BASE_URL : string.

(** [json.dumps(data, indent=2)] and the formatted reading of the clock. *)
Variable json_dumps : Dataset -> string.
Variable utcnow : World -> string.

(** What [f.write(html)] does once the artifact is open: [None] when the
    write completes, [Some partial] when it fails and leaves [partial] in
    the file. *)
Variable write_cut : string -> option string.

Definition generate_html (fs : FileSystem) (data : Dataset) : result string :=
  match template fs with
  | None => Raise FileNotFoundError
  | Some text => Ok (str_replace PLACEHOLDER (json_dumps data) text)
  end.

(** [os.makedirs], [open(output_path, 'w')] and [f.write(html)].  When the
    directory cannot be made or the file cannot be opened, the call raises
    and no file is touched.  Opening the file empties it; a write that
    fails after that leaves what it had written. *)
Definition write_artifact (fs : FileSystem) (html : string)
    : result unit * FileSystem :=
  if docs_writable fs
  then
    match write_cut html with
    | None =>
        (Ok tt, {| template := template fs;
                   artifact := Some html;
                   docs_writable := true |})
    | Some partial =>
        (Raise OSError, {| template := template fs;
                           artifact := Some partial;
                           docs_writable := true |})
    end
  else (Raise OSError, fs).

Definition main (fuel : nat) (w : World) (fs : FileSystem)
    : option (result bool * World * FileSystem) :=
  match fetch_jira_issues World post JIRA_EMAIL JIRA_API_TOKEN JIRA_BASE_URL
          fuel w with
  | None => None
  | Some (Raise e, w') => Some (Raise e, w', fs)
  | Some (Ok (issues, initiatives, epics), w') =>
      match issues with
      | [] => Some (Ok false, w', fs)
      | _ :: _ =>
          match generate_intervals with
          | None => None
          | Some (Raise e) => Some (Raise e, w', fs)
          | Some (Ok intervals) =>
              match (data <- process_issues (utcnow w') issues intervals
                               initiatives epics ;;
                     generate_html fs data)%result with
              | Raise e => Some (Raise e, w', fs)
              | Ok html =>
                  match write_artifact fs html with
                  | (Ok _, fs') => Some (Ok true, w', fs')
                  | (Raise e, fs') => Some (Raise e, w', fs')
                  end
              end
          end
      end
  end.

End Main.

(** ** A scripted remote world

    The replies still to come, served in order whatever is asked; an exhausted
    script answers with a transport failure. *)

Definition script : Type := list reply.

Definition scripted_post (w : script) (_ : request) : reply * script :=
  match w with
  | [] => (TransportError, [])
  | r :: rest => (r, rest)
  end.

Definition page (issues : list json) (token : json) : reply :=
  Response 200 (Some (JObj [("issues", JArr issues); ("nextPageToken", token)])).

Definition last_page (issues : list json) : reply :=
  Response 200 (Some (JObj [("issues", JArr issues)])).

Definition sample_issue (k status_name resolutiondate updated : string) : json :=
  JObj [ ("key", JStr k);
         ("fields",
          JObj [ ("summary", JStr "Sample");
                 ("status", JObj [("name", JStr status_name)]);
                 ("project", JObj [("key", JStr "NS"); ("name", JStr "NetSuite")]);
                 ("issuetype", JObj [("name", JStr "Story")]);
                 ("resolutiondate", JStr resolutiondate);
                 ("updated", JStr updated) ]) ].

(** How a record of the dataset relates to the issue it was made from: its
    completion flag is that of its status, its effective date is the one
    of the issue, written out, and its interval label is the expected one. *)
Definition labelled (intervals : list Interval) (issue : json)
    (p : ProcessedIssue) : Prop :=
  exists d : option datetime,
    get_effective_date issue = Ok d
    /\ effectiveDate p = option_map strftime_ymd d
    /\ isCompleted p = is_completed (status p)
    /\ weekLabel p = expected_week_label (isCompleted p) d intervals.

(** The intervals of the configured dates. *)
Definition configured_intervals : list Interval :=
  [ mkInterval "2026-01-07" "2026-01-31" "January 2026";
    mkInterval "2026-02-01" "2026-02-28" "February 2026";
    mkInterval "2026-03-01" "2026-03-31" "March 2026" ].

(** What one pass of the processing loop records of an issue: completion
    flag, effective date and interval label. *)
Definition labels_of (issue : json) : result (list (bool * option string * option string)) :=
  (st <- process_issue configured_intervals (mkLoop [] [] [] []) issue ;;
   Ok (map (fun p => (isCompleted p, effectiveDate p, weekLabel p)) (processed st)))%result.


(** A world that has no initiatives and one child issue, a template with the
    placeholder, a serializer and a clock. *)
Definition one_issue_world : script :=
  [ last_page [];
    last_page [ sample_issue "NS-1" "Done" "2026-02-15T10:00:00Z"
                  "2026-03-02T08:30:00Z" ] ].

Definition sample_fs : FileSystem :=
  mkFS (Some "<html>__DASHBOARD_DATA__</html>") (Some "old") true.

Definition sample_dumps (_ : Dataset) : string := "{}".

Definition sample_clock (_ : script) : string := "2026-02-01T00:00:00Z".

(** A disk on which every write completes, and one that is full. *)
Definition sample_disk (_ : string) : option string := None.

Definition full_disk (_ : string) : option string := Some "".

(** What is left of the pattern after the year and its dash, on the text
    [strftime] writes for a month and a day. *)
Definition month_day_check (m d : nat) : bool :=
  match re_after_year
          (re_month (list_ascii_of_string
                       (dec 2 (Z.of_nat m) ++ "-" ++ dec 2 (Z.of_nat d)))) with
  | Some (m', d', []) => (m' =? Z.of_nat m) && (d' =? Z.of_nat d)
  | _ => false
  end.

(** ** Further notions used to state properties of the code *)

(** The names a status group can have. *)
Definition STATUS_GROUP_NAMES : list string :=
  (map fst STATUS_GROUPS ++ ["Other"])%list.

(** A list in which each member is below the next one. *)
Fixpoint ascending {A : Type} (le : A -> A -> bool) (l : list A) : bool :=
  match l with
  | x :: (y :: _) as rest => le x y && ascending le rest
  | _ => true
  end.

(** The value a dict holds under a hash. *)
Fixpoint dict_lookup (d : pydict) (h : hkey) : option json :=
  match d with
  | [] => None
  | (h', (_, v)) :: rest => if hkey_eqb h' h then Some v else dict_lookup rest h
  end.

(** The name the last of the records with project key [h] carries. *)
Fixpoint last_project_name (records : list ProcessedIssue) (h : hkey)
    : option json :=
  match records with
  | [] => None
  | p :: rest =>
      match last_project_name rest h with
      | Some v => Some v
      | None =>
          match py_hash (project p) with
          | Ok h' => if hkey_eqb h' h then Some (projectName p) else None
          | Raise _ => None
          end
      end
  end.

(** Where [old] first occurs in [s]: the text before it and the text after
    it. *)
Fixpoint find_first (old s : string) : option (string * string) :=
  match strip_prefix old s with
  | Some rest => Some (EmptyString, rest)
  | None =>
      match s with
      | EmptyString => None
      | String c s' =>
          match find_first old s' with
          | Some (pre, post) => Some (String c pre, post)
          | None => None
          end
      end
  end.

(** The month of the configured range a date falls in, counted from the
    month of the start date. *)
Definition month_offset (start_date d : datetime) : nat :=
  Z.to_nat (month_index d - month_index start_date).

(** The end of the interval of the [k]-th month. *)
Definition interval_last (start_date end_date : datetime) (k : nat) : datetime :=
  let idx := month_index start_date + Z.of_nat k in
  let last := last_of_month (month_year idx) (month_number idx) in
  if dt_ltb end_date last then end_date else last.

(** The three fields [process_initiative] and [process_epic] read. *)
Definition projection_of (issue : json) (k sm st : json) : Prop :=
  exists fields status_obj,
    py_get issue "fields" (JObj []) = Ok fields
    /\ py_get issue "key" JNull = Ok k
    /\ py_get fields "summary" (JStr "") = Ok sm
    /\ py_get fields "status" (JObj []) = Ok status_obj
    /\ py_get status_obj "name" (JStr "") = Ok st.

(** What holds of a record whatever the intervals are: its group is one of
    the six; a completed record is in group ["Done"]; a label is the label of
    one of the intervals and is there only on a completed record with an
    effective date; a record that is not completed has no label. *)
Definition record_ok (intervals : list Interval) (p : ProcessedIssue) : Prop :=
  In (statusGroup p) STATUS_GROUP_NAMES
  /\ (isCompleted p = true -> statusGroup p = "Done")
  /\ (forall l, weekLabel p = Some l ->
        isCompleted p = true
        /\ effectiveDate p <> None
        /\ exists iv, In iv intervals /\ iv_label iv = l)
  /\ (isCompleted p = false -> weekLabel p = None).

(** An interval that reads back as a range of dates inside
    [[start_date, end_date]], first day not after last day, labelled with
    the month and year of its first day. *)
Definition interval_range_in (start_date end_date : datetime) (iv : Interval)
    : Prop :=
  exists s e : datetime,
    strptime_ymd (iv_start iv) = Ok s
    /\ strptime_ymd (iv_end iv) = Ok e
    /\ dt_leb start_date s = true
    /\ dt_leb s e = true
    /\ dt_leb e end_date = true
    /\ iv_label iv = strftime_BY s.

(** The label of a record under the configured dates, from its completion
    flag and effective date alone. *)
Definition configured_label (completed : bool) (d : option datetime)
    : option string :=
  match completed, d with
  | true, Some d =>
      if dt_ltb d START_DATE then Some "January 2026"
      else if dt_leb d END_DATE then Some (strftime_BY d)
      else None
  | _, _ => None
  end.

(** What [set_add] leaves, once the member has hashed to [h]. *)
Definition set_insert (s : pyset) (h : hkey) (v : json) : pyset :=
  if existsb (fun e => hkey_eqb (fst e) h) s then s else (s ++ [(h, v)])%list.

(** What the loop keeps true of the set of status groups: its members are
    strings, no two alike, and they are the groups of the records so far. *)
Definition status_groups_inv (st : loop_state) : Prop :=
  Forall (fun e => exists g, e = (HStr g, JStr g)) (status_groups st)
  /\ NoDup (map fst (status_groups st))
  /\ (forall g, In (HStr g) (map fst (status_groups st)) <->
                exists p, In p (processed st) /\ statusGroup p = g).

(** Three child issues, two of them in the same status group. *)
Definition three_issues : list json :=
  [ sample_issue "NS-1" "Done" "2026-02-15T10:00:00Z" "2026-03-02T08:30:00Z";
    sample_issue "NS-2" "Blocked" "" "2026-02-20T08:30:00Z";
    sample_issue "NS-3" "PM Review" "" "2026-02-21T08:30:00Z" ].

(** The kind of a hashable value: [None], a number, a string. *)
Definition hkey_kind (h : hkey) : nat :=
  match h with
  | HNone => 0
  | HNum _ => 1
  | HStr _ => 2
  end%nat.

Definition hash_of (v : json) : option hkey :=
  match py_hash v with
  | Ok h => Some h
  | Raise _ => None
  end.

(** What the loop keeps true of the set of issue types: each member is
    stored under its hash, no two hashes alike, and the hashes are those of
    the issue types of the records so far. *)
Definition issue_types_inv (st : loop_state) : Prop :=
  Forall (fun e => py_hash (snd e) = Ok (fst e)) (issue_types st)
  /\ NoDup (map fst (issue_types st))
  /\ (forall h, In h (map fst (issue_types st)) <->
                exists p, In p (processed st) /\ py_hash (issueType p) = Ok h)
  /\ Forall (fun p => exists h, py_hash (issueType p) = Ok h) (processed st).

(** What the loop keeps true of the dict of projects: each key is stored
    under its hash, no two hashes alike, and the name under a hash is that of
    the last record so far with that project key. *)
Definition projects_inv (st : loop_state) : Prop :=
  Forall (fun e => py_hash (fst (snd e)) = Ok (fst e)) (projects st)
  /\ NoDup (map fst (projects st))
  /\ (forall h, dict_lookup (projects st) h
                = last_project_name (processed st) h)
  /\ Forall (fun p => exists h, py_hash (project p) = Ok h) (processed st).

(** ** The requests of a fetch, page by page *)

Section Exchange.

Variable World : Type.
Variable post : World -> request -> reply * World.
Variables JIRA_EMAIL JIRA_API_TOKEN JIRA_BASE_URL : string.

(** The request for one page of a query: the search endpoint, the
    credentials, the query, a page size of 100, the ten fields, and the
    continuation token when there is one to attach. *)
Definition page_request (jql : string) (token : option json) : request :=
  {| rq_url := JIRA_BASE_URL ++ "/rest/api/3/search/jql";
     rq_auth := (JIRA_EMAIL, JIRA_API_TOKEN);
     rq_jql := jql;
     rq_maxResults := 100;
     rq_fields := FIELDS;
     rq_nextPageToken := token |}.

(** [exchanged jql token w pages token' w']: from the world [w] the service
    is asked for [jql] with [token] attached (nothing attached when [token]
    is [None]), then again with the token its page returned attached, and
    so on; it answers with [pages], each of them returning a token.
    [token'] is what the next request has to attach and [w'] the world it
    will be sent in. *)
Inductive exchanged (jql : string)
    : option json -> World -> list (list json) -> option json -> World -> Prop :=
| ex_done : forall token w, exchanged jql token w [] token w
| ex_more : forall token w r w1 items next rest token2 w2,
    post w (page_request jql token) = (r, w1) ->
    read_page r = Some (items, next) ->
    truthy next = true ->
    exchanged jql (Some next) w1 rest token2 w2 ->
    exchanged jql token w (items :: rest) token2 w2.

(** The query for the epics under a batch of initiative keys. *)
Definition epic_query (batch : list string) : string :=
  "parent in (" ++ String.concat "," batch ++ ") AND issuetype = Epic".

(** One paginated fetch for each query, in order, the records of each added
    to those of the queries before. *)
Fixpoint fetch_each (fuel : nat) (queries : list string) (acc : list json)
    (w : World) : option (list json * World) :=
  match queries with
  | [] => Some (acc, w)
  | jql :: rest =>
      match fetch_issues_by_jql World post JIRA_EMAIL JIRA_API_TOKEN
              JIRA_BASE_URL fuel jql w with
      | None => None
      | Some (records, w') => fetch_each fuel rest (acc ++ records)%list w'
      end
  end.

End Exchange.

(** Every batch but the last has [n] members. *)
Fixpoint full_but_last {A : Type} (n : nat) (bs : list (list A)) : Prop :=
  match bs with
  | b :: ((_ :: _) as rest) => List.length b = n /\ full_but_last n rest
  | _ => True
  end.

(** The token a request attaches when the variable [next_page_token] holds
    [v]: a falsy value attaches nothing. *)
Definition attached (v : json) : option json :=
  if truthy v then Some v else None.

(** A service that looks at the continuation token: a request without a
    token gets a first page with the token ["t1"], a request with that
    token the last page, a request with any other token is refused.  Its
    state counts the requests. *)
Definition token_server (n : nat) (rq : request) : reply * nat :=
  (match rq_nextPageToken rq with
   | None => page [JStr "A"; JStr "B"] (JStr "t1")
   | Some (JStr "t1") => last_page [JStr "C"]
   | Some _ => Response 400 None
   end, S n).

(** A service that looks at the query: the epics of a batch are one record
    that names the query.  Its state lists the queries asked. *)
Definition query_server (asked : list string) (rq : request)
    : reply * list string :=
  (last_page [JStr (rq_jql rq)], (asked ++ [rq_jql rq])%list).

(** ** What an issue carries, read off the JSON *)

(** The status name of an issue: the [name] of the [status] of its
    [fields], the empty string when one of the three is not there. *)
Definition status_of (issue : json) : json :=
  match issue with
  | JObj members =>
      match assoc "fields" members with
      | Some (JObj fields) =>
          match assoc "status" fields with
          | Some (JObj status) =>
              match assoc "name" status with
              | Some name => name
              | None => JStr ""
              end
          | _ => JStr ""
          end
      | _ => JStr ""
      end
  | _ => JStr ""
  end.

(** The key of the parent of an issue: the [key] of the [parent] of its
    [fields], null when the issue has no parent or the parent no key. *)
Definition parent_of (issue : json) : json :=
  match issue with
  | JObj members =>
      match assoc "fields" members with
      | Some (JObj fields) =>
          match assoc "parent" fields with
          | Some (JObj parent) =>
              match assoc "key" parent with
              | Some k => k
              | None => JNull
              end
          | _ => JNull
          end
      | _ => JNull
      end
  | _ => JNull
  end.

(** How a record of the dataset relates to the child issue it was made
    from: it carries the status name of the issue, its completion flag is
    that of this status, its interval label is the expected one for this
    flag and the effective date of the issue, and its effective date is
    that date written out. *)
Definition classified (intervals : list Interval) (issue : json)
    (p : ProcessedIssue) : Prop :=
  exists d : option datetime,
    get_effective_date issue = Ok d
    /\ status p = status_of issue
    /\ isCompleted p = is_completed (status_of issue)
    /\ weekLabel p
       = expected_week_label (is_completed (status_of issue)) d intervals
    /\ match d with
       | Some dt => 1000 <= year dt -> effectiveDate p = Some (strftime_ymd dt)
       | None => effectiveDate p = None
       end.

(** An epic with a parent and one without. *)
Definition sample_epics : list json :=
  [ JObj [ ("key", JStr "NS-10");
           ("fields",
            JObj [ ("summary", JStr "Billing");
                   ("status", JObj [("name", JStr "In Progress")]);
                   ("parent", JObj [("key", JStr "CPF-81")]) ]) ];
    JObj [ ("key", JStr "NS-11");
           ("fields",
            JObj [ ("summary", JStr "Orphan");
                   ("status", JObj [("name", JStr "To Do")]) ]) ] ].

(** * Properties *)

(** ** Status classification *)

Lemma status_group_loop_first (S : string) (groups : list (string * list string)) :
  first_group S groups (status_group_loop groups (lower S)).
Proof.
  induction groups as [| [group statuses] rest IH]; simpl.
  - constructor.
  - destruct (existsb (fun s => (lower s =? lower S)%string) statuses) eqn:E.
    + apply existsb_exists in E. destruct E as [s [Hin Hs]].
      apply String.eqb_eq in Hs. now apply fg_here with s.
    + apply fg_later; [| exact IH].
      intros s Hin Hci.
      assert (existsb (fun s => (lower s =? lower S)%string) statuses = true)
        as Habs.
      { apply existsb_exists. exists s. split; [exact Hin |].
        now apply String.eqb_eq. }
      congruence.
Qed.

Lemma first_group_functional (S : string) (groups : list (string * list string))
    (g1 g2 : string) :
  first_group S groups g1 -> first_group S groups g2 -> g1 = g2.
Proof.
  intros H1. revert g2.
  induction H1 as [| group statuses rest s Hin Hci
                   | group statuses rest g Hno _ IH];
    intros g2 H2; inversion H2; subst; auto.
  - exfalso.
    match goal with
    | Hno : forall s', In s' statuses -> ~ ci_eq s' S |- _ =>
        eapply Hno; eassumption
    end.
  - exfalso. eapply Hno; eassumption.
Qed.

Lemma get_status_group_str (S : string) :
  get_status_group (JStr S) = Ok (status_group_loop STATUS_GROUPS (lower S)).
Proof.
  destruct S as [| c rest]; reflexivity.
Qed.

(** C1 (as amended).  For every status name [S] the lookup returns the first
    group of the table that has an entry equal to the whole of [S] up to
    case, and ["Other"] when no group has one; names that differ only in
    case get the same group; ["in progress"] and ["IN PROGRESS"] both get
    the group the table calls ["Dev In Prog"]. *)
Theorem status_group_case_insensitive_lookup :
  (forall S : string,
      exists g, get_status_group (JStr S) = Ok g
                /\ first_group S STATUS_GROUPS g)
  /\ (forall S T : string,
         ci_eq S T -> get_status_group (JStr S) = get_status_group (JStr T))
  /\ get_status_group (JStr "in progress") = Ok "Dev In Prog"
  /\ get_status_group (JStr "IN PROGRESS") = Ok "Dev In Prog".
Proof.
  repeat split.
  - intros S. exists (status_group_loop STATUS_GROUPS (lower S)). split.
    + apply get_status_group_str.
    + apply status_group_loop_first.
  - intros S T H. rewrite !get_status_group_str. unfold ci_eq in H.
    now rewrite H.
Qed.

Lemma status_group_case_insensitive_lookup_witness :
  get_status_group (JStr "Ready For QA") = get_status_group (JStr "READY FOR qa").
Proof.
  apply (proj1 (proj2 status_group_case_insensitive_lookup)
           "Ready For QA" "READY FOR qa").
  reflexivity.
Defined.

(** C1, the claim as written, fails: the group of ["in progress"] is not
    named ["Dev In Progress"]. *)
Lemma status_group_in_progress_label :
  ~ (get_status_group (JStr "in progress") = Ok "Dev In Progress"
     /\ get_status_group (JStr "IN PROGRESS") = Ok "Dev In Progress").
Proof.
  intros [H _]. vm_compute in H. discriminate H.
Qed.

Lemma is_completed_str_iff (S : string) :
  is_completed (JStr S) = true <-> In S COMPLETION_STATUSES.
Proof.
  unfold is_completed. rewrite existsb_exists. split.
  - intros [s [Hin Heq]]. simpl in Heq. apply String.eqb_eq in Heq.
    now subst.
  - intros Hin. exists S. split; [exact Hin |]. simpl. apply String.eqb_refl.
Qed.

(** C2.  [is_completed] holds of a status name exactly when the name is, as
    it stands, one of the completion literals; the lowercase ["done"] is not
    one of them. *)
Theorem is_completed_exact_match :
  (forall S : string,
      is_completed (JStr S) = true <-> In S COMPLETION_STATUSES)
  /\ is_completed (JStr "done") = false.
Proof.
  split; [exact is_completed_str_iff | reflexivity].
Qed.

(** C3, the claim as written, fails: the completion list is the ['Done']
    entry of the group table, and ["DONE"] counts as completed. *)
Lemma completion_list_not_disjoint :
  ~ ((forall s, In s COMPLETION_STATUSES -> ~ In s done_group_entries)
     /\ is_completed (JStr "DONE") = false
     /\ is_completed (JStr "Done") = true).
Proof.
  intros [_ [H _]]. vm_compute in H. discriminate H.
Qed.

(** C3 (as amended).  The ['Done'] entry of the group table is the
    completion list itself, and both ["DONE"] and ["Done"] are completed. *)
Theorem completion_list_is_done_entry :
  done_group_entries = COMPLETION_STATUSES
  /\ is_completed (JStr "DONE") = true
  /\ is_completed (JStr "Done") = true.
Proof.
  repeat split.
Qed.

(** C10.  The ['Done'] entry of the group table is the completion list, and
    every status name that is completed is looked up to the ["Done"] group
    (and so, the lookup being a function, to no other group). *)
Theorem completed_implies_done_group :
  assoc "Done" STATUS_GROUPS = Some COMPLETION_STATUSES
  /\ forall S : string,
       is_completed (JStr S) = true -> get_status_group (JStr S) = Ok "Done".
Proof.
  split; [reflexivity |].
  intros S H. apply is_completed_str_iff in H.
  unfold COMPLETION_STATUSES in H. simpl in H.
  repeat (destruct H as [H | H]; [subst S; reflexivity |]).
  contradiction.
Qed.

Lemma completed_implies_done_group_witness :
  is_completed (JStr "PM Review") = true
  /\ get_status_group (JStr "PM Review") = Ok "Done".
Proof.
  split.
  - reflexivity.
  - apply (proj2 completed_implies_done_group "PM Review"). reflexivity.
Defined.

(** ** Dates: parsing, formatting and the effective date *)

Lemma digit_val_digit_char (n : Z) : digit_val (digit_char n) = Some (n mod 10).
Proof.
  unfold digit_char.
  assert (0 <= n mod 10 < 10) as H by (apply Z.mod_pos_bound; lia).
  assert (n mod 10 = 0 \/ n mod 10 = 1 \/ n mod 10 = 2 \/ n mod 10 = 3
          \/ n mod 10 = 4 \/ n mod 10 = 5 \/ n mod 10 = 6 \/ n mod 10 = 7
          \/ n mod 10 = 8 \/ n mod 10 = 9) as Hc by lia.
  repeat (destruct Hc as [Hc | Hc]; [rewrite Hc; reflexivity |]).
  rewrite Hc. reflexivity.
Qed.

Lemma list_ascii_of_string_app (a b : string) :
  list_ascii_of_string (a ++ b)
  = (list_ascii_of_string a ++ list_ascii_of_string b)%list.
Proof.
  induction a as [| c a IH]; simpl; [reflexivity | now rewrite IH].
Qed.

Lemma re_year_dec (y : Z) (tail : list ascii) :
  0 <= y <= 9999 ->
  re_year (list_ascii_of_string (dec 4 y) ++ tail)%list = Some (y, tail).
Proof.
  intros Hy. cbn [dec append list_ascii_of_string app re_year].
  rewrite !digit_val_digit_char. do 2 f_equal.
  f_equal. Z.div_mod_to_equations. lia.
Qed.

Lemma month_day_table :
  forallb (fun m => forallb (month_day_check m) (seq 1 31)) (seq 1 12) = true.
Proof. vm_compute. reflexivity. Qed.

Lemma re_month_day (m d : Z) :
  1 <= m <= 12 -> 1 <= d <= 31 ->
  re_after_year (re_month (list_ascii_of_string (dec 2 m ++ "-" ++ dec 2 d)))
  = Some (m, d, []).
Proof.
  intros Hm Hd.
  pose proof month_day_table as T.
  rewrite forallb_forall in T.
  specialize (T (Z.to_nat m)).
  assert (In (Z.to_nat m) (seq 1 12)) as Hin by (apply in_seq; lia).
  specialize (T Hin). rewrite forallb_forall in T.
  specialize (T (Z.to_nat d)).
  assert (In (Z.to_nat d) (seq 1 31)) as Hin' by (apply in_seq; lia).
  specialize (T Hin'). unfold month_day_check in T.
  rewrite !Z2Nat.id in T by lia.
  destruct (re_after_year _) as [[[m' d'] [| c rest]] |]; try discriminate T.
  apply andb_prop in T. destruct T as [T1 T2].
  apply Z.eqb_eq in T1. apply Z.eqb_eq in T2. now subst.
Qed.

Lemma valid_date_bounds (y m d : Z) :
  valid_date y m d = true ->
  1 <= y <= 9999 /\ 1 <= m <= 12 /\ 1 <= d <= monthrange y m.
Proof.
  unfold valid_date. intros H.
  repeat (apply andb_prop in H; destruct H as [H ?]).
  repeat match goal with
         | E : (_ <=? _) = true |- _ => apply Z.leb_le in E
         end.
  lia.
Qed.

Lemma monthrange_bounds (y m : Z) : 28 <= monthrange y m <= 31.
Proof.
  unfold monthrange.
  destruct (m =? 2); [destruct (is_leap y); lia |].
  destruct ((m =? 4) || (m =? 6) || (m =? 9) || (m =? 11))%bool; lia.
Qed.

(** The text [strftime] writes for a date is read back by [strptime] as the
    same date. *)
Lemma strptime_strftime (t : datetime) :
  dt_valid t = true -> strptime_ymd (strftime_ymd t) = Ok t.
Proof.
  destruct t as [y m d]. unfold dt_valid. simpl. intros Hv.
  destruct (valid_date_bounds _ _ _ Hv) as [Hy [Hm Hd]].
  pose proof (monthrange_bounds y m) as Hr.
  unfold strptime_ymd, strftime_ymd. cbn [year month day].
  rewrite list_ascii_of_string_app, re_year_dec by lia.
  rewrite list_ascii_of_string_app.
  change (list_ascii_of_string "-") with ["-"%char].
  cbn [app re_dash]. rewrite Ascii.eqb_refl.
  rewrite re_month_day by lia.
  unfold datetime_new. now rewrite Hv.
Qed.

Lemma split_T_head_no_T (s : string) : contains_T s = false -> split_T_head s = s.
Proof.
  induction s as [| c s IH]; simpl; [reflexivity |].
  destruct (Ascii.eqb c "T"); [discriminate |].
  intros H. now rewrite IH.
Qed.

(** The date text the [try] block hands to [strptime]. *)
Lemma parse_date_str_JStr (s : string) :
  parse_date_str (JStr s) = strptime_ymd (split_T_head s).
Proof.
  unfold parse_date_str. destruct (contains_T s) eqn:E; [reflexivity |].
  now rewrite split_T_head_no_T.
Qed.

Lemma strptime_empty : strptime_ymd "" = Raise ValueError.
Proof. reflexivity. Qed.



(** A few records: a date without a time of day, a status other than
    ["Done"] (the all-caps ["DONE"] included) reading [updated], text that
    is no date, a missing field, and a record whose [fields] member is
    null, which is not the shape the theorem is about. *)
Example effective_date_plain :
  get_effective_date (sample_issue "NS-5" "Done" "2026-2-5" "") = Ok (Some (mkdt 2026 2 5)).
Proof. reflexivity. Qed.

Example effective_date_all_caps_done :
  get_effective_date
    (sample_issue "NS-6" "DONE" "2026-02-15T10:00:00Z" "2026-03-02T08:30:00Z")
  = Ok (Some (mkdt 2026 3 2)).
Proof. reflexivity. Qed.

Example effective_date_unparsable :
  get_effective_date (sample_issue "NS-7" "Done" "15/02/2026" "2026-03-02") = Ok None
  /\ get_effective_date (sample_issue "NS-7" "Done" "2026-02-30" "2026-03-02") = Ok None.
Proof. split; reflexivity. Qed.

Example effective_date_absent :
  get_effective_date
    (JObj [("fields", JObj [("status", JObj [("name", JStr "Done")])])])
  = Ok None.
Proof. reflexivity. Qed.

Example effective_date_fields_null :
  get_effective_date (JObj [("fields", JNull)]) = Raise AttributeError.
Proof. reflexivity. Qed.

(** ** The interval generator *)

Lemma month_index_first_of (idx : Z) :
  month_index (first_of_month idx) = idx.
Proof.
  unfold month_index, first_of_month, month_year, month_number.
  cbn [year month]. Z.div_mod_to_equations. lia.
Qed.

Lemma month_index_year_month (t : datetime) :
  1 <= month t <= 12 ->
  year t = month_index t / 12 /\ month t = month_index t mod 12 + 1.
Proof.
  unfold month_index. intros H. Z.div_mod_to_equations. lia.
Qed.

Lemma dt_ltb_iff (a b : datetime) :
  dt_ltb a b = true <->
  year a < year b
  \/ (year a = year b
      /\ (month a < month b \/ (month a = month b /\ day a < day b))).
Proof.
  unfold dt_ltb.
  rewrite !orb_true_iff, !andb_true_iff, !orb_true_iff, !andb_true_iff,
    !Z.ltb_lt, !Z.eqb_eq.
  reflexivity.
Qed.

Lemma dt_eqb_iff (a b : datetime) :
  dt_eqb a b = true <-> year a = year b /\ month a = month b /\ day a = day b.
Proof.
  unfold dt_eqb. rewrite !andb_true_iff, !Z.eqb_eq. tauto.
Qed.

Lemma dt_eqb_eq (a b : datetime) : dt_eqb a b = true <-> a = b.
Proof.
  rewrite dt_eqb_iff. destruct a, b; cbn [year month day]. split.
  - intros [-> [-> ->]]. reflexivity.
  - intros H. inversion H. auto.
Qed.

Lemma dt_leb_iff (a b : datetime) :
  dt_leb a b = true <->
  year a < year b
  \/ (year a = year b
      /\ (month a < month b \/ (month a = month b /\ day a <= day b))).
Proof.
  unfold dt_leb. rewrite orb_true_iff, dt_ltb_iff, dt_eqb_iff. lia.
Qed.

Lemma dt_ltb_index (a b : datetime) :
  1 <= month a <= 12 -> 1 <= month b <= 12 ->
  (dt_ltb a b = true <->
   month_index a < month_index b
   \/ (month_index a = month_index b /\ day a < day b)).
Proof.
  intros Ha Hb. rewrite dt_ltb_iff. unfold month_index. lia.
Qed.

Lemma dt_leb_index (a b : datetime) :
  1 <= month a <= 12 -> 1 <= month b <= 12 ->
  (dt_leb a b = true <->
   month_index a < month_index b
   \/ (month_index a = month_index b /\ day a <= day b)).
Proof.
  intros Ha Hb. rewrite dt_leb_iff. unfold month_index. lia.
Qed.

Lemma valid_date_intro (y m d : Z) :
  1 <= y <= 9999 -> 1 <= m <= 12 -> 1 <= d <= monthrange y m ->
  valid_date y m d = true.
Proof.
  intros Hy Hm Hd. unfold valid_date.
  repeat (apply andb_true_intro; split); apply Z.leb_le; lia.
Qed.

Section Generator.

Variables start_date end_date : datetime.
Hypothesis start_valid : dt_valid start_date = true.
Hypothesis end_valid : dt_valid end_date = true.
Hypothesis start_le_end : dt_leb start_date end_date = true.
(** The month after [end_date] is still a month of the calendar. *)
Hypothesis end_not_last : month_index end_date < month_index (mkdt 9999 12 1).

Let n : nat := months_touched start_date end_date.
Let i0 : Z := month_index start_date.

Lemma start_bounds :
  1 <= year start_date <= 9999 /\ 1 <= month start_date <= 12
  /\ 1 <= day start_date <= monthrange (year start_date) (month start_date).
Proof. apply valid_date_bounds, start_valid. Qed.

Lemma end_bounds :
  1 <= year end_date <= 9999 /\ 1 <= month end_date <= 12
  /\ 1 <= day end_date <= monthrange (year end_date) (month end_date).
Proof. apply valid_date_bounds, end_valid. Qed.

Lemma index_le : i0 <= month_index end_date.
Proof.
  pose proof start_bounds as Hs. pose proof end_bounds as He.
  pose proof start_le_end as H.
  apply dt_leb_index in H; [| lia | lia]. subst i0. lia.
Qed.

Lemma n_eq : Z.of_nat n = month_index end_date - i0 + 1.
Proof.
  pose proof index_le. subst n. unfold months_touched. fold i0. lia.
Qed.

Lemma cursor_index (k : nat) : month_index (cursor start_date k) = i0 + Z.of_nat k.
Proof.
  destruct k as [| k]; unfold cursor.
  - subst i0. lia.
  - apply month_index_first_of.
Qed.

Lemma cursor_year_month (k : nat) :
  year (cursor start_date k) = (i0 + Z.of_nat k) / 12
  /\ month (cursor start_date k) = (i0 + Z.of_nat k) mod 12 + 1.
Proof.
  destruct k as [| k]; unfold cursor.
  - pose proof start_bounds as Hs. rewrite Z.add_0_r. subst i0.
    apply month_index_year_month. lia.
  - unfold first_of_month. cbn [year month]. fold i0. split; reflexivity.
Qed.

Lemma cursor_bounds (k : nat) :
  (k <= n)%nat ->
  1 <= year (cursor start_date k) <= 9999
  /\ 1 <= month (cursor start_date k) <= 12.
Proof.
  intros Hk. destruct (cursor_year_month k) as [-> ->].
  pose proof n_eq as Hn. pose proof start_bounds as Hs.
  pose proof end_bounds as He. pose proof end_not_last as Hl.
  unfold month_index in *. cbn [year month] in Hl. subst i0.
  unfold month_index in *.
  Z.div_mod_to_equations. lia.
Qed.

Lemma cursor_le_end (k : nat) :
  (k < n)%nat -> dt_leb (cursor start_date k) end_date = true.
Proof.
  intros Hk. pose proof (cursor_bounds k ltac:(lia)) as Hc.
  pose proof end_bounds as He.
  apply dt_leb_index; [lia | lia |].
  rewrite cursor_index. pose proof n_eq as Hn.
  destruct k as [| k].
  - pose proof start_le_end as H. pose proof start_bounds as Hs.
    apply dt_leb_index in H; [| lia | lia]. fold i0 in H.
    unfold cursor. lia.
  - unfold cursor, first_of_month. cbn [day]. lia.
Qed.

Lemma cursor_past_end : dt_leb (cursor start_date n) end_date = false.
Proof.
  pose proof (cursor_bounds n ltac:(lia)) as Hc.
  pose proof end_bounds as He.
  destruct (dt_leb (cursor start_date n) end_date) eqn:E; [| reflexivity].
  apply dt_leb_index in E; [| lia | lia].
  rewrite cursor_index in E. pose proof n_eq. lia.
Qed.

Lemma cursor_next (k : nat) :
  (k < n)%nat ->
  (if month (cursor start_date k) =? 12
   then datetime_new (year (cursor start_date k) + 1) 1 1
   else datetime_new (year (cursor start_date k))
          (month (cursor start_date k) + 1) 1)
  = Ok (cursor start_date (S k)).
Proof.
  intros Hk.
  pose proof (cursor_bounds k ltac:(lia)) as Hc.
  pose proof (cursor_bounds (S k) ltac:(lia)) as Hc'.
  destruct (cursor_year_month k) as [Hy Hm].
  destruct (cursor_year_month (S k)) as [Hy' Hm'].
  assert (Z.of_nat (S k) = Z.of_nat k + 1) as HS by lia.
  rewrite HS in Hy', Hm'.
  assert (cursor start_date (S k)
          = mkdt (year (cursor start_date (S k)))
                 (month (cursor start_date (S k))) 1) as Hrec
      by reflexivity.
  rewrite Hrec.
  destruct (Z.eqb_spec (month (cursor start_date k)) 12) as [E | E].
  - unfold datetime_new. rewrite valid_date_intro.
    + f_equal. f_equal; Z.div_mod_to_equations; lia.
    + Z.div_mod_to_equations; lia.
    + lia.
    + pose proof (monthrange_bounds (year (cursor start_date k) + 1) 1). lia.
  - unfold datetime_new. rewrite valid_date_intro.
    + f_equal. f_equal; Z.div_mod_to_equations; lia.
    + lia.
    + lia.
    + pose proof (monthrange_bounds (year (cursor start_date k))
                    (month (cursor start_date k) + 1)). lia.
Qed.

Lemma loop_interval (k : nat) :
  (k < n)%nat ->
  let current := cursor start_date k in
  exists month_end,
    datetime_new (year current) (month current)
      (monthrange (year current) (month current)) = Ok month_end
    /\ {| iv_start := strftime_ymd current;
          iv_end := strftime_ymd
                      (if dt_ltb end_date month_end then end_date else month_end);
          iv_label := strftime_BY current |}
       = interval_of_month start_date end_date k.
Proof.
  intros Hk current.
  pose proof (cursor_bounds k ltac:(lia)) as Hc. fold current in Hc.
  exists (last_of_month (year current) (month current)). split.
  - unfold datetime_new. rewrite valid_date_intro; try lia.
    + reflexivity.
    + pose proof (monthrange_bounds (year current) (month current)). lia.
  - destruct (cursor_year_month k) as [Hy Hm]. fold current in Hy, Hm.
    unfold interval_of_month, month_year, month_number.
    rewrite Hy, Hm. reflexivity.
Qed.

Lemma intervals_loop_run (j : nat) :
  forall (k : nat) (acc : list Interval),
    (k + j = n)%nat ->
    intervals_loop (S j) end_date (cursor start_date k) acc
    = Some (Ok (acc ++ map (interval_of_month start_date end_date) (seq k j))%list).
Proof.
  induction j as [| j IH]; intros k acc Hk.
  - assert (k = n) by lia. subst k.
    cbn [intervals_loop]. rewrite cursor_past_end.
    cbn [seq map]. now rewrite app_nil_r.
  - change (intervals_loop (S (S j)) end_date (cursor start_date k) acc)
      with (if dt_leb (cursor start_date k) end_date then
              let current := cursor start_date k in
              let last_day := monthrange (year current) (month current) in
              match datetime_new (year current) (month current) last_day with
              | Raise e => Some (Raise e)
              | Ok month_end =>
                  let month_end :=
                    if dt_ltb end_date month_end then end_date else month_end in
                  let intervals :=
                    (acc ++ [ {| iv_start := strftime_ymd current;
                                 iv_end := strftime_ymd month_end;
                                 iv_label := strftime_BY current |} ])%list in
                  match (if month current =? 12
                         then datetime_new (year current + 1) 1 1
                         else datetime_new (year current) (month current + 1) 1) with
                  | Raise e => Some (Raise e)
                  | Ok current' => intervals_loop (S j) end_date current' intervals
                  end
              end
            else Some (Ok acc)).
    rewrite cursor_le_end by lia. cbv zeta.
    destruct (loop_interval k ltac:(lia)) as [month_end [Hme Hiv]].
    rewrite Hme, Hiv, cursor_next by lia.
    rewrite IH by lia. cbn [seq map]. now rewrite <- app_assoc.
Qed.

Lemma generate_intervals_between_run :
  generate_intervals_between start_date end_date
  = Some (Ok (monthly_intervals start_date end_date)).
Proof.
  unfold generate_intervals_between, monthly_intervals. fold n.
  change start_date with (cursor start_date 0) at 1.
  rewrite intervals_loop_run by lia. reflexivity.
Qed.

Lemma n_pos : (0 < n)%nat.
Proof. pose proof n_eq. pose proof index_le. lia. Qed.

Lemma last_interval_end :
  iv_end (interval_of_month start_date end_date (pred n)) = strftime_ymd end_date.
Proof.
  pose proof n_pos as Hn. pose proof n_eq as Hn'.
  pose proof end_bounds as He.
  unfold interval_of_month. cbn [iv_end].
  assert (i0 + Z.of_nat (pred n) = month_index end_date) as Hidx by lia.
  fold i0. rewrite Hidx.
  destruct (month_index_year_month end_date ltac:(lia)) as [Hy Hm].
  unfold month_year, month_number. rewrite <- Hy, <- Hm.
  destruct (dt_ltb end_date (last_of_month (year end_date) (month end_date)))
    eqn:E; [reflexivity |].
  f_equal. destruct end_date as [y m d]. cbn [year month day] in *.
  unfold last_of_month. f_equal.
  assert (dt_ltb (mkdt y m d) (mkdt y m (monthrange y m)) = true <->
          d < monthrange y m) as Hlt.
  { rewrite dt_ltb_iff. cbn [year month day]. lia. }
  destruct (Z.lt_ge_cases d (monthrange y m)) as [Hd | Hd].
  - apply Hlt in Hd. unfold last_of_month in E. congruence.
  - lia.
Qed.

Lemma cursor_valid (k : nat) :
  (k < n)%nat -> dt_valid (cursor start_date k) = true.
Proof.
  intros Hk. destruct k as [| k]; [exact start_valid |].
  pose proof (cursor_bounds (S k) ltac:(lia)) as Hc.
  unfold dt_valid. apply valid_date_intro; try lia.
  unfold cursor, first_of_month. cbn [day year month].
  pose proof (monthrange_bounds (month_year (month_index start_date + Z.of_nat (S k)))
                (month_number (month_index start_date + Z.of_nat (S k)))).
  lia.
Qed.

Lemma strftime_BY_not_empty (t : datetime) : strftime_BY t <> "".
Proof.
  unfold strftime_BY. destruct (month_name (month t)); discriminate.
Qed.

Lemma interval_of_month_wf (k : nat) :
  (k < n)%nat -> interval_wf (interval_of_month start_date end_date k).
Proof.
  intros Hk. unfold interval_wf, interval_of_month. cbn [iv_start iv_end iv_label].
  split; [| split].
  - exists (cursor start_date k). apply strptime_strftime. now apply cursor_valid.
  - eexists. apply strptime_strftime.
    match goal with |- context [if ?b then _ else _] => destruct b end;
      [exact end_valid |].
    pose proof (cursor_bounds k ltac:(lia)) as Hc.
    destruct (cursor_year_month k) as [Hy Hm]. fold i0.
    unfold month_year, month_number. rewrite <- Hy, <- Hm.
    unfold dt_valid, last_of_month. cbn [year month day].
    apply valid_date_intro; try lia.
    pose proof (monthrange_bounds (year (cursor start_date k))
                  (month (cursor start_date k))). lia.
  - apply strftime_BY_not_empty.
Qed.

(** What the generator returns is fit for the interval assignment. *)
Lemma monthly_intervals_wf :
  Forall interval_wf (monthly_intervals start_date end_date).
Proof.
  unfold monthly_intervals. apply Forall_forall. intros iv Hin.
  apply in_map_iff in Hin. destruct Hin as [k [<- Hk]].
  apply in_seq in Hk. apply interval_of_month_wf. fold n. lia.
Qed.

End Generator.

Lemma last_map_seq {A : Type} (f : nat -> A) (n : nat) (d : A) :
  (0 < n)%nat -> last (map f (seq 0 n)) d = f (pred n).
Proof.
  intros Hn. destruct n as [| n]; [lia |].
  rewrite seq_S, map_app. cbn [map]. rewrite last_last. reflexivity.
Qed.

(** C5.  For valid dates [start_date <= end_date] (from the year 1000 on,
    where the year is written with four digits everywhere, and with a
    calendar month left after [end_date]) the generator returns one interval
    for each calendar month touched, in order; each ends on the last day of
    its month, or on [end_date] when that comes first; the last one ends on
    [end_date].  For the configured dates 2026-01-07 and 2026-03-31 the
    result is the three intervals of January, February and March 2026. *)
Theorem generate_intervals_monthly :
  (forall start_date end_date : datetime,
      dt_valid start_date = true ->
      dt_valid end_date = true ->
      1000 <= year start_date ->
      dt_leb start_date end_date = true ->
      month_index end_date < month_index (mkdt 9999 12 1) ->
      generate_intervals_between start_date end_date
      = Some (Ok (monthly_intervals start_date end_date))
      /\ List.length (monthly_intervals start_date end_date)
         = months_touched start_date end_date
      /\ last (map iv_end (monthly_intervals start_date end_date)) ""
         = strftime_ymd end_date)
  /\ generate_intervals
     = Some (Ok [ mkInterval "2026-01-07" "2026-01-31" "January 2026";
                  mkInterval "2026-02-01" "2026-02-28" "February 2026";
                  mkInterval "2026-03-01" "2026-03-31" "March 2026" ]).
Proof.
  split; [| reflexivity].
  intros start_date end_date Hs He _ Hle Hlast. repeat split.
  - now apply generate_intervals_between_run.
  - unfold monthly_intervals. now rewrite length_map, length_seq.
  - unfold monthly_intervals. rewrite map_map.
    rewrite last_map_seq by now apply n_pos.
    now apply last_interval_end.
Qed.

Lemma generate_intervals_monthly_witness :
  generate_intervals_between START_DATE END_DATE
  = Some (Ok (monthly_intervals START_DATE END_DATE))
  /\ List.length (monthly_intervals START_DATE END_DATE)
     = months_touched START_DATE END_DATE
  /\ last (map iv_end (monthly_intervals START_DATE END_DATE)) ""
     = strftime_ymd END_DATE.
Proof.
  apply (proj1 generate_intervals_monthly START_DATE END_DATE).
  - reflexivity.
  - reflexivity.
  - simpl. lia.
  - reflexivity.
  - vm_compute. reflexivity.
Defined.

(** ** Interval assignment *)

Ltac bind_inv H :=
  repeat match type of H with
         | rbind ?r _ = Ok _ =>
             let E := fresh "E" in
             destruct r eqn:E; cbn [rbind] in H; [| discriminate H]
         end.

Lemma week_label_loop_find (intervals : list Interval) (d : datetime) :
  Forall interval_wf intervals ->
  week_label_loop intervals d
  = Ok (option_map iv_label (find (fun iv => interval_contains iv d) intervals)).
Proof.
  induction 1 as [| iv rest [[s Hs] [[e He] _]] _ IH]; [reflexivity |].
  cbn [week_label_loop find]. unfold interval_contains at 1.
  rewrite Hs, He. cbn [rbind].
  destruct (dt_leb s d && dt_leb d e)%bool; [reflexivity | exact IH].
Qed.

Lemma find_label_truthy (intervals : list Interval) (f : Interval -> bool)
    (iv : Interval) :
  Forall interval_wf intervals ->
  find f intervals = Some iv -> label_falsy (Some (iv_label iv)) = false.
Proof.
  intros Hwf Hfind. apply find_some in Hfind. destruct Hfind as [Hin _].
  rewrite Forall_forall in Hwf. destruct (Hwf iv Hin) as [_ [_ Hl]].
  cbn [label_falsy]. now apply String.eqb_neq.
Qed.

Lemma assign_week_label_expected (status_name : json)
    (effective_date : option datetime) (intervals : list Interval) :
  Forall interval_wf intervals ->
  assign_week_label status_name effective_date intervals
  = Ok (expected_week_label (is_completed status_name) effective_date intervals).
Proof.
  intros Hwf. unfold assign_week_label, expected_week_label.
  destruct (is_completed status_name); [| reflexivity].
  destruct effective_date as [d |]; [| reflexivity].
  rewrite week_label_loop_find by exact Hwf. cbn [rbind].
  destruct (find (fun iv => interval_contains iv d) intervals) as [iv |] eqn:F.
  - cbn [option_map]. rewrite (find_label_truthy _ _ _ Hwf F). reflexivity.
  - cbn [option_map label_falsy andb].
    destruct (dt_ltb d START_DATE); [| reflexivity].
    destruct intervals; reflexivity.
Qed.

Lemma process_issue_labelled (intervals : list Interval) (st st' : loop_state)
    (issue : json) :
  Forall interval_wf intervals ->
  process_issue intervals st issue = Ok st' ->
  exists p : ProcessedIssue,
    processed st' = (processed st ++ [p])%list /\ labelled intervals issue p.
Proof.
  intros Hwf H. unfold process_issue in H. bind_inv H.
  match goal with
  | E : assign_week_label _ _ _ = Ok _ |- _ =>
      rewrite assign_week_label_expected in E by exact Hwf;
      injection E as E
  end.
  injection H as H. subst st'. cbn [processed].
  eexists. split; [reflexivity |].
  unfold labelled. eexists. split; [eassumption |].
  cbn [effectiveDate isCompleted status weekLabel].
  subst. repeat split.
Qed.

Lemma process_loop_labelled (intervals : list Interval) :
  Forall interval_wf intervals ->
  forall (issues : list json) (st st' : loop_state),
    process_loop intervals st issues = Ok st' ->
    exists ps : list ProcessedIssue,
      processed st' = (processed st ++ ps)%list
      /\ Forall2 (labelled intervals) issues ps.
Proof.
  intros Hwf. induction issues as [| issue rest IH]; intros st st' H.
  - injection H as <-. exists []. split; [now rewrite app_nil_r | constructor].
  - cbn [process_loop] in H.
    destruct (process_issue intervals st issue) as [st1 | e] eqn:E;
      [| discriminate H].
    cbn [rbind] in H.
    destruct (process_issue_labelled _ _ _ _ Hwf E) as [p [Hp Hl]].
    destruct (IH _ _ H) as [ps [Hps Hls]].
    exists (p :: ps). split.
    + rewrite Hps, Hp, <- app_assoc. reflexivity.
    + now constructor.
Qed.

Lemma Forall2_in_right {A B : Type} (R : A -> B -> Prop) (l : list A)
    (l' : list B) (y : B) :
  Forall2 R l l' -> In y l' -> exists x, In x l /\ R x y.
Proof.
  induction 1 as [| x y' l l' HR _ IH]; intros Hin; [contradiction |].
  destruct Hin as [<- | Hin].
  - exists x. split; [now left | exact HR].
  - destruct (IH Hin) as [x' [Hx HR']]. exists x'. split; [now right | exact HR'].
Qed.

Lemma py_get_ok (d : json) (k : string) (default v : json) :
  py_get d k default = Ok v ->
  exists members,
    d = JObj members
    /\ v = match assoc k members with Some x => x | None => default end.
Proof.
  destruct d; cbn [py_get]; try discriminate.
  intros [= <-]. now eexists.
Qed.

Lemma status_of_get (issue fields status_obj sn : json) :
  py_get issue "fields" (JObj []) = Ok fields ->
  py_get fields "status" (JObj []) = Ok status_obj ->
  py_get status_obj "name" (JStr "") = Ok sn ->
  status_of issue = sn.
Proof.
  intros H1 H2 H3.
  apply py_get_ok in H1. destruct H1 as [ms [-> Hf]].
  apply py_get_ok in H2. destruct H2 as [fs [-> Hs]].
  apply py_get_ok in H3. destruct H3 as [ss [-> ->]].
  unfold status_of.
  destruct (assoc "fields" ms) as [f |].
  - subst f. destruct (assoc "status" fs) as [so |].
    + subst so. reflexivity.
    + injection Hs as ->. reflexivity.
  - injection Hf as ->. cbn [assoc] in Hs. injection Hs as ->. reflexivity.
Qed.

(** The loop makes one record for each issue, in order; what a pass
    establishes of its record holds of them all. *)
Lemma process_loop_related (intervals : list Interval)
    (R : json -> ProcessedIssue -> Prop) :
  (forall st st' issue,
      process_issue intervals st issue = Ok st' ->
      exists p, processed st' = (processed st ++ [p])%list /\ R issue p) ->
  forall (issues : list json) (st st' : loop_state),
    process_loop intervals st issues = Ok st' ->
    exists ps : list ProcessedIssue,
      processed st' = (processed st ++ ps)%list /\ Forall2 R issues ps.
Proof.
  intros Hstep. induction issues as [| issue rest IH]; intros st st' H.
  - injection H as <-. exists []. split; [now rewrite app_nil_r | constructor].
  - cbn [process_loop] in H.
    destruct (process_issue intervals st issue) as [st1 | e] eqn:E;
      [| discriminate H].
    cbn [rbind] in H.
    destruct (Hstep _ _ _ E) as [p [Hp Hl]].
    destruct (IH _ _ H) as [ps [Hps Hls]].
    exists (p :: ps). split.
    + rewrite Hps, Hp, <- app_assoc. reflexivity.
    + now constructor.
Qed.

Lemma process_issue_classified (intervals : list Interval)
    (st st' : loop_state) (issue : json) :
  Forall interval_wf intervals ->
  process_issue intervals st issue = Ok st' ->
  exists p : ProcessedIssue,
    processed st' = (processed st ++ [p])%list /\ classified intervals issue p.
Proof.
  intros Hwf H. unfold process_issue in H. bind_inv H.
  match goal with
  | E : assign_week_label _ _ _ = Ok _ |- _ =>
      rewrite assign_week_label_expected in E by exact Hwf;
      injection E as E
  end.
  match goal with
  | E1 : py_get issue "fields" (JObj []) = Ok ?f,
    E2 : py_get ?f "status" (JObj []) = Ok ?so,
    E3 : py_get ?so "name" (JStr "") = Ok ?sn |- _ =>
      pose proof (status_of_get _ _ _ _ E1 E2 E3) as Hst
  end.
  injection H as H. subst st'. cbn [processed].
  eexists. split; [reflexivity |].
  unfold classified.
  match goal with
  | E : get_effective_date issue = Ok ?d |- _ =>
      exists d; split; [exact E |]
  end.
  cbn [effectiveDate isCompleted status weekLabel].
  rewrite Hst. subst. repeat split.
  match goal with
  | |- match ?d with Some _ => _ | None => _ end =>
      destruct d; [intros _ |]; reflexivity
  end.
Qed.

Lemma process_issue_in_progress (intervals : list Interval)
    (st st' : loop_state) (issue : json) :
  process_issue intervals st issue = Ok st' ->
  exists p : ProcessedIssue,
    processed st' = (processed st ++ [p])%list
    /\ (status_of issue = JStr "In Progress" ->
        status p = JStr "In Progress"
        /\ isCompleted p = false /\ weekLabel p = None).
Proof.
  intros H. unfold process_issue in H. bind_inv H.
  match goal with
  | E1 : py_get issue "fields" (JObj []) = Ok ?f,
    E2 : py_get ?f "status" (JObj []) = Ok ?so,
    E3 : py_get ?so "name" (JStr "") = Ok ?sn |- _ =>
      pose proof (status_of_get _ _ _ _ E1 E2 E3) as Hst
  end.
  injection H as H. subst st'. cbn [processed].
  eexists. split; [reflexivity |].
  cbn [isCompleted status weekLabel].
  rewrite Hst. intros Hip. subst.
  match goal with
  | E : assign_week_label _ _ _ = Ok _ |- _ =>
      rewrite Hip in E; cbn in E; injection E as <-
  end.
  rewrite Hip. repeat split.
Qed.

(** C6.  Take a run of the processor that returns a dataset.  The issues of
    the dataset are the child issues, one record each, in order, and a
    record carries the status name of its issue and the completion flag of
    that status.  With intervals whose two dates parse and whose labels are
    not empty: when the status of the issue is a completion status and its
    effective date is not null, the interval label of the record is the
    label of the first interval that contains the date, both ends included;
    failing that, the label of the first interval when the date is before
    the configured start date; in every other case, and for every record
    that is not completed, the label is null.  With any intervals, the
    record of an issue in status ["In Progress"] is not completed and has a
    null label, whatever its dates.  An issue in status ["Done"] resolved
    on 2026-02-15 gets the effective date ["2026-02-15"] and the label
    ["February 2026"]. *)
Theorem week_label_assignment :
  (forall (utcnow : string) (issues : list json) (intervals : list Interval)
          (initiatives epics : list json) (data : Dataset),
      Forall interval_wf intervals ->
      process_issues utcnow issues intervals initiatives epics = Ok data ->
      Forall2 (classified intervals) issues (ds_issues data)
      /\ (forall p : ProcessedIssue,
             In p (ds_issues data) -> isCompleted p = false ->
             weekLabel p = None))
  /\ (forall (utcnow : string) (issues : list json) (intervals : list Interval)
             (initiatives epics : list json) (data : Dataset),
         process_issues utcnow issues intervals initiatives epics = Ok data ->
         Forall2 (fun issue p =>
                    status_of issue = JStr "In Progress" ->
                    status p = JStr "In Progress"
                    /\ isCompleted p = false /\ weekLabel p = None)
           issues (ds_issues data))
  /\ (exists data p,
         process_issues "2026-03-02T09:00:00Z"
           [ sample_issue "NS-1" "Done" "2026-02-15T10:00:00Z"
               "2026-03-02T08:30:00Z" ]
           configured_intervals [] [] = Ok data
         /\ ds_issues data = [p]
         /\ status p = JStr "Done"
         /\ isCompleted p = true
         /\ effectiveDate p = Some "2026-02-15"
         /\ weekLabel p = Some "February 2026").
Proof.
  split; [| split].
  - intros utcnow issues intervals initiatives epics data Hwf H.
    unfold process_issues in H. bind_inv H.
    injection H as <-. cbn [ds_issues].
    match goal with
    | E : process_loop _ _ _ = Ok _ |- _ =>
        destruct (process_loop_related intervals (classified intervals)
                    (fun st st' issue =>
                       process_issue_classified intervals st st' issue Hwf)
                    _ _ _ E) as [ps [Hps Hls]]
    end.
    cbn [processed app] in Hps. rewrite Hps. split; [exact Hls |].
    intros p Hin Hc.
    destruct (Forall2_in_right _ _ _ _ Hls Hin)
      as [issue [_ [d [_ [_ [Hcomp [Hw _]]]]]]].
    rewrite Hw, <- Hcomp, Hc. reflexivity.
  - intros utcnow issues intervals initiatives epics data H.
    unfold process_issues in H. bind_inv H.
    injection H as <-. cbn [ds_issues].
    match goal with
    | E : process_loop _ _ _ = Ok _ |- _ =>
        destruct (process_loop_related intervals _
                    (process_issue_in_progress intervals) _ _ _ E)
          as [ps [Hps Hls]]
    end.
    cbn [processed app] in Hps. rewrite Hps. exact Hls.
  - eexists. eexists. split; [vm_compute; reflexivity |].
    repeat split.
Qed.

Lemma week_label_assignment_witness :
  exists data,
    process_issues "2026-02-01T00:00:00Z"
      [ sample_issue "NS-1" "Done" "2026-02-15T10:00:00Z" "2026-03-02T08:30:00Z";
        sample_issue "NS-2" "In Progress" "2026-02-15T10:00:00Z"
          "2026-02-20T08:30:00Z" ]
      configured_intervals [] [] = Ok data
    /\ Forall2 (classified configured_intervals)
         [ sample_issue "NS-1" "Done" "2026-02-15T10:00:00Z" "2026-03-02T08:30:00Z";
           sample_issue "NS-2" "In Progress" "2026-02-15T10:00:00Z"
             "2026-02-20T08:30:00Z" ]
         (ds_issues data)
    /\ (forall p : ProcessedIssue,
           In p (ds_issues data) -> isCompleted p = false -> weekLabel p = None).
Proof.
  eexists. split.
  - vm_compute. reflexivity.
  - apply (proj1 week_label_assignment "2026-02-01T00:00:00Z" _ _ [] []).
    + repeat constructor; try (eexists; vm_compute; reflexivity);
        vm_compute; discriminate.
    + vm_compute. reflexivity.
Defined.

(** The labels the loop gives to a few records under the configured
    intervals. *)
Example done_in_february :
  labels_of (sample_issue "NS-1" "Done" "2026-02-15T10:00:00Z" "2026-03-02T08:30:00Z")
  = Ok [(true, Some "2026-02-15", Some "February 2026")].
Proof. vm_compute. reflexivity. Qed.

Example in_progress_has_no_label :
  labels_of (sample_issue "NS-2" "In Progress" "2026-02-15T10:00:00Z" "2026-02-20T08:30:00Z")
  = Ok [(false, Some "2026-02-20", None)].
Proof. vm_compute. reflexivity. Qed.

Example completed_before_start_falls_back :
  labels_of (sample_issue "NS-3" "Done" "2025-12-01T10:00:00Z" "2026-02-20T08:30:00Z")
  = Ok [(true, Some "2025-12-01", Some "January 2026")].
Proof. vm_compute. reflexivity. Qed.

Example completed_after_end_has_no_label :
  labels_of (sample_issue "NS-4" "PM Review" "" "2026-04-02T08:30:00Z")
  = Ok [(true, Some "2026-04-02", None)].
Proof. vm_compute. reflexivity. Qed.

(** ** The paginated fetch *)

Section RemoteProperties.

Variable World : Type.
Variable post : World -> request -> reply * World.
Variables JIRA_EMAIL JIRA_API_TOKEN JIRA_BASE_URL : string.

#[local] Abbreviation search_request := (search_request JIRA_EMAIL JIRA_API_TOKEN JIRA_BASE_URL).
#[local] Abbreviation pages_then := (pages_then World post JIRA_EMAIL JIRA_API_TOKEN JIRA_BASE_URL).
#[local] Abbreviation fetch_loop := (fetch_loop World post JIRA_EMAIL JIRA_API_TOKEN JIRA_BASE_URL).
#[local] Abbreviation fetch_issues_by_jql :=
  (fetch_issues_by_jql World post JIRA_EMAIL JIRA_API_TOKEN JIRA_BASE_URL).
#[local] Abbreviation child_loop := (child_loop World post JIRA_EMAIL JIRA_API_TOKEN JIRA_BASE_URL).
#[local] Abbreviation epics_loop := (epics_loop World post JIRA_EMAIL JIRA_API_TOKEN JIRA_BASE_URL).
#[local] Abbreviation page_request := (page_request JIRA_EMAIL JIRA_API_TOKEN JIRA_BASE_URL).
#[local] Abbreviation exchanged := (exchanged World post JIRA_EMAIL JIRA_API_TOKEN JIRA_BASE_URL).

(** The request the loop sends when its variable holds [v]. *)
Lemma search_request_attached (jql : string) (v : json) :
  search_request jql v = page_request jql (attached v).
Proof. reflexivity. Qed.

Lemma exchanged_pages_then (jql : string) (token : option json) (w : World)
    (pages : list (list json)) (token' : option json) (w' : World) :
  exchanged jql token w pages token' w' ->
  forall v : json,
    attached v = token ->
    exists v' : json, attached v' = token' /\ pages_then jql v w pages v' w'.
Proof.
  induction 1 as [token w | token w r w1 items next rest token2 w2
                              Hpost Hread Htok _ IH];
    intros v Hv.
  - exists v. split; [exact Hv | apply pt_done].
  - destruct (IH next) as [v' [Hv' Hp]].
    { unfold attached. now rewrite Htok. }
    exists v'. split; [exact Hv' |].
    eapply pt_more; [| exact Hread | exact Htok | exact Hp].
    rewrite search_request_attached, Hv. exact Hpost.
Qed.

Lemma pages_then_exchanged (jql : string) (v : json) (w : World)
    (pages : list (list json)) (v' : json) (w' : World) :
  pages_then jql v w pages v' w' ->
  exchanged jql (attached v) w pages (attached v') w'.
Proof.
  induction 1 as [v w | v w r w1 items v1 rest v2 w2 Hpost Hread Htok _ IH].
  - apply ex_done.
  - eapply ex_more; [| exact Hread | exact Htok |].
    + rewrite <- search_request_attached. exact Hpost.
    + unfold attached in IH at 1. rewrite Htok in IH. exact IH.
Qed.

Lemma fetch_loop_pages (jql : string) (token : json) (w : World)
    (pages : list (list json)) (token' : json) (w' : World) :
  pages_then jql token w pages token' w' ->
  forall (extra : nat) (acc : list json),
    fetch_loop (List.length pages + extra) jql acc token w
    = fetch_loop extra jql (acc ++ List.concat pages)%list token' w'.
Proof.
  induction 1 as [token w | token w r w1 items token1 rest token2 w2
                              Hpost Hread Htok _ IH];
    intros extra acc.
  - cbn [List.length List.concat Nat.add]. now rewrite app_nil_r.
  - cbn [List.length List.concat Nat.add fetch_loop].
    rewrite Hpost, Hread, Htok, IH. now rewrite app_assoc.
Qed.

Lemma child_loop_pages (initiatives epics : list json) (token : json)
    (w : World) (pages : list (list json)) (token' : json) (w' : World) :
  pages_then CHILD_JQL token w pages token' w' ->
  forall (extra : nat) (acc : list json),
    child_loop (List.length pages + extra) initiatives epics acc token w
    = child_loop extra initiatives epics (acc ++ List.concat pages)%list token' w'.
Proof.
  induction 1 as [token w | token w r w1 items token1 rest token2 w2
                              Hpost Hread Htok _ IH];
    intros extra acc.
  - cbn [List.length List.concat Nat.add]. now rewrite app_nil_r.
  - cbn [List.length List.concat Nat.add child_loop].
    rewrite Hpost, Hread, Htok, IH. now rewrite app_assoc.
Qed.

Lemma fetch_ends_on_last_page (jql : string) (w : World)
    (pages : list (list json)) (token : json) (w1 : World) (r : reply)
    (w2 : World) (items : list json) (token' : json) (fuel : nat) :
  pages_then jql JNull w pages token w1 ->
  post w1 (search_request jql token) = (r, w2) ->
  read_page r = Some (items, token') ->
  truthy token' = false ->
  (List.length pages < fuel)%nat ->
  fetch_issues_by_jql fuel jql w = Some ((List.concat pages ++ items)%list, w2).
Proof.
  intros Hpages Hpost Hread Htok Hfuel.
  unfold fetch_issues_by_jql.
  replace fuel with (List.length pages + S (fuel - S (List.length pages)))%nat
    by lia.
  rewrite (fetch_loop_pages _ _ _ _ _ _ Hpages).
  cbn [fetch_loop app]. now rewrite Hpost, Hread, Htok.
Qed.

Lemma fetch_ends_on_failure (jql : string) (w : World)
    (pages : list (list json)) (token : json) (w1 : World) (r : reply)
    (w2 : World) (fuel : nat) :
  pages_then jql JNull w pages token w1 ->
  post w1 (search_request jql token) = (r, w2) ->
  read_page r = None ->
  (List.length pages < fuel)%nat ->
  fetch_issues_by_jql fuel jql w = Some (List.concat pages, w2).
Proof.
  intros Hpages Hpost Hread Hfuel.
  unfold fetch_issues_by_jql.
  replace fuel with (List.length pages + S (fuel - S (List.length pages)))%nat
    by lia.
  rewrite (fetch_loop_pages _ _ _ _ _ _ Hpages).
  cbn [fetch_loop app]. now rewrite Hpost, Hread.
Qed.

Lemma child_loop_ends_on_failure (initiatives epics : list json) (w : World)
    (pages : list (list json)) (token : json) (w1 : World) (r : reply)
    (w2 : World) (fuel : nat) :
  pages_then CHILD_JQL JNull w pages token w1 ->
  post w1 (search_request CHILD_JQL token) = (r, w2) ->
  read_page r = None ->
  (List.length pages < fuel)%nat ->
  child_loop fuel initiatives epics [] JNull w = Some (([], [], []), w2).
Proof.
  intros Hpages Hpost Hread Hfuel.
  replace fuel with (List.length pages + S (fuel - S (List.length pages)))%nat
    by lia.
  rewrite (child_loop_pages _ _ _ _ _ _ _ Hpages).
  cbn [child_loop app]. now rewrite Hpost, Hread.
Qed.

Lemma epics_loop_batch_failure (batch : list json) (rest : list (list json))
    (joined : string) (acc : list json) (w : World)
    (pages : list (list json)) (token : json) (w1 : World) (r : reply)
    (w2 : World) (fuel : nat) :
  join_comma batch = Ok joined ->
  pages_then (epics_jql joined) JNull w pages token w1 ->
  post w1 (search_request (epics_jql joined) token) = (r, w2) ->
  read_page r = None ->
  (List.length pages < fuel)%nat ->
  epics_loop fuel (batch :: rest) acc w
  = epics_loop fuel rest (acc ++ List.concat pages)%list w2.
Proof.
  intros Hjoin Hpages Hpost Hread Hfuel.
  cbn [epics_loop]. rewrite Hjoin.
  now rewrite (fetch_ends_on_failure _ _ _ _ _ _ _ _ Hpages Hpost Hread Hfuel).
Qed.

Lemma read_page_failure :
  read_page TransportError = None
  /\ (forall code body, code <> 200 -> read_page (Response code body) = None)
  /\ (forall code, read_page (Response code None) = None).
Proof.
  repeat split.
  - intros code body Hc. unfold read_page.
    destruct (Z.eqb_spec code 200); [contradiction | reflexivity].
  - intros code. unfold read_page. destruct (negb (code =? 200)); reflexivity.
Qed.

Lemma read_page_page (issues : list json) (token : json) :
  read_page (page issues token) = Some (issues, token).
Proof. reflexivity. Qed.

Lemma read_page_last_page (issues : list json) :
  read_page (last_page issues) = Some (issues, JNull).
Proof. reflexivity. Qed.

(** Every run of the loop that ends has this shape: pages with tokens, then
    one more request, answered by a failure or by a page without a token. *)
Lemma fetch_loop_inv (fuel : nat) (jql : string) :
  forall (acc : list json) (token : json) (w : World)
         (res : list json) (w' : World),
    fetch_loop fuel jql acc token w = Some (res, w') ->
    exists pages token1 w1 r,
      pages_then jql token w pages token1 w1
      /\ post w1 (search_request jql token1) = (r, w')
      /\ ((read_page r = None /\ res = (acc ++ List.concat pages)%list)
          \/ (exists items token2,
                 read_page r = Some (items, token2)
                 /\ truthy token2 = false
                 /\ res = (acc ++ List.concat pages ++ items)%list)).
Proof.
  induction fuel as [| fuel IH]; intros acc token w res w' H;
    [discriminate H |].
  cbn [fetch_loop] in H.
  destruct (post w (search_request jql token)) as [r w1] eqn:Hpost.
  destruct (read_page r) as [[items token1] |] eqn:Hread.
  - destruct (truthy token1) eqn:Htok.
    + destruct (IH _ _ _ _ _ H) as [pages [token2 [w2 [r2 [Hp [Hpost2 Hres]]]]]].
      exists (items :: pages), token2, w2, r2. split; [| split].
      * eapply pt_more; eassumption.
      * exact Hpost2.
      * cbn [List.concat].
        destruct Hres as [[Hn ->] | [items2 [token3 [Hr [Ht ->]]]]].
        -- left. split; [exact Hn |]. now rewrite <- !app_assoc.
        -- right. exists items2, token3. repeat split; try assumption.
           now rewrite <- !app_assoc.
    + injection H as <- <-.
      exists [], token, w, r. split; [apply pt_done | split; [exact Hpost |]].
      right. exists items, token1. repeat split; assumption.
  - injection H as <- <-.
    exists [], token, w, r. split; [apply pt_done | split; [exact Hpost |]].
    left. split; [exact Hread |]. cbn [List.concat]. now rewrite app_nil_r.
Qed.


(** C8 (as amended).  A transport error, a status code other than 200 and
    a body that does not decode all end the pass.  When that happens
    after the service has served some pages with tokens,
    [fetch_issues_by_jql] (the initiative fetch and each epic batch)
    returns the records of those pages and sends no further request for
    that query; the epic fetch keeps the records of the batch and goes on
    with the next batch; the loop of the child-issue fetch returns three
    empty lists, and sends no further request either. *)
Theorem fetch_stops_on_failure :
  (read_page TransportError = None
   /\ (forall code body, code <> 200 -> read_page (Response code body) = None)
   /\ (forall code, read_page (Response code None) = None))
  /\ (forall (jql : string) (w : World) (pages : list (list json))
             (token : json) (w1 : World) (r : reply) (w2 : World) (fuel : nat),
         pages_then jql JNull w pages token w1 ->
         post w1 (search_request jql token) = (r, w2) ->
         read_page r = None ->
         (List.length pages < fuel)%nat ->
         fetch_issues_by_jql fuel jql w = Some (List.concat pages, w2))
  /\ (forall (batch : list json) (rest : list (list json)) (joined : string)
             (acc : list json) (w : World) (pages : list (list json))
             (token : json) (w1 : World) (r : reply) (w2 : World) (fuel : nat),
         join_comma batch = Ok joined ->
         pages_then (epics_jql joined) JNull w pages token w1 ->
         post w1 (search_request (epics_jql joined) token) = (r, w2) ->
         read_page r = None ->
         (List.length pages < fuel)%nat ->
         epics_loop fuel (batch :: rest) acc w
         = epics_loop fuel rest (acc ++ List.concat pages)%list w2)
  /\ (forall (initiatives epics : list json) (w : World)
             (pages : list (list json)) (token : json) (w1 : World)
             (r : reply) (w2 : World) (fuel : nat),
         pages_then CHILD_JQL JNull w pages token w1 ->
         post w1 (search_request CHILD_JQL token) = (r, w2) ->
         read_page r = None ->
         (List.length pages < fuel)%nat ->
         child_loop fuel initiatives epics [] JNull w = Some (([], [], []), w2)).
Proof.
  split; [exact read_page_failure |]. split; [| split].
  - intros. eapply fetch_ends_on_failure; eassumption.
  - intros. eapply epics_loop_batch_failure; eassumption.
  - intros. eapply child_loop_ends_on_failure; eassumption.
Qed.

End RemoteProperties.


(** The service refuses a request that repeats the first one with another
    token, or with the token of the first page dropped it serves the first
    page again: a fetch that gets both pages has attached the token. *)
Example token_server_checks_token :
  token_server 1
    (page_request "me@example.com" "secret" "https://collectors.atlassian.net"
       "project = NS" (Some (JStr "t2")))
  = (Response 400 None, 2%nat)
  /\ token_server 1
       (page_request "me@example.com" "secret"
          "https://collectors.atlassian.net" "project = NS" None)
     = (page [JStr "A"; JStr "B"] (JStr "t1"), 2%nat).
Proof. split; reflexivity. Qed.

Lemma fetch_stops_on_failure_witness :
  fetch_issues_by_jql script scripted_post "me@example.com" "secret"
    "https://collectors.atlassian.net" 5 "project = NS"
    [page [JStr "A"; JStr "B"] (JStr "t1"); Response 503 None;
     last_page [JStr "C"]]
  = Some ([JStr "A"; JStr "B"], [last_page [JStr "C"]]).
Proof.
  apply (proj1 (proj2 (fetch_stops_on_failure script scripted_post
                         "me@example.com" "secret"
                         "https://collectors.atlassian.net"))
           "project = NS"
           [page [JStr "A"; JStr "B"] (JStr "t1"); Response 503 None;
            last_page [JStr "C"]]
           [[JStr "A"; JStr "B"]] (JStr "t1")
           [Response 503 None; last_page [JStr "C"]]
           (Response 503 None) [last_page [JStr "C"]] 5%nat).
  - eapply pt_more; [reflexivity | reflexivity | reflexivity | apply pt_done].
  - reflexivity.
  - reflexivity.
  - simpl. lia.
Defined.

(** C8, the claim as written, fails at the child-issue fetch: a page of
    records and then a failure leave nothing of that page, nor of the
    initiatives and epics fetched before. *)
Lemma child_fetch_discards_pages :
  fetch_jira_issues script scripted_post "me@example.com" "secret"
    "https://collectors.atlassian.net" 5
    [last_page []; page [JStr "A"; JStr "B"] (JStr "t1"); Response 503 None]
  = Some (Ok ([], [], []), [])
  /\ ~ (exists w',
          fetch_jira_issues script scripted_post "me@example.com" "secret"
            "https://collectors.atlassian.net" 5
            [last_page []; page [JStr "A"; JStr "B"] (JStr "t1");
             Response 503 None]
          = Some (Ok ([JStr "A"; JStr "B"], [], []), w')).
Proof.
  split.
  - vm_compute. reflexivity.
  - intros [w' H]. vm_compute in H. discriminate H.
Qed.

(** ** The run *)

Section MainProperties.

Variable World : Type.
Variable post : World -> request -> reply * World.
Variables JIRA_EMAIL JIRA_API_TOKEN JIRA_BASE_URL : string.
Variable json_dumps : Dataset -> string.
Variable utcnow : World -> string.
Variable write_cut : string -> option string.

#[local] Abbreviation main :=
  (main World post JIRA_EMAIL JIRA_API_TOKEN JIRA_BASE_URL json_dumps utcnow
     write_cut).
#[local] Abbreviation fetch_jira_issues :=
  (fetch_jira_issues World post JIRA_EMAIL JIRA_API_TOKEN JIRA_BASE_URL).

(** [main] stage by stage, from what the fetch returned. *)
Lemma main_after_fetch (fuel : nat) (w : World) (fs : FileSystem)
    (issue : json) (issues initiatives epics : list json) (w' : World) :
  fetch_jira_issues fuel w
  = Some (Ok (issue :: issues, initiatives, epics), w') ->
  main fuel w fs
  = match process_issues (utcnow w') (issue :: issues) configured_intervals
            initiatives epics with
    | Raise e => Some (Raise e, w', fs)
    | Ok data =>
        match template fs with
        | None => Some (Raise FileNotFoundError, w', fs)
        | Some text =>
            let html := str_replace PLACEHOLDER (json_dumps data) text in
            if docs_writable fs then
              match write_cut html with
              | None => Some (Ok true, w', mkFS (Some text) (Some html) true)
              | Some partial =>
                  Some (Raise OSError, w', mkFS (Some text) (Some partial) true)
              end
            else Some (Raise OSError, w', fs)
        end
    end.
Proof.
  intros Hf. unfold main. rewrite Hf.
  change generate_intervals with (Some (Ok configured_intervals)).
  cbv beta iota.
  destruct (process_issues (utcnow w') (issue :: issues) configured_intervals
              initiatives epics) as [data | e]; cbn [rbind]; [| reflexivity].
  unfold generate_html, write_artifact.
  destruct (template fs) as [text |]; [| reflexivity].
  cbv zeta. destruct (docs_writable fs); [| reflexivity].
  destruct (write_cut (str_replace PLACEHOLDER (json_dumps data) text));
    reflexivity.
Qed.

Lemma main_cases (fuel : nat) (w : World) (fs : FileSystem)
    (r : result bool) (w' : World) (fs' : FileSystem) :
  main fuel w fs = Some (r, w', fs') ->
  (exists e, fetch_jira_issues fuel w = Some (Raise e, w')
             /\ r = Raise e /\ fs' = fs)
  \/ (exists initiatives epics,
         fetch_jira_issues fuel w = Some (Ok ([], initiatives, epics), w')
         /\ r = Ok false /\ fs' = fs)
  \/ (exists issue issues initiatives epics,
         fetch_jira_issues fuel w
         = Some (Ok (issue :: issues, initiatives, epics), w')).
Proof.
  unfold main.
  destruct (fetch_jira_issues fuel w)
    as [[[[[issues initiatives] epics] | e] w1] |] eqn:Hf; [| | discriminate].
  - destruct issues as [| issue issues].
    + intros H. injection H as <- <- <-. right. left. eauto.
    + intros H. right. right.
      assert (w1 = w') as ->.
      { revert H.
        destruct generate_intervals as [[intervals | e] |]; [| | discriminate].
        - destruct (_ <- _ ;; _)%result as [html | e].
          + destruct (write_artifact write_cut fs html) as [[u | e] fs1];
              now intros [= _ <- _].
          + now intros [= _ <- _].
        - now intros [= _ <- _]. }
      eauto.
  - intros H. injection H as <- <- <-. left. eauto.
Qed.

(** C9 (as amended).  A run that ends reports success if and only if at
    least one child issue was fetched and processing, reading the template
    and writing the output all went through without raising; the artifact
    is then the template with the placeholder replaced by the serialized
    dataset, and the template is as it was.  When no child
    issue is fetched the run reports failure and leaves the files as they
    were.  A run ends whenever its fetch ends, and with a credential missing
    it fails without sending a request. *)
Theorem main_success_only_if_fetched :
  (forall (fuel : nat) (w : World) (fs : FileSystem) (r : result bool)
          (w' : World) (fs' : FileSystem),
      main fuel w fs = Some (r, w', fs') ->
      (exit_code r = 0 <->
       exists issues initiatives epics data text,
         fetch_jira_issues fuel w = Some (Ok (issues, initiatives, epics), w')
         /\ issues <> []
         /\ process_issues (utcnow w') issues configured_intervals
              initiatives epics = Ok data
         /\ template fs = Some text
         /\ docs_writable fs = true
         /\ write_cut (str_replace PLACEHOLDER (json_dumps data) text) = None)
      /\ (exit_code r = 0 ->
          forall data text,
            (exists issues initiatives epics,
                fetch_jira_issues fuel w
                = Some (Ok (issues, initiatives, epics), w')
                /\ process_issues (utcnow w') issues configured_intervals
                     initiatives epics = Ok data) ->
            template fs = Some text ->
            template fs' = template fs
            /\ artifact fs'
               = Some (str_replace PLACEHOLDER (json_dumps data) text))
      /\ (exit_code r <> 0 -> exit_code r = 1)
      /\ (forall initiatives epics w1,
             fetch_jira_issues fuel w = Some (Ok ([], initiatives, epics), w1) ->
             r = Ok false /\ exit_code r = 1 /\ fs' = fs))
  /\ (forall (fuel : nat) (w : World) (fs : FileSystem) res (w' : World),
         fetch_jira_issues fuel w = Some (res, w') ->
         exists r fs', main fuel w fs = Some (r, w', fs'))
  /\ (forall (fuel : nat) (w : World) (fs : FileSystem),
         JIRA_EMAIL = "" \/ JIRA_API_TOKEN = "" ->
         main fuel w fs = Some (Ok false, w, fs)).
Proof.
  split; [| split].
  - intros fuel w fs r w' fs' H.
    destruct (main_cases _ _ _ _ _ _ H)
      as [[e [Hf [-> ->]]]
         | [[initiatives [epics [Hf [-> ->]]]]
           | [issue [issues [initiatives [epics Hf]]]]]].
    + split; [| split; [| split]].
      * split; [intros Hc; discriminate Hc |].
        intros [? [? [? [? [? [Hz _]]]]]]. rewrite Hz in Hf. discriminate Hf.
      * intros Hc. discriminate Hc.
      * reflexivity.
      * intros ? ? ? Hz. rewrite Hz in Hf. discriminate Hf.
    + split; [| split; [| split]].
      * split; [intros Hc; discriminate Hc |].
        intros [? [? [? [? [? [Hz [Hne _]]]]]]]. rewrite Hz in Hf.
        injection Hf as -> _ _. now contradiction Hne.
      * intros Hc. discriminate Hc.
      * reflexivity.
      * intros ? ? ? _. repeat split.
    + rewrite (main_after_fetch _ _ _ _ _ _ _ _ Hf) in H.
      assert (forall initiatives0 epics0 w1,
                 fetch_jira_issues fuel w
                 <> Some (Ok ([], initiatives0, epics0), w1)) as Hnz.
      { intros ? ? ? Hz. rewrite Hz in Hf. discriminate Hf. }
      assert (forall P : Prop,
                 (exists issues0 initiatives0 epics0 data text,
                     fetch_jira_issues fuel w
                     = Some (Ok (issues0, initiatives0, epics0), w')
                     /\ issues0 <> []
                     /\ process_issues (utcnow w') issues0 configured_intervals
                          initiatives0 epics0 = Ok data
                     /\ template fs = Some text
                     /\ docs_writable fs = true
                     /\ write_cut (str_replace PLACEHOLDER (json_dumps data) text)
                        = None) ->
                 (forall data text,
                     process_issues (utcnow w') (issue :: issues)
                       configured_intervals initiatives epics = Ok data ->
                     template fs = Some text ->
                     docs_writable fs = true ->
                     write_cut (str_replace PLACEHOLDER (json_dumps data) text)
                     = None -> P) -> P) as Hstages.
      { intros P [issues0 [ini0 [ep0 [data [text [Hz [_ [Hp [Ht [Hd Hw]]]]]]]]]] K.
        rewrite Hz in Hf. injection Hf as -> -> ->. eapply K; eassumption. }
      destruct (process_issues (utcnow w') (issue :: issues)
                  configured_intervals initiatives epics) as [data | e] eqn:P.
      2: { injection H as <- <-. split; [| split; [| split]].
           - split; [intros Hc; discriminate Hc |].
             intros Hex. apply (Hstages _ Hex). intros ? ? Hp. discriminate Hp.
           - intros Hc. discriminate Hc.
           - reflexivity.
           - intros ? ? ? Hz. now apply Hnz in Hz. }
      destruct (template fs) as [text |] eqn:T.
      2: { injection H as <- <-. split; [| split; [| split]].
           - split; [intros Hc; discriminate Hc |].
             intros Hex. apply (Hstages _ Hex). intros ? ? _ Ht. discriminate Ht.
           - intros Hc. discriminate Hc.
           - reflexivity.
           - intros ? ? ? Hz. now apply Hnz in Hz. }
      cbv zeta in H. destruct (docs_writable fs) eqn:D.
      2: { injection H as <- <-. split; [| split; [| split]].
           - split; [intros Hc; discriminate Hc |].
             intros Hex. apply (Hstages _ Hex). intros ? ? _ _ Hd.
             discriminate Hd.
           - intros Hc. discriminate Hc.
           - reflexivity.
           - intros ? ? ? Hz. now apply Hnz in Hz. }
      destruct (write_cut (str_replace PLACEHOLDER (json_dumps data) text))
        as [partial |] eqn:W.
      * injection H as <- <-. split; [| split; [| split]].
        -- split; [intros Hc; discriminate Hc |].
           intros Hex. apply (Hstages _ Hex). intros data' text' Hp Ht _ Hw.
           injection Hp as <-. injection Ht as <-. rewrite W in Hw.
           discriminate Hw.
        -- intros Hc. discriminate Hc.
        -- reflexivity.
        -- intros ? ? ? Hz. now apply Hnz in Hz.
      * injection H as <- <-. split; [| split; [| split]].
        -- split; [| reflexivity]. intros _.
           exists (issue :: issues), initiatives, epics, data, text.
           split; [exact Hf |]. split; [discriminate |].
           split; [exact P |]. repeat split. exact W.
        -- intros _ data' text' [issues0 [ini0 [ep0 [Hz Hp]]]] Ht.
           rewrite Hz in Hf. injection Hf as -> -> ->.
           rewrite P in Hp. injection Hp as <-. injection Ht as <-.
           cbn [template artifact]. split; reflexivity.
        -- intros Hc. now contradiction Hc.
        -- intros ? ? ? Hz. now apply Hnz in Hz.
  - intros fuel w fs res w' Hf.
    destruct res as [[[issues initiatives] epics] | e].
    + destruct issues as [| issue issues].
      * unfold main. rewrite Hf. now eexists; eexists.
      * rewrite (main_after_fetch _ _ fs _ _ _ _ _ Hf).
        destruct (process_issues _ _ _ _ _); [| now eexists; eexists].
        destruct (template fs); [| now eexists; eexists].
        cbv zeta. destruct (docs_writable fs); [| now eexists; eexists].
        destruct (write_cut _); now eexists; eexists.
    + unfold main. rewrite Hf. now eexists; eexists.
  - intros fuel w fs Hcred. unfold main, fetch_jira_issues.
    assert (((JIRA_EMAIL =? "")%string || (JIRA_API_TOKEN =? "")%string)%bool
            = true) as Hb.
    { apply orb_true_iff. destruct Hcred as [-> | ->]; auto. }
    rewrite Hb. reflexivity.
Qed.

End MainProperties.

Lemma main_success_only_if_fetched_witness :
  (exit_code (Ok true) = 0 <->
   exists issues initiatives epics data text,
     fetch_jira_issues script scripted_post "me@example.com" "secret"
       "https://collectors.atlassian.net" 5 one_issue_world
     = Some (Ok (issues, initiatives, epics), [])
     /\ issues <> []
     /\ process_issues (sample_clock []) issues configured_intervals
          initiatives epics = Ok data
     /\ template sample_fs = Some text
     /\ docs_writable sample_fs = true
     /\ sample_disk (str_replace PLACEHOLDER (sample_dumps data) text) = None)
  /\ (exit_code (Ok true) = 0 ->
      forall data text,
        (exists issues initiatives epics,
            fetch_jira_issues script scripted_post "me@example.com" "secret"
              "https://collectors.atlassian.net" 5 one_issue_world
            = Some (Ok (issues, initiatives, epics), [])
            /\ process_issues (sample_clock []) issues configured_intervals
                 initiatives epics = Ok data) ->
        template sample_fs = Some text ->
        template (mkFS (Some "<html>__DASHBOARD_DATA__</html>")
                       (Some "<html>{}</html>") true)
        = template sample_fs
        /\ artifact (mkFS (Some "<html>__DASHBOARD_DATA__</html>")
                          (Some "<html>{}</html>") true)
           = Some (str_replace PLACEHOLDER (sample_dumps data) text))
  /\ (exit_code (Ok true) <> 0 -> exit_code (Ok true) = 1)
  /\ (forall initiatives epics w1,
         fetch_jira_issues script scripted_post "me@example.com" "secret"
           "https://collectors.atlassian.net" 5 one_issue_world
         = Some (Ok ([], initiatives, epics), w1) ->
         Ok true = Ok false /\ exit_code (Ok true) = 1
         /\ mkFS (Some "<html>__DASHBOARD_DATA__</html>")
                 (Some "<html>{}</html>") true = sample_fs).
Proof.
  apply (proj1 (main_success_only_if_fetched script scripted_post
                  "me@example.com" "secret" "https://collectors.atlassian.net"
                  sample_dumps sample_clock sample_disk)
           5%nat one_issue_world sample_fs (Ok true) []
           (mkFS (Some "<html>__DASHBOARD_DATA__</html>")
                 (Some "<html>{}</html>") true)).
  vm_compute. reflexivity.
Defined.

(** C9, the claim as written, fails: with a child issue fetched and the
    template file missing, the run ends in an exception, which the process
    reports as a failure. *)
Lemma main_fails_without_template :
  fetch_jira_issues script scripted_post "me@example.com" "secret"
    "https://collectors.atlassian.net" 5 one_issue_world
  = Some (Ok ([sample_issue "NS-1" "Done" "2026-02-15T10:00:00Z"
                 "2026-03-02T08:30:00Z"], [], []), [])
  /\ main script scripted_post "me@example.com" "secret"
       "https://collectors.atlassian.net" sample_dumps sample_clock sample_disk
       5 one_issue_world (mkFS None (Some "old") true)
     = Some (Raise FileNotFoundError, [], mkFS None (Some "old") true)
  /\ exit_code (Raise FileNotFoundError) = 1.
Proof.
  repeat split; vm_compute; reflexivity.
Qed.

(** A run in which the service serves a page of child issues and then
    fails: nothing of that page is kept, and the run reports failure and
    leaves the files alone. *)
Example main_fails_after_partial_fetch :
  main script scripted_post "me@example.com" "secret"
    "https://collectors.atlassian.net" sample_dumps sample_clock sample_disk 5
    [ last_page [];
      page [ sample_issue "NS-1" "Done" "2026-02-15T10:00:00Z"
               "2026-03-02T08:30:00Z" ] (JStr "t1");
      TransportError ]
    sample_fs
  = Some (Ok false, [], sample_fs).
Proof. vm_compute. reflexivity. Qed.

(** A run with nothing in its way: the artifact is the template with the
    placeholder replaced. *)
Example main_writes_artifact :
  main script scripted_post "me@example.com" "secret"
    "https://collectors.atlassian.net" sample_dumps sample_clock sample_disk 5
    one_issue_world sample_fs
  = Some (Ok true, [],
          mkFS (Some "<html>__DASHBOARD_DATA__</html>")
               (Some "<html>{}</html>") true).
Proof. vm_compute. reflexivity. Qed.

(** A run whose write fails on a full disk, after the artifact was opened:
    the run reports failure and the artifact of the run before is gone. *)
Example main_fails_on_full_disk :
  main script scripted_post "me@example.com" "secret"
    "https://collectors.atlassian.net" sample_dumps sample_clock full_disk 5
    one_issue_world sample_fs
  = Some (Raise OSError, [],
          mkFS (Some "<html>__DASHBOARD_DATA__</html>") (Some "") true).
Proof. vm_compute. reflexivity. Qed.

(** * Further properties of the code *)

(** ** The classifier on any value *)

Lemma status_group_loop_range (groups : list (string * list string))
    (status_lower : string) :
  In (status_group_loop groups status_lower) (map fst groups ++ ["Other"])%list.
Proof.
  induction groups as [| [group statuses] rest IH]; cbn [status_group_loop map fst app].
  - now left.
  - destruct (existsb _ statuses); [now left | now right].
Qed.

Lemma is_completed_is_string (v : json) :
  is_completed v = true -> exists S, v = JStr S /\ In S COMPLETION_STATUSES.
Proof.
  intros H. destruct v as [| b | n | S | items | members];
    try (vm_compute in H; discriminate H).
  exists S. split; [reflexivity |]. now apply is_completed_str_iff.
Qed.

Lemma completion_status_group (S : string) :
  In S COMPLETION_STATUSES -> get_status_group (JStr S) = Ok "Done".
Proof.
  intros H. unfold COMPLETION_STATUSES in H. simpl in H.
  repeat (destruct H as [H | H]; [subst S; reflexivity |]).
  contradiction.
Qed.

Lemma get_status_group_range (v : json) (g : string) :
  get_status_group v = Ok g -> In g STATUS_GROUP_NAMES.
Proof.
  unfold get_status_group. destruct (truthy v); cbn [negb].
  - destruct v as [| b | n | s | items | members]; try discriminate.
    intros H.
    assert (g = status_group_loop STATUS_GROUPS (lower s)) as -> by congruence.
    unfold STATUS_GROUP_NAMES. apply status_group_loop_range.
  - intros H. injection H as <-. unfold STATUS_GROUP_NAMES.
    apply in_or_app. right. now left.
Qed.

(** X1.  [get_status_group] on any decoded value: a falsy value ([None],
    [''], [0], ...) is in group ["Other"]; a string is in one of the six
    groups; any other truthy value has no [lower] and the call raises
    [AttributeError]. *)
Theorem get_status_group_any_value (v : json) :
  (truthy v = false -> get_status_group v = Ok "Other")
  /\ (forall s, v = JStr s ->
        exists g, get_status_group v = Ok g /\ In g STATUS_GROUP_NAMES)
  /\ (truthy v = true -> (forall s, v <> JStr s) ->
      get_status_group v = Raise AttributeError).
Proof.
  split; [| split].
  - intros H. unfold get_status_group. now rewrite H.
  - intros s ->. rewrite get_status_group_str. eexists. split; [reflexivity |].
    apply status_group_loop_range.
  - intros H Hns. unfold get_status_group. rewrite H. cbn [negb].
    destruct v; try reflexivity. now contradiction (Hns s).
Qed.

Lemma get_status_group_any_value_witness :
  get_status_group (JNum 7) = Raise AttributeError.
Proof.
  apply (proj2 (proj2 (get_status_group_any_value (JNum 7)))).
  - reflexivity.
  - intros s H. discriminate H.
Defined.

(** ** What every record of the dataset satisfies *)

Lemma week_label_loop_label (intervals : list Interval) (d : datetime)
    (l : string) :
  week_label_loop intervals d = Ok (Some l) ->
  exists iv, In iv intervals /\ iv_label iv = l.
Proof.
  induction intervals as [| iv rest IH]; cbn [week_label_loop]; intros H;
    [discriminate H |].
  destruct (strptime_ymd (iv_start iv)) as [s | e]; [| discriminate H].
  destruct (strptime_ymd (iv_end iv)) as [e' | e]; [| discriminate H].
  cbn [rbind] in H.
  destruct (dt_leb s d && dt_leb d e')%bool.
  - injection H as <-. exists iv. split; [now left | reflexivity].
  - destruct (IH H) as [iv' [Hin Hl]]. exists iv'. split; [now right | exact Hl].
Qed.

Lemma assign_week_label_some (status_name : json) (d : option datetime)
    (intervals : list Interval) (l : string) :
  assign_week_label status_name d intervals = Ok (Some l) ->
  is_completed status_name = true
  /\ d <> None
  /\ exists iv, In iv intervals /\ iv_label iv = l.
Proof.
  unfold assign_week_label. intros H.
  destruct (is_completed status_name); [| discriminate H].
  destruct d as [d |]; [| discriminate H].
  split; [reflexivity |]. split; [discriminate |].
  destruct (week_label_loop intervals d) as [wl | e] eqn:E; [| discriminate H].
  cbn [rbind] in H.
  destruct (label_falsy wl && dt_ltb d START_DATE)%bool.
  - destruct intervals as [| first rest]; [discriminate H |].
    injection H as <-. exists first. split; [now left | reflexivity].
  - injection H as ->. now apply week_label_loop_label with d.
Qed.

(** What one record owes to the intervals and the tables. *)
Lemma process_issue_record (intervals : list Interval) (st st' : loop_state)
    (issue : json) :
  process_issue intervals st issue = Ok st' ->
  exists p : ProcessedIssue,
    processed st' = (processed st ++ [p])%list
    /\ record_ok intervals p.
Proof.
  intros H. unfold process_issue in H. bind_inv H.
  injection H as H. subst st'. cbn [processed].
  eexists. split; [reflexivity |].
  unfold record_ok. cbn [statusGroup isCompleted weekLabel effectiveDate status].
  match goal with
  | E : get_status_group ?v = Ok ?g |- _ =>
      rename E into Hg; rename v into sn; rename g into grp
  end.
  split; [| split; [| split]].
  - exact (get_status_group_range _ _ Hg).
  - intros Hc. apply is_completed_is_string in Hc.
    destruct Hc as [S [-> HS]].
    rewrite (completion_status_group _ HS) in Hg. now injection Hg as <-.
  - intros l Hl. subst.
    match goal with
    | E : assign_week_label _ ?d _ = Ok (Some l) |- _ =>
        destruct (assign_week_label_some _ _ _ _ E) as [Hc [Hd Hiv]];
        destruct d; [| now contradiction Hd]
    end.
    split; [exact Hc |]. split; [discriminate | exact Hiv].
  - intros Hc.
    match goal with
    | E : assign_week_label _ _ _ = Ok ?wl |- _ =>
        unfold assign_week_label in E; rewrite Hc in E; now injection E as <-
    end.
Qed.

Lemma process_loop_records (intervals : list Interval) :
  forall (issues : list json) (st st' : loop_state),
    process_loop intervals st issues = Ok st' ->
    exists ps : list ProcessedIssue,
      processed st' = (processed st ++ ps)%list
      /\ List.length ps = List.length issues
      /\ Forall (record_ok intervals) ps.
Proof.
  induction issues as [| issue rest IH]; intros st st' H.
  - injection H as <-. exists []. split; [now rewrite app_nil_r |].
    split; [reflexivity | constructor].
  - cbn [process_loop] in H.
    destruct (process_issue intervals st issue) as [st1 | e] eqn:E;
      [| discriminate H].
    cbn [rbind] in H.
    destruct (process_issue_record _ _ _ _ E) as [p [Hp Hok]].
    destruct (IH _ _ H) as [ps [Hps [Hlen Hoks]]].
    exists (p :: ps). split; [| split].
    + rewrite Hps, Hp, <- app_assoc. reflexivity.
    + cbn [List.length]. now rewrite Hlen.
    + now constructor.
Qed.

(** X2.  Whatever the intervals are, every record of a dataset that
    [process_issues] returns has one of the six status groups; is in group
    ["Done"] when it is completed; carries an interval label only when it is
    completed and has an effective date, and then the label is the label of
    one of the intervals; and there is one record for each child issue. *)
Theorem dataset_record_invariants (utcnow : string) (issues : list json)
    (intervals : list Interval) (initiatives epics : list json)
    (data : Dataset) :
  process_issues utcnow issues intervals initiatives epics = Ok data ->
  List.length (ds_issues data) = List.length issues
  /\ Forall (record_ok intervals) (ds_issues data).
Proof.
  intros H. unfold process_issues in H. bind_inv H.
  injection H as <-. cbn [ds_issues].
  match goal with
  | E : process_loop _ _ _ = Ok _ |- _ =>
      destruct (process_loop_records _ _ _ _ E) as [ps [Hps [Hlen Hoks]]]
  end.
  cbn [processed app] in Hps. rewrite Hps. now split.
Qed.

Lemma dataset_record_invariants_witness :
  exists data,
    process_issues "2026-02-01T00:00:00Z"
      [ sample_issue "NS-1" "PM Review" "" "2026-02-20T08:30:00Z" ]
      configured_intervals [] [] = Ok data
    /\ List.length (ds_issues data) = 1%nat
    /\ Forall (record_ok configured_intervals) (ds_issues data).
Proof.
  eexists. split.
  - vm_compute. reflexivity.
  - apply (dataset_record_invariants "2026-02-01T00:00:00Z"
             [ sample_issue "NS-1" "PM Review" "" "2026-02-20T08:30:00Z" ]
             configured_intervals [] []).
    vm_compute. reflexivity.
Defined.

(** ** The intervals as ranges of dates *)

Lemma strptime_valid (s : string) (d : datetime) :
  strptime_ymd s = Ok d -> dt_valid d = true.
Proof.
  unfold strptime_ymd.
  destruct (re_year (list_ascii_of_string s)) as [[y rest] |]; [| discriminate].
  destruct (re_dash rest) as [rest' |]; [| discriminate].
  destruct (re_after_year (re_month rest')) as [[[m dd] [| c tl]] |];
    try discriminate.
  unfold datetime_new. destruct (valid_date y m dd) eqn:V; [| discriminate].
  intros H. injection H as <-. exact V.
Qed.

Lemma get_effective_date_valid (issue : json) (d : datetime) :
  get_effective_date issue = Ok (Some d) -> dt_valid d = true.
Proof.
  intros H. unfold get_effective_date in H. bind_inv H.
  match type of H with
  | context [truthy ?v] => destruct (truthy v); [| discriminate H]
  end.
  match type of H with
  | context [parse_date_str ?v] =>
      destruct (parse_date_str v) as [d' | e] eqn:P; [| discriminate H];
      destruct v; try discriminate P
  end.
  - injection H as <-. rewrite parse_date_str_JStr in P.
    exact (strptime_valid _ _ P).
  - cbn [parse_date_str] in P.
    match type of P with
    | context [if ?c then _ else _] => destruct c; discriminate P
    end.
  - cbn [parse_date_str] in P.
    match type of P with
    | context [match ?c with Some _ => _ | None => _ end] =>
        destruct c; discriminate P
    end.
Qed.

(** X3.  An effective date is always a date of the calendar (year 1 to
    9999, a day the month has), and, from the year 1000 on, the text the
    processor writes for it with [strftime] is read back by [strptime] as
    the same date. *)
Theorem effective_date_is_calendar_date (issue : json) (d : datetime) :
  get_effective_date issue = Ok (Some d) ->
  dt_valid d = true
  /\ (1000 <= year d -> strptime_ymd (strftime_ymd d) = Ok d).
Proof.
  intros H. pose proof (get_effective_date_valid _ _ H) as V.
  split; [exact V | intros _; now apply strptime_strftime].
Qed.

Lemma effective_date_is_calendar_date_witness :
  dt_valid (mkdt 2026 2 15) = true
  /\ (1000 <= year (mkdt 2026 2 15) ->
      strptime_ymd (strftime_ymd (mkdt 2026 2 15)) = Ok (mkdt 2026 2 15)).
Proof.
  apply (effective_date_is_calendar_date
           (sample_issue "NS-1" "Done" "2026-02-15T10:00:00Z"
              "2026-03-02T08:30:00Z")).
  reflexivity.
Defined.

Lemma dt_ltb_false_leb (a b : datetime) : dt_ltb a b = false -> dt_leb b a = true.
Proof.
  intros H. apply dt_leb_iff.
  destruct (Z.lt_trichotomy (year b) (year a)) as [? | [? | ?]]; [lia | |].
  - destruct (Z.lt_trichotomy (month b) (month a)) as [? | [? | ?]]; [lia | |].
    + destruct (Z.le_gt_cases (day b) (day a)); [lia |].
      assert (dt_ltb a b = true) by (apply dt_ltb_iff; lia). congruence.
    + assert (dt_ltb a b = true) by (apply dt_ltb_iff; lia). congruence.
  - assert (dt_ltb a b = true) by (apply dt_ltb_iff; lia). congruence.
Qed.

Lemma dt_leb_false_ltb (a b : datetime) : dt_leb a b = false -> dt_ltb b a = true.
Proof.
  intros H. apply dt_ltb_iff.
  destruct (Z.lt_trichotomy (year b) (year a)) as [? | [? | ?]]; [lia | |].
  - destruct (Z.lt_trichotomy (month b) (month a)) as [? | [? | ?]]; [lia | |].
    + destruct (Z.lt_ge_cases (day b) (day a)); [lia |].
      assert (dt_leb a b = true) by (apply dt_leb_iff; lia). congruence.
    + assert (dt_leb a b = true) by (apply dt_leb_iff; lia). congruence.
  - assert (dt_leb a b = true) by (apply dt_leb_iff; lia). congruence.
Qed.

Lemma dt_ltb_not_leb (a b : datetime) : dt_ltb a b = true -> dt_leb b a = false.
Proof.
  intros H. destruct (dt_leb b a) eqn:E; [| reflexivity].
  apply dt_ltb_iff in H. apply dt_leb_iff in E. lia.
Qed.

Lemma find_map_seq_unique {A : Type} (f : nat -> A) (P : A -> bool) (k : nat) :
  forall (n a : nat),
    (a <= k < a + n)%nat ->
    P (f k) = true ->
    (forall j, (a <= j < a + n)%nat -> P (f j) = true -> j = k) ->
    find P (map f (seq a n)) = Some (f k).
Proof.
  induction n as [| n IH]; intros a Hk Hp Hu; [lia |].
  cbn [seq map find]. destruct (P (f a)) eqn:E.
  - rewrite (Hu a ltac:(lia) E). reflexivity.
  - apply IH.
    + assert (a <> k) by (intros ->; congruence). lia.
    + exact Hp.
    + intros j Hj. apply Hu. lia.
Qed.

Lemma find_map_seq_none {A : Type} (f : nat -> A) (P : A -> bool) :
  forall (n a : nat),
    (forall j, (a <= j < a + n)%nat -> P (f j) = false) ->
    find P (map f (seq a n)) = None.
Proof.
  induction n as [| n IH]; intros a H; [reflexivity |].
  cbn [seq map find]. rewrite (H a ltac:(lia)). apply IH.
  intros j Hj. apply H. lia.
Qed.

Section Coverage.

Variables start_date end_date : datetime.
Hypothesis start_ok : dt_valid start_date = true.
Hypothesis end_ok : dt_valid end_date = true.
Hypothesis start_before_end : dt_leb start_date end_date = true.
Hypothesis month_after_end : month_index end_date < month_index (mkdt 9999 12 1).

Let n : nat := months_touched start_date end_date.
Let i0 : Z := month_index start_date.

Lemma interval_last_facts (k : nat) :
  (k < n)%nat ->
  month_index (interval_last start_date end_date k) = i0 + Z.of_nat k
  /\ 1 <= month (interval_last start_date end_date k) <= 12
  /\ dt_valid (interval_last start_date end_date k) = true
  /\ dt_leb (interval_last start_date end_date k) end_date = true
  /\ (forall d, dt_valid d = true -> month_index d = i0 + Z.of_nat k ->
                dt_leb d (interval_last start_date end_date k)
                = dt_leb d end_date).
Proof.
  intros Hk.
  pose proof (cursor_bounds _ _ start_ok end_ok start_before_end month_after_end
                k ltac:(fold n; lia)) as Hc.
  destruct (cursor_year_month start_date end_date start_ok k) as [Hy Hm].
  pose proof (end_bounds _ end_ok) as He.
  pose proof (n_eq _ _ start_ok end_ok start_before_end) as Hn. fold n i0 in Hn.
  fold i0 in Hy, Hm.
  unfold interval_last. fold i0.
  unfold month_year, month_number. rewrite <- Hy, <- Hm.
  set (y := year (cursor start_date k)) in *.
  set (m := month (cursor start_date k)) in *.
  pose proof (monthrange_bounds y m) as Hr.
  assert (month_index (last_of_month y m) = i0 + Z.of_nat k) as Hidx.
  { unfold month_index, last_of_month. cbn [year month]. subst y m.
    rewrite Hy, Hm. Z.div_mod_to_equations. lia. }
  assert (dt_valid (last_of_month y m) = true) as Hv.
  { unfold dt_valid, last_of_month. cbn [year month day].
    apply valid_date_intro; lia. }
  destruct (dt_ltb end_date (last_of_month y m)) eqn:E.
  - apply dt_ltb_index in E; [| lia | cbn [last_of_month month]; lia].
    rewrite Hidx in E.
    assert (month_index end_date = i0 + Z.of_nat k) as Hei by lia.
    split; [exact Hei |]. split; [lia |]. split; [exact end_ok |].
    split; [| reflexivity].
    apply dt_leb_iff. lia.
  - split; [exact Hidx |]. split; [cbn [last_of_month month]; lia |].
    split; [exact Hv |]. split; [now apply dt_ltb_false_leb |].
    intros d Hd Hdi.
    destruct (valid_date_bounds _ _ _ Hd) as [Hdy [Hdm Hdd]].
    destruct (month_index_year_month d Hdm) as [Hdy' Hdm'].
    assert (year d = y /\ month d = m) as [Hyd Hmd].
    { subst y m. rewrite Hy, Hm, Hdy', Hdm', Hdi. split; reflexivity. }
    rewrite Hyd, Hmd in Hdd.
    assert (dt_leb d (last_of_month y m) = true) as H1.
    { apply dt_leb_iff. cbn [last_of_month year month day]. lia. }
    rewrite H1. symmetry. apply dt_leb_iff.
    apply dt_ltb_false_leb in E. apply dt_leb_iff in E.
    cbn [last_of_month year month day] in E. lia.
Qed.

Lemma interval_reads_back (k : nat) :
  (k < n)%nat ->
  strptime_ymd (iv_start (interval_of_month start_date end_date k))
  = Ok (cursor start_date k)
  /\ strptime_ymd (iv_end (interval_of_month start_date end_date k))
     = Ok (interval_last start_date end_date k).
Proof.
  intros Hk. split.
  - apply strptime_strftime.
    now apply (cursor_valid _ _ start_ok end_ok start_before_end month_after_end).
  - apply strptime_strftime.
    now apply (interval_last_facts k Hk).
Qed.

Lemma interval_contains_month (k : nat) (d : datetime) :
  (k < n)%nat ->
  interval_contains (interval_of_month start_date end_date k) d
  = (dt_leb (cursor start_date k) d
     && dt_leb d (interval_last start_date end_date k))%bool.
Proof.
  intros Hk. unfold interval_contains.
  destruct (interval_reads_back k Hk) as [-> ->]. reflexivity.
Qed.

Lemma cursor_leb (k : nat) (d : datetime) :
  (k < n)%nat -> dt_valid d = true ->
  (dt_leb (cursor start_date k) d = true <->
   i0 + Z.of_nat k < month_index d
   \/ (month_index d = i0 + Z.of_nat k
       /\ (k = 0%nat -> dt_leb start_date d = true))).
Proof.
  intros Hk Hd.
  pose proof (cursor_bounds _ _ start_ok end_ok start_before_end month_after_end
                k ltac:(fold n; lia)) as Hc.
  destruct (valid_date_bounds _ _ _ Hd) as [Hdy [Hdm Hdd]].
  pose proof (cursor_index start_date end_date k) as Hi. fold i0 in Hi.
  rewrite dt_leb_index by lia. rewrite Hi.
  destruct k as [| k].
  - cbn [cursor]. pose proof (start_bounds _ start_ok) as Hs.
    rewrite (dt_leb_index start_date d) by lia. fold i0.
    rewrite Z.add_0_r. split.
    + intros [H | [H1 H2]]; [left; lia | right; split; [lia |]].
      intros _. right. split; [lia | exact H2].
    + intros [H | [H1 H2]]; [left; lia |].
      specialize (H2 eq_refl). destruct H2 as [H2 | H2]; [lia |].
      right. split; [lia | apply H2].
  - unfold cursor, first_of_month. cbn [day]. split.
    + intros [H | [H1 H2]]; [left; lia | right; split; [lia | discriminate]].
    + intros [H | [H1 _]]; [left; lia | right; split; lia].
Qed.

Lemma contains_iff (k : nat) (d : datetime) :
  (k < n)%nat -> dt_valid d = true ->
  (interval_contains (interval_of_month start_date end_date k) d = true <->
   month_index d = i0 + Z.of_nat k
   /\ dt_leb start_date d = true /\ dt_leb d end_date = true).
Proof.
  intros Hk Hd.
  rewrite (interval_contains_month k d Hk), andb_true_iff.
  rewrite (cursor_leb k d Hk Hd).
  destruct (interval_last_facts k Hk) as [Li [Lm [Lv [Le Lsame]]]].
  destruct (valid_date_bounds _ _ _ Hd) as [Hdy [Hdm Hdd]].
  pose proof (start_bounds _ start_ok) as Hs.
  pose proof (end_bounds _ end_ok) as He.
  pose proof (n_eq _ _ start_ok end_ok start_before_end) as Hn. fold n i0 in Hn.
  split.
  - intros [Hlo Hhi].
    pose proof Hhi as Hhi'. apply dt_leb_index in Hhi'; [| lia | lia].
    rewrite Li in Hhi'.
    assert (month_index d = i0 + Z.of_nat k) as Hidx by lia.
    split; [exact Hidx |]. rewrite (Lsame d Hd Hidx) in Hhi.
    split; [| exact Hhi].
    destruct Hlo as [Hlo | [_ Hlo]]; [lia |].
    destruct k as [| k]; [now apply Hlo |].
    apply dt_leb_index; [lia | lia |]. fold i0. lia.
  - intros [Hidx [Hlo Hhi]]. split.
    + right. split; [exact Hidx | intros _; exact Hlo].
    + now rewrite (Lsame d Hd Hidx).
Qed.

Lemma in_range_offset (d : datetime) :
  dt_valid d = true ->
  dt_leb start_date d = true -> dt_leb d end_date = true ->
  (month_offset start_date d < n)%nat
  /\ month_index d = i0 + Z.of_nat (month_offset start_date d).
Proof.
  intros Hd Hlo Hhi.
  destruct (valid_date_bounds _ _ _ Hd) as [Hdy [Hdm Hdd]].
  pose proof (start_bounds _ start_ok) as Hs.
  pose proof (end_bounds _ end_ok) as He.
  pose proof (n_eq _ _ start_ok end_ok start_before_end) as Hn. fold n i0 in Hn.
  apply dt_leb_index in Hlo; [| lia | lia].
  apply dt_leb_index in Hhi; [| lia | lia].
  unfold month_offset. fold i0. lia.
Qed.

Lemma covering_interval (d : datetime) :
  dt_valid d = true ->
  dt_leb start_date d = true -> dt_leb d end_date = true ->
  find (fun iv => interval_contains iv d) (monthly_intervals start_date end_date)
  = Some (interval_of_month start_date end_date (month_offset start_date d)).
Proof.
  intros Hd Hlo Hhi.
  destruct (in_range_offset d Hd Hlo Hhi) as [Hk Hidx].
  unfold monthly_intervals. fold n.
  apply find_map_seq_unique with (f := interval_of_month start_date end_date).
  - lia.
  - apply contains_iff; auto.
  - intros j Hj Hc. apply contains_iff in Hc; [| lia | exact Hd].
    destruct Hc as [Hc _]. lia.
Qed.

Lemma no_interval_outside (d : datetime) :
  dt_valid d = true ->
  dt_leb start_date d = false \/ dt_leb d end_date = false ->
  find (fun iv => interval_contains iv d) (monthly_intervals start_date end_date)
  = None.
Proof.
  intros Hd Hout. unfold monthly_intervals. fold n.
  apply find_map_seq_none. intros j Hj.
  destruct (interval_contains (interval_of_month start_date end_date j) d) eqn:E;
    [| reflexivity].
  apply contains_iff in E; [| lia | exact Hd].
  destruct E as [_ [E1 E2]]. destruct Hout; congruence.
Qed.

Lemma covering_label (d : datetime) :
  dt_valid d = true ->
  dt_leb start_date d = true -> dt_leb d end_date = true ->
  iv_label (interval_of_month start_date end_date (month_offset start_date d))
  = strftime_BY d.
Proof.
  intros Hd Hlo Hhi.
  destruct (in_range_offset d Hd Hlo Hhi) as [Hk Hidx].
  destruct (valid_date_bounds _ _ _ Hd) as [Hdy [Hdm Hdd]].
  destruct (month_index_year_month d Hdm) as [Hdy' Hdm'].
  destruct (cursor_year_month start_date end_date start_ok
              (month_offset start_date d)) as [Hy Hm].
  fold i0 in Hy, Hm. rewrite <- Hidx in Hy, Hm.
  unfold interval_of_month. cbn [iv_label]. unfold strftime_BY.
  now rewrite Hy, Hm, <- Hdy', <- Hdm'.
Qed.

Lemma dt_leb_refl (d : datetime) : dt_leb d d = true.
Proof. apply dt_leb_iff. lia. Qed.

Lemma interval_range (k : nat) :
  (k < n)%nat ->
  dt_leb start_date (cursor start_date k) = true
  /\ dt_leb (cursor start_date k) (interval_last start_date end_date k) = true
  /\ dt_leb (interval_last start_date end_date k) end_date = true.
Proof.
  intros Hk.
  pose proof (cursor_valid _ _ start_ok end_ok start_before_end month_after_end
                k Hk) as Hv.
  pose proof (cursor_le_end _ _ start_ok end_ok start_before_end month_after_end
                k Hk) as Hce.
  pose proof (cursor_index start_date end_date k) as Hi. fold i0 in Hi.
  assert (dt_leb start_date (cursor start_date k) = true) as Hsc.
  { destruct k as [| k]; [apply dt_leb_refl |].
    pose proof (start_bounds _ start_ok) as Hs.
    destruct (valid_date_bounds _ _ _ Hv) as [_ [Hm _]].
    apply dt_leb_index; [lia | lia |]. fold i0. lia. }
  split; [exact Hsc |]. split.
  - assert (interval_contains (interval_of_month start_date end_date k)
              (cursor start_date k) = true) as Hc.
    { apply contains_iff; auto. }
    rewrite (interval_contains_month k _ Hk) in Hc.
    now apply andb_prop in Hc.
  - now apply (interval_last_facts k Hk).
Qed.

Lemma monthly_intervals_ranges :
  Forall (interval_range_in start_date end_date)
    (monthly_intervals start_date end_date).
Proof.
  unfold monthly_intervals. apply Forall_forall. intros iv Hin.
  apply in_map_iff in Hin. destruct Hin as [k [<- Hk]].
  apply in_seq in Hk. assert (k < n)%nat as Hk' by (fold n in Hk; lia).
  destruct (interval_reads_back k Hk') as [Hs He].
  destruct (interval_range k Hk') as [H1 [H2 H3]].
  exists (cursor start_date k), (interval_last start_date end_date k).
  repeat split; assumption.
Qed.

End Coverage.

(** X4.  Every interval the generator returns reads back, with the
    [strptime] calls of the processor, as a range of dates that is not
    empty, lies inside [[start_date, end_date]] and is labelled with the
    month and year of its first day. *)
Theorem generated_intervals_are_ranges (start_date end_date : datetime) :
  dt_valid start_date = true ->
  dt_valid end_date = true ->
  1000 <= year start_date ->
  dt_leb start_date end_date = true ->
  month_index end_date < month_index (mkdt 9999 12 1) ->
  exists intervals,
    generate_intervals_between start_date end_date = Some (Ok intervals)
    /\ Forall (interval_range_in start_date end_date) intervals.
Proof.
  intros Hs He _ Hle Hlast. exists (monthly_intervals start_date end_date).
  split.
  - now apply generate_intervals_between_run.
  - now apply monthly_intervals_ranges.
Qed.

Lemma generated_intervals_are_ranges_witness :
  exists intervals,
    generate_intervals_between START_DATE END_DATE = Some (Ok intervals)
    /\ Forall (interval_range_in START_DATE END_DATE) intervals.
Proof.
  apply (generated_intervals_are_ranges START_DATE END_DATE).
  - reflexivity.
  - reflexivity.
  - simpl. lia.
  - reflexivity.
  - vm_compute. reflexivity.
Defined.

(** X5.  The intervals the generator returns partition the configured
    range: a date of the calendar inside [[start_date, end_date]] lies in
    exactly one interval, the one of its month, whose label is the month
    name and year of the date; a date outside the range lies in none. *)
Theorem generated_intervals_partition (start_date end_date d : datetime) :
  dt_valid start_date = true ->
  dt_valid end_date = true ->
  1000 <= year start_date ->
  dt_leb start_date end_date = true ->
  month_index end_date < month_index (mkdt 9999 12 1) ->
  dt_valid d = true ->
  exists intervals,
    generate_intervals_between start_date end_date = Some (Ok intervals)
    /\ (dt_leb start_date d = true -> dt_leb d end_date = true ->
        exists iv,
          find (fun iv => interval_contains iv d) intervals = Some iv
          /\ iv_label iv = strftime_BY d
          /\ (forall k k' : nat,
                 nth_error intervals k = Some iv ->
                 (forall iv', nth_error intervals k' = Some iv' ->
                              interval_contains iv' d = true -> k' = k)))
    /\ (dt_leb start_date d = false \/ dt_leb d end_date = false ->
        forall iv, In iv intervals -> interval_contains iv d = false).
Proof.
  intros Hs He _ Hle Hlast Hd. exists (monthly_intervals start_date end_date).
  split; [now apply generate_intervals_between_run |]. split.
  - intros Hlo Hhi.
    exists (interval_of_month start_date end_date (month_offset start_date d)).
    split; [now apply covering_interval |].
    split; [now apply covering_label |].
    destruct (in_range_offset _ _ Hs He Hle d Hd Hlo Hhi) as [Hk Hidx].
    assert (forall j iv',
               nth_error (monthly_intervals start_date end_date) j = Some iv' ->
               interval_contains iv' d = true ->
               j = month_offset start_date d) as Huniq.
    { intros j iv' Hn Hc. unfold monthly_intervals in Hn.
      rewrite nth_error_map, nth_error_seq in Hn.
      destruct (Nat.ltb j (months_touched start_date end_date)) eqn:Hj;
        [| discriminate Hn].
      apply Nat.ltb_lt in Hj.
      cbn [option_map Nat.add] in Hn. injection Hn as <-.
      apply (contains_iff _ _ Hs He Hle Hlast) in Hc; [| exact Hj | exact Hd].
      destruct Hc as [Hc _]. lia. }
    intros k k' Hk0 iv' Hk' Hc.
    rewrite (Huniq k' iv' Hk' Hc). symmetry.
    apply (Huniq k _ Hk0).
    apply (contains_iff _ _ Hs He Hle Hlast); auto.
  - intros Hout iv Hin.
    pose proof (no_interval_outside _ _ Hs He Hle Hlast d Hd Hout) as Hnone.
    destruct (interval_contains iv d) eqn:E; [| reflexivity].
    pose proof (find_none _ _ Hnone iv Hin) as Hf. cbn beta in Hf. congruence.
Qed.

Lemma generated_intervals_partition_witness :
  exists intervals,
    generate_intervals_between START_DATE END_DATE = Some (Ok intervals)
    /\ (dt_leb START_DATE (mkdt 2026 2 15) = true ->
        dt_leb (mkdt 2026 2 15) END_DATE = true ->
        exists iv,
          find (fun iv => interval_contains iv (mkdt 2026 2 15)) intervals
          = Some iv
          /\ iv_label iv = strftime_BY (mkdt 2026 2 15)
          /\ (forall k k' : nat,
                 nth_error intervals k = Some iv ->
                 (forall iv', nth_error intervals k' = Some iv' ->
                              interval_contains iv' (mkdt 2026 2 15) = true ->
                              k' = k)))
    /\ (dt_leb START_DATE (mkdt 2026 2 15) = false
        \/ dt_leb (mkdt 2026 2 15) END_DATE = false ->
        forall iv, In iv intervals ->
                   interval_contains iv (mkdt 2026 2 15) = false).
Proof.
  apply (generated_intervals_partition START_DATE END_DATE (mkdt 2026 2 15)).
  - reflexivity.
  - reflexivity.
  - simpl. lia.
  - reflexivity.
  - vm_compute. reflexivity.
  - reflexivity.
Defined.

(** ** The labels under the configured dates *)

Lemma configured_generate_intervals :
  generate_intervals = Some (Ok (monthly_intervals START_DATE END_DATE)).
Proof. reflexivity. Qed.

Lemma configured_month_after_end :
  month_index END_DATE < month_index (mkdt 9999 12 1).
Proof. vm_compute. reflexivity. Qed.

Lemma expected_label_configured (completed : bool) (d : option datetime) :
  (forall d', d = Some d' -> dt_valid d' = true) ->
  expected_week_label completed d (monthly_intervals START_DATE END_DATE)
  = configured_label completed d.
Proof.
  intros Hv. unfold expected_week_label, configured_label.
  destruct completed; [| reflexivity].
  destruct d as [d |]; [| reflexivity].
  specialize (Hv d eq_refl).
  destruct (dt_ltb d START_DATE) eqn:Elo.
  - rewrite (no_interval_outside START_DATE END_DATE)
      by first [assumption | reflexivity | left; now apply dt_ltb_not_leb].
    reflexivity.
  - apply dt_ltb_false_leb in Elo.
    destruct (dt_leb d END_DATE) eqn:Ehi.
    + rewrite (covering_interval START_DATE END_DATE)
        by first [assumption | reflexivity].
      f_equal. apply covering_label; first [assumption | reflexivity].
    + rewrite (no_interval_outside START_DATE END_DATE)
        by first [assumption | reflexivity | now right].
      reflexivity.
Qed.

(** X6.  With the intervals [generate_intervals] returns for the configured
    dates, every record of the dataset is labelled from its issue alone: a
    completed record whose effective date is before 2026-01-07 gets
    ["January 2026"], one dated from 2026-01-07 to 2026-03-31 gets the month
    name and year of its date, one dated later gets no label; a record that
    is not completed or has no effective date gets none. *)
Theorem configured_week_labels (utcnow : string) (issues : list json)
    (intervals : list Interval) (initiatives epics : list json)
    (data : Dataset) :
  generate_intervals = Some (Ok intervals) ->
  process_issues utcnow issues intervals initiatives epics = Ok data ->
  Forall2 (fun issue p =>
             exists d, get_effective_date issue = Ok d
                       /\ weekLabel p = configured_label (isCompleted p) d)
    issues (ds_issues data).
Proof.
  intros Hg H. rewrite configured_generate_intervals in Hg.
  injection Hg as <-.
  unfold process_issues in H. bind_inv H. injection H as <-. cbn [ds_issues].
  match goal with
  | E : process_loop _ _ _ = Ok _ |- _ =>
      assert (Forall interval_wf (monthly_intervals START_DATE END_DATE))
        as Hwf by (apply monthly_intervals_wf; reflexivity);
      destruct (process_loop_labelled _ Hwf _ _ _ E) as [ps [Hps Hls]]
  end.
  cbn [processed app] in Hps. rewrite Hps.
  eapply Forall2_impl; [| exact Hls].
  intros issue p [d [Hd [_ [_ Hw]]]]. exists d. split; [exact Hd |].
  rewrite Hw. apply expected_label_configured.
  intros d' ->. exact (get_effective_date_valid _ _ Hd).
Qed.

Lemma configured_week_labels_witness :
  exists data,
    process_issues "2026-02-01T00:00:00Z"
      [ sample_issue "NS-3" "Done" "2025-12-01T10:00:00Z" "2026-02-20T08:30:00Z" ]
      configured_intervals [] [] = Ok data
    /\ Forall2 (fun issue p =>
                  exists d, get_effective_date issue = Ok d
                            /\ weekLabel p = configured_label (isCompleted p) d)
         [ sample_issue "NS-3" "Done" "2025-12-01T10:00:00Z"
             "2026-02-20T08:30:00Z" ]
         (ds_issues data).
Proof.
  eexists. split.
  - vm_compute. reflexivity.
  - apply (configured_week_labels "2026-02-01T00:00:00Z" _ configured_intervals
             [] []).
    + reflexivity.
    + vm_compute. reflexivity.
Defined.

(** ** The aggregates of the dataset *)

Lemma hkey_eqb_eq (a b : hkey) : hkey_eqb a b = true <-> a = b.
Proof.
  destruct a as [| x | x], b as [| y | y]; cbn [hkey_eqb];
    try (split; [discriminate | discriminate]); try tauto.
  - rewrite Z.eqb_eq. split; [now intros -> | now intros [= ->]].
  - rewrite String.eqb_eq. split; [now intros -> | now intros [= ->]].
Qed.

Lemma hkey_eqb_refl (a : hkey) : hkey_eqb a a = true.
Proof. now apply hkey_eqb_eq. Qed.

Lemma set_insert_hashes (s : pyset) (h : hkey) (v : json) (h' : hkey) :
  In h' (map fst (set_insert s h v)) <-> h' = h \/ In h' (map fst s).
Proof.
  unfold set_insert.
  destruct (existsb (fun e => hkey_eqb (fst e) h) s) eqn:E.
  - split; [now right |]. intros [-> | H]; [| exact H].
    apply existsb_exists in E. destruct E as [e [Hin He]].
    apply hkey_eqb_eq in He. subst h. now apply in_map.
  - rewrite map_app, in_app_iff. cbn [map fst In]. split.
    + intros [H | [H | []]]; [now right | now left].
    + intros [-> | H]; [right; now left | now left].
Qed.

Lemma set_insert_nodup (s : pyset) (h : hkey) (v : json) :
  NoDup (map fst s) -> NoDup (map fst (set_insert s h v)).
Proof.
  intros Hnd. unfold set_insert.
  destruct (existsb (fun e => hkey_eqb (fst e) h) s) eqn:E; [exact Hnd |].
  rewrite map_app. cbn [map fst].
  apply NoDup_app; [exact Hnd | repeat constructor; intros [] |].
  intros x Hx [Hxh | []]. subst x.
  apply in_map_iff in Hx. destruct Hx as [e [He Hin]].
  assert (existsb (fun e => hkey_eqb (fst e) h) s = true) as Habs.
  { apply existsb_exists. exists e. split; [exact Hin |].
    rewrite He. apply hkey_eqb_refl. }
  congruence.
Qed.

Lemma set_insert_members (s : pyset) (h : hkey) (v : json) :
  Forall (fun e => py_hash (snd e) = Ok (fst e)) s ->
  py_hash v = Ok h ->
  Forall (fun e => py_hash (snd e) = Ok (fst e)) (set_insert s h v).
Proof.
  intros Hs Hv. unfold set_insert.
  destruct (existsb _ s); [exact Hs |].
  apply Forall_app. split; [exact Hs | now repeat constructor].
Qed.

Lemma set_add_insert (s s' : pyset) (v : json) :
  set_add s v = Ok s' ->
  exists h, py_hash v = Ok h /\ s' = set_insert s h v.
Proof.
  unfold set_add. destruct (py_hash v) as [h | e]; [| discriminate].
  cbn [rbind]. intros H. injection H as <-. now exists h.
Qed.

(** What one pass does to the three aggregates. *)
Lemma process_issue_aggregates (intervals : list Interval) (st st' : loop_state)
    (issue : json) :
  process_issue intervals st issue = Ok st' ->
  exists (p : ProcessedIssue) (hp ht : hkey),
    processed st' = (processed st ++ [p])%list
    /\ py_hash (project p) = Ok hp
    /\ projects st' = dict_store (projects st) hp (project p) (projectName p)
    /\ py_hash (issueType p) = Ok ht
    /\ issue_types st' = set_insert (issue_types st) ht (issueType p)
    /\ status_groups st'
       = set_insert (status_groups st) (HStr (statusGroup p))
           (JStr (statusGroup p)).
Proof.
  intros H. unfold process_issue in H. bind_inv H.
  injection H as H. subst st'. cbn [processed projects issue_types status_groups].
  repeat match goal with
         | E : set_add _ _ = Ok _ |- _ =>
             apply set_add_insert in E; destruct E as [? [? ?]]
         end.
  match goal with
  | E : dict_setitem _ ?k _ = Ok _ |- _ =>
      unfold dict_setitem in E; destruct (py_hash k) as [hp | e] eqn:Hhp;
      [| discriminate E]; cbn [rbind] in E; injection E as E
  end.
  cbn [py_hash] in *.
  repeat match goal with
         | E : Ok _ = Ok _ |- _ => injection E as E
         end.
  subst. eexists. exists hp. eexists.
  cbn [project projectName issueType statusGroup].
  repeat split; try reflexivity; eassumption.
Qed.

Lemma process_loop_invariant (intervals : list Interval)
    (I : loop_state -> Prop) :
  (forall st issue st',
      I st -> process_issue intervals st issue = Ok st' -> I st') ->
  forall (issues : list json) (st st' : loop_state),
    I st -> process_loop intervals st issues = Ok st' -> I st'.
Proof.
  intros Hstep. induction issues as [| issue rest IH]; intros st st' HI H.
  - now injection H as <-.
  - cbn [process_loop] in H.
    destruct (process_issue intervals st issue) as [st1 | e] eqn:E;
      [| discriminate H].
    cbn [rbind] in H. eapply IH; [| exact H]. eapply Hstep; eassumption.
Qed.

(** *** Sorting *)

Lemma insert_by_perm {A : Type} (le : A -> A -> bool) (x : A) (l : list A) :
  Permutation (insert_by le x l) (x :: l).
Proof.
  induction l as [| y l IH]; cbn [insert_by]; [reflexivity |].
  destruct (le x y); [reflexivity |].
  rewrite IH. apply perm_swap.
Qed.

Lemma sort_by_perm {A : Type} (le : A -> A -> bool) (l : list A) :
  Permutation (sort_by le l) l.
Proof.
  induction l as [| x l IH]; cbn [sort_by fold_right]; [reflexivity |].
  fold (sort_by le l). rewrite insert_by_perm. now constructor.
Qed.

Lemma ascending_cons {A : Type} (le : A -> A -> bool) (x y : A) (l : list A) :
  ascending le (x :: y :: l) = (le x y && ascending le (y :: l))%bool.
Proof. reflexivity. Qed.

Lemma insert_by_ascending {A : Type} (le : A -> A -> bool) (x : A) (l : list A) :
  (forall a b, le a b = false -> le b a = true) ->
  ascending le l = true -> ascending le (insert_by le x l) = true.
Proof.
  intros Htot. induction l as [| y l IH]; intros Hl; [reflexivity |].
  cbn [insert_by]. destruct (le x y) eqn:E.
  - rewrite ascending_cons, E. exact Hl.
  - pose proof (Htot _ _ E) as Hyx.
    destruct l as [| z l].
    + cbn [insert_by]. rewrite ascending_cons, Hyx. reflexivity.
    + rewrite ascending_cons in Hl. apply andb_prop in Hl.
      destruct Hl as [Hyz Hl]. specialize (IH Hl).
      cbn [insert_by] in IH |- *.
      destruct (le x z) eqn:Ez.
      * rewrite ascending_cons, Hyx. exact IH.
      * rewrite ascending_cons, Hyz. exact IH.
Qed.

Lemma sort_by_ascending {A : Type} (le : A -> A -> bool) (l : list A) :
  (forall a b, le a b = false -> le b a = true) ->
  ascending le (sort_by le l) = true.
Proof.
  intros Htot. induction l as [| x l IH]; [reflexivity |].
  cbn [sort_by fold_right]. fold (sort_by le l).
  now apply insert_by_ascending.
Qed.

Lemma string_leb_total (a b : string) :
  String.leb a b = false -> String.leb b a = true.
Proof.
  intros H. destruct (String.leb_total a b) as [H' | H']; congruence.
Qed.

Lemma ascending_map {A B : Type} (f : A -> B) (leA : A -> A -> bool)
    (leB : B -> B -> bool) (l : list A) :
  (forall a b, leB (f a) (f b) = leA a b) ->
  ascending leB (map f l) = ascending leA l.
Proof.
  intros H. induction l as [| x [| y l] IH]; try reflexivity.
  cbn [map] in IH |- *. now rewrite !ascending_cons, H, IH.
Qed.

Lemma sorted_set_perm (s : pyset) (l : list json) :
  sorted_set s = Ok l ->
  exists s', Permutation s' s /\ l = map snd s'
             /\ (forallb hkey_is_str s = true -> ascending hkey_le s' = true).
Proof.
  unfold sorted_set.
  destruct s as [| e1 [| e2 s]].
  - intros H. injection H as <-. exists [].
    split; [constructor | split; [reflexivity | reflexivity]].
  - intros H. injection H as <-. exists [e1].
    split; [reflexivity | split; [reflexivity | reflexivity]].
  - destruct (forallb hkey_is_str (e1 :: e2 :: s)
              || forallb hkey_is_num (e1 :: e2 :: s))%bool; [| discriminate].
    intros H. injection H as <-.
    exists (sort_by hkey_le (e1 :: e2 :: s)).
    split; [apply sort_by_perm |]. split; [reflexivity |].
    intros Hstr. 
    assert (Forall (fun e => hkey_is_str e = true)
              (sort_by hkey_le (e1 :: e2 :: s))) as Hall.
    { apply Forall_forall. intros e He.
      apply (Permutation_in _ (sort_by_perm hkey_le (e1 :: e2 :: s))) in He.
      rewrite forallb_forall in Hstr. now apply Hstr. }
    clear Hstr. revert Hall.
    generalize (e1 :: e2 :: s). intros l _. 
    induction l as [| x l IH]; [reflexivity |].
    cbn [sort_by fold_right]. fold (sort_by hkey_le l).
    apply insert_by_ascending; [| exact IH].
    intros a b. unfold hkey_le.
    destruct (fst a), (fst b); try discriminate.
    + intros Hab. destruct (Z.leb_spec n n0); [discriminate |].
      apply Z.leb_le. lia.
    + apply string_leb_total.
Qed.

(** *** The status groups observed *)

Lemma str_members_list (s : pyset) :
  Forall (fun e => exists g, e = (HStr g, JStr g)) s ->
  exists gs, s = map (fun g => (HStr g, JStr g)) gs.
Proof.
  induction 1 as [| e s [g ->] _ [gs ->]].
  - now exists [].
  - now exists (g :: gs).
Qed.

Lemma str_members_forallb (gs : list string) :
  forallb hkey_is_str (map (fun g => (HStr g, JStr g)) gs) = true.
Proof. induction gs as [| g gs IH]; [reflexivity | exact IH]. Qed.

Lemma status_groups_inv_step (intervals : list Interval) (st st' : loop_state)
    (issue : json) :
  status_groups_inv st ->
  process_issue intervals st issue = Ok st' ->
  status_groups_inv st'.
Proof.
  intros [Hform [Hnd Hmem]] H.
  destruct (process_issue_aggregates _ _ _ _ H)
    as [p [hp [ht [Hp [_ [_ [_ [_ Hsg]]]]]]]].
  unfold status_groups_inv. rewrite Hsg, Hp. split; [| split].
  - unfold set_insert. destruct (existsb _ (status_groups st)); [exact Hform |].
    apply Forall_app. split; [exact Hform |].
    constructor; [now exists (statusGroup p) | constructor].
  - now apply set_insert_nodup.
  - intros g. rewrite set_insert_hashes, Hmem. split.
    + intros [Heq | [q [Hq Hg]]].
      * injection Heq as ->. exists p. split; [| reflexivity].
        apply in_or_app. right. now left.
      * exists q. split; [apply in_or_app; now left | exact Hg].
    + intros [q [Hq Hg]]. apply in_app_or in Hq.
      destruct Hq as [Hq | [<- | []]].
      * right. now exists q.
      * left. now rewrite Hg.
Qed.

Lemma status_groups_inv_init : status_groups_inv (mkLoop [] [] [] []).
Proof.
  unfold status_groups_inv. cbn [status_groups processed map].
  split; [constructor |]. split; [constructor |].
  intros g. split; [intros [] | intros [p [[] _]]].
Qed.

(** X7.  The [statusGroups] of a dataset are strings, in ascending order,
    without repetition, and they are exactly the status groups of the
    records of the dataset. *)
Theorem status_groups_observed (utcnow : string) (issues : list json)
    (intervals : list Interval) (initiatives epics : list json)
    (data : Dataset) :
  process_issues utcnow issues intervals initiatives epics = Ok data ->
  exists gs : list string,
    ds_statusGroups data = map JStr gs
    /\ ascending String.leb gs = true
    /\ NoDup gs
    /\ (forall g, In g gs <->
                  exists p, In p (ds_issues data) /\ statusGroup p = g).
Proof.
  intros H. unfold process_issues in H. bind_inv H. injection H as <-.
  cbn [ds_statusGroups ds_issues].
  match goal with
  | E : process_loop _ _ _ = Ok ?st |- _ =>
      assert (status_groups_inv st) as [Hform [Hnd Hmem]]
        by (eapply (process_loop_invariant intervals status_groups_inv);
            [intros; eapply status_groups_inv_step; eassumption
            | apply status_groups_inv_init
            | exact E])
  end.
  match goal with
  | E : sorted_set (status_groups _) = Ok _ |- _ =>
      destruct (sorted_set_perm _ _ E) as [s' [Hperm [-> Hasc]]]
  end.
  assert (Forall (fun e => exists g, e = (HStr g, JStr g)) s') as Hform'
      by (eapply Permutation_Forall; [symmetry; exact Hperm | exact Hform]).
  destruct (str_members_list _ Hform') as [gs ->].
  destruct (str_members_list _ Hform) as [gs0 Hgs0].
  exists gs. split; [now rewrite map_map |]. split; [| split].
  - rewrite <- (ascending_map (fun g => (HStr g, JStr g)) String.leb hkey_le)
      by reflexivity.
    apply Hasc. rewrite Hgs0. apply str_members_forallb.
  - apply (NoDup_map_inv HStr).
    assert (map HStr gs = map fst (map (fun g => (HStr g, JStr g)) gs)) as ->
        by now rewrite map_map.
    eapply Permutation_NoDup; [| exact Hnd].
    apply Permutation_map. now symmetry.
  - intros g. rewrite <- Hmem. split.
    + intros Hin.
      apply (Permutation_in _ (Permutation_map fst Hperm)).
      rewrite map_map. cbn [fst]. now apply in_map.
    + intros Hin.
      apply (Permutation_in _ (Permutation_map fst (Permutation_sym Hperm))) in Hin.
      rewrite map_map in Hin. cbn [fst] in Hin.
      apply in_map_iff in Hin. destruct Hin as [g' [Hg Hin]].
      now injection Hg as ->.
Qed.

Lemma status_groups_observed_witness :
  exists data,
    process_issues "2026-02-01T00:00:00Z" three_issues
      configured_intervals [] [] = Ok data
    /\ exists gs : list string,
         ds_statusGroups data = map JStr gs
         /\ ascending String.leb gs = true
         /\ NoDup gs
         /\ (forall g, In g gs <->
                       exists p, In p (ds_issues data) /\ statusGroup p = g).
Proof.
  eexists. split.
  - vm_compute. reflexivity.
  - apply (status_groups_observed "2026-02-01T00:00:00Z" three_issues
             configured_intervals [] []).
    vm_compute. reflexivity.
Defined.

(** *** The issue types observed *)

Lemma issue_types_inv_init : issue_types_inv (mkLoop [] [] [] []).
Proof.
  unfold issue_types_inv. cbn [issue_types processed map].
  split; [constructor |]. split; [constructor |].
  split; [| constructor].
  intros h. split; [intros [] | intros [p [[] _]]].
Qed.

Lemma issue_types_inv_step (intervals : list Interval) (st st' : loop_state)
    (issue : json) :
  issue_types_inv st ->
  process_issue intervals st issue = Ok st' ->
  issue_types_inv st'.
Proof.
  intros [Hform [Hnd [Hmem Hall]]] H.
  destruct (process_issue_aggregates _ _ _ _ H)
    as [p [hp [ht [Hp [_ [_ [Hht [Hit _]]]]]]]].
  unfold issue_types_inv. rewrite Hit, Hp. split; [| split; [| split]].
  - now apply set_insert_members.
  - now apply set_insert_nodup.
  - intros h. rewrite set_insert_hashes, Hmem. split.
    + intros [-> | [q [Hq Hh]]].
      * exists p. split; [apply in_or_app; right; now left | exact Hht].
      * exists q. split; [apply in_or_app; now left | exact Hh].
    + intros [q [Hq Hh]]. apply in_app_or in Hq.
      destruct Hq as [Hq | [<- | []]].
      * right. now exists q.
      * left. congruence.
  - apply Forall_app. split; [exact Hall |].
    constructor; [now exists ht | constructor].
Qed.

Lemma sorted_set_one_kind (s : pyset) (l : list json) :
  sorted_set s = Ok l ->
  NoDup (map fst s) ->
  forall h h', In h (map fst s) -> In h' (map fst s) ->
               hkey_kind h = hkey_kind h'.
Proof.
  unfold sorted_set. destruct s as [| e1 [| e2 s]].
  - intros _ _ h h' [].
  - intros _ _ h h' [<- | []] [<- | []]. reflexivity.
  - destruct (forallb hkey_is_str (e1 :: e2 :: s)) eqn:Es.
    + intros _ _ h h' Hh Hh'. rewrite forallb_forall in Es.
      apply in_map_iff in Hh. destruct Hh as [e [<- He]].
      apply in_map_iff in Hh'. destruct Hh' as [e' [<- He']].
      pose proof (Es e He) as H1. pose proof (Es e' He') as H2.
      unfold hkey_is_str in H1, H2.
      destruct (fst e), (fst e'); try discriminate; reflexivity.
    + destruct (forallb hkey_is_num (e1 :: e2 :: s)) eqn:En; [| discriminate].
      intros _ _ h h' Hh Hh'. rewrite forallb_forall in En.
      apply in_map_iff in Hh. destruct Hh as [e [<- He]].
      apply in_map_iff in Hh'. destruct Hh' as [e' [<- He']].
      pose proof (En e He) as H1. pose proof (En e' He') as H2.
      unfold hkey_is_num in H1, H2.
      destruct (fst e), (fst e'); try discriminate; reflexivity.
Qed.

Lemma hashes_of_members (s : pyset) :
  Forall (fun e => py_hash (snd e) = Ok (fst e)) s ->
  Forall2 (fun t h => py_hash t = Ok h) (map snd s) (map fst s).
Proof.
  induction 1; cbn [map]; constructor; assumption.
Qed.

(** X8.  The [issueTypes] of a dataset list each issue type of its records
    once (two names that Python holds equal count as one), and nothing
    else; and a dataset is returned only when these names are all of one
    kind: all strings, or all numbers, or the single value [None].  Names
    of two kinds, a string and a null say, make [sorted] raise. *)
Theorem issue_types_observed (utcnow : string) (issues : list json)
    (intervals : list Interval) (initiatives epics : list json)
    (data : Dataset) :
  process_issues utcnow issues intervals initiatives epics = Ok data ->
  exists hs : list hkey,
    Forall2 (fun t h => py_hash t = Ok h) (ds_issueTypes data) hs
    /\ NoDup hs
    /\ (forall h, In h hs <->
                  exists p, In p (ds_issues data)
                            /\ py_hash (issueType p) = Ok h)
    /\ (forall p q, In p (ds_issues data) -> In q (ds_issues data) ->
                    option_map hkey_kind (hash_of (issueType p))
                    = option_map hkey_kind (hash_of (issueType q))).
Proof.
  intros H. unfold process_issues in H. bind_inv H. injection H as <-.
  cbn [ds_issueTypes ds_issues].
  match goal with
  | E : process_loop _ _ _ = Ok ?st |- _ =>
      assert (issue_types_inv st) as [Hform [Hnd [Hmem Hhash]]]
        by (eapply (process_loop_invariant intervals issue_types_inv);
            [intros; eapply issue_types_inv_step; eassumption
            | apply issue_types_inv_init
            | exact E])
  end.
  match goal with
  | E : sorted_set (issue_types _) = Ok _ |- _ =>
      pose proof (sorted_set_one_kind _ _ E Hnd) as Hkind;
      destruct (sorted_set_perm _ _ E) as [s' [Hperm [-> _]]]
  end.
  exists (map fst s'). split; [| split; [| split]].
  - apply hashes_of_members.
    eapply Permutation_Forall; [symmetry; exact Hperm | exact Hform].
  - eapply Permutation_NoDup; [| exact Hnd].
    apply Permutation_map. now symmetry.
  - intros h. rewrite <- Hmem. split; apply Permutation_in;
      apply Permutation_map; [exact Hperm | now symmetry].
  - intros p q Hp Hq.
    rewrite Forall_forall in Hhash.
    match type of Hhash with
    | forall x, In x (processed ?st) -> _ =>
        assert (forall r, In r (processed st) ->
                          exists h, py_hash (issueType r) = Ok h
                                    /\ In h (map fst (issue_types st))) as Hall
    end.
    { intros r Hr. destruct (Hhash r Hr) as [h Hh].
      exists h. split; [exact Hh |]. apply Hmem. now exists r. }
    destruct (Hall p Hp) as [hp [Hhp Hinp]].
    destruct (Hall q Hq) as [hq [Hhq Hinq]].
    unfold hash_of. rewrite Hhp, Hhq. cbn [option_map].
    f_equal. now apply Hkind.
Qed.

Lemma issue_types_observed_witness :
  exists data,
    process_issues "2026-02-01T00:00:00Z" three_issues
      configured_intervals [] [] = Ok data
    /\ exists hs : list hkey,
         Forall2 (fun t h => py_hash t = Ok h) (ds_issueTypes data) hs
         /\ NoDup hs
         /\ (forall h, In h hs <->
                       exists p, In p (ds_issues data)
                                 /\ py_hash (issueType p) = Ok h)
         /\ (forall p q, In p (ds_issues data) -> In q (ds_issues data) ->
                         option_map hkey_kind (hash_of (issueType p))
                         = option_map hkey_kind (hash_of (issueType q))).
Proof.
  eexists. split.
  - vm_compute. reflexivity.
  - apply (issue_types_observed "2026-02-01T00:00:00Z" three_issues
             configured_intervals [] []).
    vm_compute. reflexivity.
Defined.

(** A null issue type name next to a string one: [sorted] raises. *)
Example issue_types_of_two_kinds :
  process_issues "2026-02-01T00:00:00Z"
    [ sample_issue "NS-1" "Done" "2026-02-15T10:00:00Z" "2026-03-02T08:30:00Z";
      JObj [("key", JStr "NS-9");
            ("fields", JObj [("issuetype", JObj [("name", JNull)])])] ]
    configured_intervals [] []
  = Raise TypeError.
Proof. vm_compute. reflexivity. Qed.

(** *** The projects *)

Lemma dict_store_lookup (d : pydict) (h : hkey) (k v : json) (h' : hkey) :
  dict_lookup (dict_store d h k v) h'
  = if hkey_eqb h h' then Some v else dict_lookup d h'.
Proof.
  induction d as [| [h0 [k0 v0]] d IH]; cbn [dict_store dict_lookup].
  - reflexivity.
  - destruct (hkey_eqb h0 h) eqn:E0.
    + apply hkey_eqb_eq in E0. subst h0. cbn [dict_lookup].
      destruct (hkey_eqb h h'); reflexivity.
    + cbn [dict_lookup]. rewrite IH.
      destruct (hkey_eqb h0 h') eqn:E1; [| reflexivity].
      apply hkey_eqb_eq in E1. subst h0.
      destruct (hkey_eqb h h') eqn:E2; [| reflexivity].
      apply hkey_eqb_eq in E2. subst h'. now rewrite hkey_eqb_refl in E0.
Qed.

Lemma dict_store_keys (d : pydict) (h : hkey) (k v : json) (h' : hkey) :
  In h' (map fst (dict_store d h k v)) <-> h' = h \/ In h' (map fst d).
Proof.
  induction d as [| [h0 [k0 v0]] d IH]; cbn [dict_store map fst In].
  - split; [intros [<- | []]; now left | intros [-> | []]; now left].
  - destruct (hkey_eqb h0 h) eqn:E0.
    + apply hkey_eqb_eq in E0. subst h0. cbn [map fst In]. split.
      * intros [H | H]; [left; now symmetry | right; now right].
      * intros [-> | [H | H]]; [now left | now left | now right].
    + cbn [map fst In]. rewrite IH. tauto.
Qed.

Lemma dict_store_nodup (d : pydict) (h : hkey) (k v : json) :
  NoDup (map fst d) -> NoDup (map fst (dict_store d h k v)).
Proof.
  induction d as [| [h0 [k0 v0]] d IH]; cbn [dict_store map fst]; intros Hnd.
  - repeat constructor. intros [].
  - destruct (hkey_eqb h0 h) eqn:E0; [exact Hnd |].
    cbn [map fst]. inversion Hnd as [| ? ? Hni Hnd']. subst.
    constructor; [| now apply IH].
    rewrite dict_store_keys. intros [-> | H]; [| now apply Hni].
    now rewrite hkey_eqb_refl in E0.
Qed.

Lemma dict_store_hashes (d : pydict) (h : hkey) (k v : json) :
  Forall (fun e => py_hash (fst (snd e)) = Ok (fst e)) d ->
  py_hash k = Ok h ->
  Forall (fun e => py_hash (fst (snd e)) = Ok (fst e)) (dict_store d h k v).
Proof.
  intros Hd Hk. induction Hd as [| [h0 [k0 v0]] d He Hd IH];
    cbn [dict_store].
  - now repeat constructor.
  - destruct (hkey_eqb h0 h); constructor; auto.
Qed.

Lemma dict_lookup_in (d : pydict) (h : hkey) (v : json) :
  NoDup (map fst d) ->
  (dict_lookup d h = Some v <-> exists k, In (h, (k, v)) d).
Proof.
  induction d as [| [h0 [k0 v0]] d IH]; cbn [dict_lookup map fst In]; intros Hnd.
  - split; [discriminate | intros [k []]].
  - inversion Hnd as [| ? ? Hni Hnd']. subst.
    destruct (hkey_eqb h0 h) eqn:E0.
    + apply hkey_eqb_eq in E0. subst h0. split.
      * intros H. injection H as <-. exists k0. now left.
      * intros [k [H | H]]; [now injection H as _ <- |].
        exfalso. apply Hni. apply in_map_iff. now exists (h, (k, v)).
    + rewrite (IH Hnd'). split.
      * intros [k H]. exists k. now right.
      * intros [k [H | H]]; [| now exists k].
        injection H as -> _ _. now rewrite hkey_eqb_refl in E0.
Qed.

Lemma last_project_name_app (ps : list ProcessedIssue) (p : ProcessedIssue)
    (h : hkey) :
  last_project_name (ps ++ [p]) h
  = match py_hash (project p) with
    | Ok h' => if hkey_eqb h' h then Some (projectName p)
               else last_project_name ps h
    | Raise _ => last_project_name ps h
    end.
Proof.
  induction ps as [| q ps IH]; cbn [app last_project_name].
  - destruct (py_hash (project p)) as [h' |]; [| reflexivity].
    destruct (hkey_eqb h' h); reflexivity.
  - rewrite IH. destruct (py_hash (project p)) as [h' |]; [| reflexivity].
    destruct (hkey_eqb h' h); [| reflexivity].
    reflexivity.
Qed.

Lemma last_project_name_some (ps : list ProcessedIssue) (p : ProcessedIssue)
    (h : hkey) :
  In p ps -> py_hash (project p) = Ok h ->
  exists v, last_project_name ps h = Some v.
Proof.
  induction ps as [| q ps IH]; intros Hin Hh; [contradiction |].
  cbn [last_project_name].
  destruct (last_project_name ps h) as [v |] eqn:E; [now exists v |].
  destruct Hin as [-> | Hin].
  - rewrite Hh, hkey_eqb_refl. now eexists.
  - destruct (IH Hin Hh) as [v Hv]. discriminate Hv.
Qed.

Lemma projects_inv_init : projects_inv (mkLoop [] [] [] []).
Proof.
  unfold projects_inv. cbn [projects processed map].
  split; [constructor |]. split; [constructor |].
  split; [reflexivity | constructor].
Qed.

Lemma projects_inv_step (intervals : list Interval) (st st' : loop_state)
    (issue : json) :
  projects_inv st ->
  process_issue intervals st issue = Ok st' ->
  projects_inv st'.
Proof.
  intros [Hform [Hnd [Hlook Hall]]] H.
  destruct (process_issue_aggregates _ _ _ _ H)
    as [p [hp [ht [Hp [Hhp [Hpr _]]]]]].
  unfold projects_inv. rewrite Hpr, Hp. split; [| split; [| split]].
  - now apply dict_store_hashes.
  - now apply dict_store_nodup.
  - intros h. rewrite dict_store_lookup, last_project_name_app, Hhp, Hlook.
    reflexivity.
  - apply Forall_app. split; [exact Hall |].
    constructor; [now exists hp | constructor].
Qed.

(** X9.  The [projects] of a dataset hold one entry for each project key of
    its records (keys that Python holds equal count as one), and the name
    under a key is the project name of the last record with that key. *)
Theorem projects_last_write_wins (utcnow : string) (issues : list json)
    (intervals : list Interval) (initiatives epics : list json)
    (data : Dataset) :
  process_issues utcnow issues intervals initiatives epics = Ok data ->
  (forall p, In p (ds_issues data) ->
     exists h k v,
       py_hash (project p) = Ok h
       /\ In (k, v) (ds_projects data)
       /\ py_hash k = Ok h
       /\ last_project_name (ds_issues data) h = Some v)
  /\ (forall k v, In (k, v) (ds_projects data) ->
        exists h, py_hash k = Ok h
                  /\ last_project_name (ds_issues data) h = Some v)
  /\ (exists hs, Forall2 (fun kv h => py_hash (fst kv) = Ok h)
                   (ds_projects data) hs
                 /\ NoDup hs).
Proof.
  intros H. unfold process_issues in H. bind_inv H. injection H as <-.
  cbn [ds_projects ds_issues].
  match goal with
  | E : process_loop _ _ _ = Ok ?st |- _ =>
      assert (projects_inv st) as [Hform [Hnd [Hlook Hall]]]
        by (eapply (process_loop_invariant intervals projects_inv);
            [intros; eapply projects_inv_step; eassumption
            | apply projects_inv_init
            | exact E]);
      set (final := st) in *
  end.
  rewrite Forall_forall in Hform, Hall.
  split; [| split].
  - intros p Hp. destruct (Hall p Hp) as [h Hh].
    destruct (last_project_name_some _ _ _ Hp Hh) as [v Hv].
    pose proof Hv as Hv'. rewrite <- Hlook in Hv'.
    apply (dict_lookup_in _ _ _ Hnd) in Hv'. destruct Hv' as [k Hk].
    exists h, k, v. split; [exact Hh |]. split; [| split; [| exact Hv]].
    + apply in_map_iff. now exists (h, (k, v)).
    + exact (Hform _ Hk).
  - intros k v Hin. apply in_map_iff in Hin.
    destruct Hin as [[h [k' v']] [Heq Hin]]. cbn [snd] in Heq.
    injection Heq as -> ->. exists h. split; [exact (Hform _ Hin) |].
    rewrite <- Hlook. apply (dict_lookup_in _ _ _ Hnd). now exists k.
  - exists (map fst (projects final)). split; [| exact Hnd].
    clear - Hform. induction (projects final) as [| e d IH]; cbn [map].
    + constructor.
    + constructor.
      * apply Hform. now left.
      * apply IH. intros x Hx. apply Hform. now right.
Qed.

Lemma projects_last_write_wins_witness :
  exists data,
    process_issues "2026-02-01T00:00:00Z" three_issues
      configured_intervals [] [] = Ok data
    /\ (forall p, In p (ds_issues data) ->
          exists h k v,
            py_hash (project p) = Ok h
            /\ In (k, v) (ds_projects data)
            /\ py_hash k = Ok h
            /\ last_project_name (ds_issues data) h = Some v)
    /\ (forall k v, In (k, v) (ds_projects data) ->
          exists h, py_hash k = Ok h
                    /\ last_project_name (ds_issues data) h = Some v)
    /\ (exists hs, Forall2 (fun kv h => py_hash (fst kv) = Ok h)
                     (ds_projects data) hs
                   /\ NoDup hs).
Proof.
  eexists. split.
  - vm_compute. reflexivity.
  - apply (projects_last_write_wins "2026-02-01T00:00:00Z" three_issues
             configured_intervals [] []).
    vm_compute. reflexivity.
Defined.

(** ** Batches of initiative keys *)

Lemma skipn_shorter {A : Type} (n : nat) (l : list A) :
  (0 < n)%nat -> l <> [] -> (List.length (skipn n l) < List.length l)%nat.
Proof.
  intros Hn Hl. rewrite length_skipn.
  destruct l as [| x l]; [contradiction |]. cbn [List.length]. lia.
Qed.

Lemma batches_fuel_concat {A : Type} (n : nat) :
  (0 < n)%nat ->
  forall (fuel : nat) (keys : list A),
    (List.length keys <= fuel)%nat ->
    List.concat (batches_fuel fuel n keys) = keys
    /\ Forall (fun b => (0 < List.length b <= n)%nat) (batches_fuel fuel n keys).
Proof.
  intros Hn. induction fuel as [| fuel IH]; intros keys Hlen.
  - destruct keys; [| cbn [List.length] in Hlen; lia].
    split; [reflexivity | constructor].
  - destruct keys as [| k keys]; [split; [reflexivity | constructor] |].
    cbn [batches_fuel].
    pose proof (skipn_shorter n (k :: keys) Hn ltac:(discriminate)) as Hs.
    destruct (IH (skipn n (k :: keys)) ltac:(cbn [List.length] in *; lia))
      as [Hc Hf].
    split.
    + cbn [List.concat]. rewrite Hc. apply firstn_skipn.
    + constructor; [| exact Hf].
      rewrite length_firstn. cbn [List.length]. lia.
Qed.

Lemma batches_fuel_full {A : Type} (n : nat) :
  (0 < n)%nat ->
  forall (fuel : nat) (keys : list A),
    (List.length keys <= fuel)%nat ->
    full_but_last n (batches_fuel fuel n keys).
Proof.
  intros Hn. induction fuel as [| fuel IH]; intros keys Hlen; [exact I |].
  destruct keys as [| k keys]; [exact I |].
  cbn [batches_fuel].
  pose proof (skipn_shorter n (k :: keys) Hn ltac:(discriminate)) as Hs.
  pose proof (IH (skipn n (k :: keys)) ltac:(cbn [List.length] in *; lia))
    as Hrest.
  destruct (batches_fuel fuel n (skipn n (k :: keys))) as [| b rest] eqn:E;
    [exact I |].
  cbn [full_but_last]. split; [| exact Hrest].
  rewrite length_firstn.
  destruct (Nat.le_gt_cases (List.length (k :: keys)) n) as [Hle | Hgt];
    [| lia].
  rewrite (skipn_all2 (k :: keys) Hle) in E.
  destruct fuel; discriminate E.
Qed.

Lemma batches_fuel_map {A B : Type} (f : A -> B) (n : nat) :
  forall (fuel : nat) (keys : list A),
    batches_fuel fuel n (map f keys) = map (map f) (batches_fuel fuel n keys).
Proof.
  induction fuel as [| fuel IH]; intros keys; [reflexivity |].
  destruct keys as [| k keys]; [reflexivity |].
  change (batches_fuel (S fuel) n (map f (k :: keys)))
    with (firstn n (map f (k :: keys))
          :: batches_fuel fuel n (skipn n (map f (k :: keys)))).
  rewrite firstn_map, skipn_map, IH. reflexivity.
Qed.

Lemma join_comma_strings (batch : list string) :
  join_comma (map JStr batch) = Ok (String.concat "," batch).
Proof.
  induction batch as [| k batch IH]; [reflexivity |].
  destruct batch as [| k' batch]; [reflexivity |].
  change (join_comma (map JStr (k :: k' :: batch)))
    with (tl <- join_comma (map JStr (k' :: batch)) ;;
          Ok (k ++ "," ++ tl))%result.
  rewrite IH. reflexivity.
Qed.

(** ** More on the fetches *)

Lemma mapM_raises {A B : Type} (f : A -> result B) (l : list A) :
  Exists (fun x => forall y, f x <> Ok y) l ->
  exists e, mapM f l = Raise e.
Proof.
  induction 1 as [x l Hx | x l _ [e IH]]; cbn [mapM].
  - destruct (f x) as [y | e]; [now contradiction (Hx y) | now exists e].
  - destruct (f x) as [y | e']; cbn [rbind]; [| now exists e'].
    rewrite IH. now exists e.
Qed.

Section RemoteFurther.

Variable World : Type.
Variable post : World -> request -> reply * World.
Variables JIRA_EMAIL JIRA_API_TOKEN JIRA_BASE_URL : string.

#[local] Abbreviation search_request := (search_request JIRA_EMAIL JIRA_API_TOKEN JIRA_BASE_URL).
#[local] Abbreviation pages_then := (pages_then World post JIRA_EMAIL JIRA_API_TOKEN JIRA_BASE_URL).
#[local] Abbreviation page_request := (page_request JIRA_EMAIL JIRA_API_TOKEN JIRA_BASE_URL).
#[local] Abbreviation exchanged := (exchanged World post JIRA_EMAIL JIRA_API_TOKEN JIRA_BASE_URL).
#[local] Abbreviation fetch_issues_by_jql :=
  (fetch_issues_by_jql World post JIRA_EMAIL JIRA_API_TOKEN JIRA_BASE_URL).
#[local] Abbreviation fetch_initiatives :=
  (fetch_initiatives World post JIRA_EMAIL JIRA_API_TOKEN JIRA_BASE_URL).
#[local] Abbreviation child_loop := (child_loop World post JIRA_EMAIL JIRA_API_TOKEN JIRA_BASE_URL).
#[local] Abbreviation epics_loop := (epics_loop World post JIRA_EMAIL JIRA_API_TOKEN JIRA_BASE_URL).
#[local] Abbreviation fetch_each := (fetch_each World post JIRA_EMAIL JIRA_API_TOKEN JIRA_BASE_URL).
#[local] Abbreviation fetch_epics_for_initiatives :=
  (fetch_epics_for_initiatives World post JIRA_EMAIL JIRA_API_TOKEN JIRA_BASE_URL).
#[local] Abbreviation fetch_jira_issues :=
  (fetch_jira_issues World post JIRA_EMAIL JIRA_API_TOKEN JIRA_BASE_URL).


Lemma epics_loop_each (fuel : nat) (bs : list (list string)) :
  forall (acc : list json) (w : World),
    epics_loop fuel (map (map JStr) bs) acc w
    = match fetch_each fuel (map epic_query bs) acc w with
      | Some (epics, w') => Some (Ok epics, w')
      | None => None
      end.
Proof.
  induction bs as [| b bs IH]; intros acc w; [reflexivity |].
  cbn [map epics_loop fetch_each]. rewrite join_comma_strings.
  change (epics_jql (String.concat "," b)) with (epic_query b).
  destruct (fetch_issues_by_jql fuel (epic_query b) w) as [[records w'] |];
    [apply IH | reflexivity].
Qed.

(** X10.  The epic fetch cuts the initiative keys into batches of 20, the
    last one with what is left: put end to end the batches are the keys, in
    order, each key once; no batch is empty or has more than 20 keys; every
    batch but the last has exactly 20.  It runs one paginated fetch for each
    batch, in order, for the epics whose parent is one of the keys of the
    batch, and returns the records of all of them; with no keys it sends no
    request. *)
Theorem initiative_keys_batched (keys : list string) :
  exists bs : list (list string),
    List.concat bs = keys
    /\ Forall (fun b => (0 < List.length b <= 20)%nat) bs
    /\ full_but_last 20 bs
    /\ forall (fuel : nat) (w : World),
         fetch_epics_for_initiatives fuel (map JStr keys) w
         = match fetch_each fuel (map epic_query bs) [] w with
           | Some (epics, w') => Some (Ok epics, w')
           | None => None
           end.
Proof.
  exists (batches 20 keys). unfold batches.
  destruct (batches_fuel_concat (A := string) 20 ltac:(lia)
              (List.length keys) keys (le_n _)) as [Hc Hf].
  split; [exact Hc |]. split; [exact Hf |]. split.
  - apply batches_fuel_full; lia.
  - intros fuel w. unfold fetch_epics_for_initiatives.
    destruct keys as [| k keys]; [reflexivity |].
    cbn [map]. change (JStr k :: map JStr keys) with (map JStr (k :: keys)).
    unfold batches. rewrite length_map, batches_fuel_map.
    apply epics_loop_each.
Qed.

Lemma child_loop_ends_on_last_page (initiatives epics : list json) (w : World)
    (pages : list (list json)) (token : json) (w1 : World) (r : reply)
    (w2 : World) (items : list json) (token' : json) (fuel : nat) :
  pages_then CHILD_JQL JNull w pages token w1 ->
  post w1 (search_request CHILD_JQL token) = (r, w2) ->
  read_page r = Some (items, token') ->
  truthy token' = false ->
  (List.length pages < fuel)%nat ->
  child_loop fuel initiatives epics [] JNull w
  = Some (((List.concat pages ++ items)%list, initiatives, epics), w2).
Proof.
  intros Hpages Hpost Hread Htok Hfuel.
  replace fuel with (List.length pages + S (fuel - S (List.length pages)))%nat
    by lia.
  rewrite (child_loop_pages _ _ _ _ _ _ _ _ _ _ _ _ Hpages).
  cbn [child_loop app].
  now rewrite Hpost, Hread, Htok.
Qed.

(** X12.  A failed initiative fetch does not fail the run: when the first
    request for the initiatives fails, no epic request is sent, the child
    issues are fetched all the same, and they come back with no
    initiatives and no epics. *)
Theorem initiative_failure_is_silent (fuel : nat) (w w0 : World) (r0 : reply)
    (pages : list (list json)) (token : json) (w1 : World) (r : reply)
    (w2 : World) (items : list json) (token' : json) :
  JIRA_EMAIL <> "" -> JIRA_API_TOKEN <> "" ->
  post w (search_request (INITIATIVES_JQL) JNull) = (r0, w0) ->
  read_page r0 = None ->
  pages_then CHILD_JQL JNull w0 pages token w1 ->
  post w1 (search_request CHILD_JQL token) = (r, w2) ->
  read_page r = Some (items, token') ->
  truthy token' = false ->
  (List.length pages < fuel)%nat ->
  fetch_jira_issues fuel w
  = Some (Ok ((List.concat pages ++ items)%list, [], []), w2).
Proof.
  intros He Ht Hp0 Hr0 Hpages Hpost Hread Htok Hfuel.
  unfold fetch_jira_issues.
  apply String.eqb_neq in He. apply String.eqb_neq in Ht.
  rewrite He, Ht. cbn [orb].
  assert (fetch_initiatives fuel w = Some ([], w0)) as Hini.
  { unfold fetch_initiatives.
    apply (fetch_ends_on_failure World post JIRA_EMAIL JIRA_API_TOKEN
             JIRA_BASE_URL INITIATIVES_JQL w [] JNull w r0 w0 fuel).
    - apply pt_done.
    - exact Hp0.
    - exact Hr0.
    - cbn [List.length]. lia. }
  rewrite Hini. cbn [mapM]. cbn [fetch_epics_for_initiatives].
  now rewrite (child_loop_ends_on_last_page [] [] _ _ _ _ _ _ _ _ _
                 Hpages Hpost Hread Htok Hfuel).
Qed.

(** X13.  An initiative record without a ['key'] member ends
    [fetch_jira_issues] with an exception that nothing catches: no epic and
    no child issue is asked for after the initiatives. *)
Theorem initiative_without_key_raises (fuel : nat) (w : World)
    (initiatives : list json) (w1 : World) :
  JIRA_EMAIL <> "" -> JIRA_API_TOKEN <> "" ->
  fetch_initiatives fuel w = Some (initiatives, w1) ->
  Exists (fun i => forall k, py_getitem i "key" <> Ok k) initiatives ->
  exists e, fetch_jira_issues fuel w = Some (Raise e, w1).
Proof.
  intros He Ht Hini Hex. unfold fetch_jira_issues.
  apply String.eqb_neq in He. apply String.eqb_neq in Ht.
  rewrite He, Ht. cbn [orb]. rewrite Hini.
  destruct (mapM_raises _ _ Hex) as [e ->]. now exists e.
Qed.

End RemoteFurther.

Lemma initiative_failure_is_silent_witness :
  fetch_jira_issues script scripted_post "me@example.com" "secret"
    "https://collectors.atlassian.net" 5
    [Response 500 None; page [JStr "A"] (JStr "t1"); last_page [JStr "B"]]
  = Some (Ok (List.concat [[JStr "A"]] ++ [JStr "B"], [], [])%list, []).
Proof.
  apply (initiative_failure_is_silent script scripted_post "me@example.com"
           "secret" "https://collectors.atlassian.net" 5%nat
           [Response 500 None; page [JStr "A"] (JStr "t1"); last_page [JStr "B"]]
           [page [JStr "A"] (JStr "t1"); last_page [JStr "B"]]
           (Response 500 None)
           [[JStr "A"]] (JStr "t1") [last_page [JStr "B"]]
           (last_page [JStr "B"]) [] [JStr "B"] JNull).
  - discriminate.
  - discriminate.
  - reflexivity.
  - reflexivity.
  - eapply pt_more; [reflexivity | reflexivity | reflexivity | apply pt_done].
  - reflexivity.
  - reflexivity.
  - reflexivity.
  - simpl. lia.
Defined.

Lemma initiative_without_key_raises_witness :
  exists e,
    fetch_jira_issues script scripted_post "me@example.com" "secret"
      "https://collectors.atlassian.net" 5
      [last_page [JObj [("fields", JObj [])]]; last_page [JStr "B"]]
    = Some (Raise e, [last_page [JStr "B"]]).
Proof.
  apply (initiative_without_key_raises script scripted_post "me@example.com"
           "secret" "https://collectors.atlassian.net" 5%nat
           [last_page [JObj [("fields", JObj [])]]; last_page [JStr "B"]]
           [JObj [("fields", JObj [])]] [last_page [JStr "B"]]).
  - discriminate.
  - discriminate.
  - reflexivity.
  - constructor. intros k H. discriminate H.
Defined.


(** Twenty-one keys make two requests: one for the first twenty and one
    for the last. *)
Example twenty_one_keys_two_batches :
  fetch_epics_for_initiatives (list string) query_server "me@example.com"
    "secret" "https://collectors.atlassian.net" 1
    (map JStr (repeat "K" 21)) []
  = Some (Ok [ JStr (epic_query (repeat "K" 20)); JStr (epic_query ["K"]) ],
          [ epic_query (repeat "K" 20); epic_query ["K"] ]).
Proof. vm_compute. reflexivity. Qed.

(** ** Rendering *)

Lemma strip_prefix_app (p s rest : string) :
  strip_prefix p s = Some rest -> s = p ++ rest.
Proof.
  revert s. induction p as [| a p IH]; intros s; cbn [strip_prefix append].
  - now intros [= ->].
  - destruct s as [| b s]; [discriminate |].
    destruct (Ascii.eqb_spec a b) as [-> | _]; [| discriminate].
    intros H. now rewrite (IH _ H).
Qed.

Lemma string_length_append (a b : string) :
  String.length (a ++ b) = (String.length a + String.length b)%nat.
Proof.
  induction a as [| c a IH]; cbn [append String.length Nat.add];
    [reflexivity | now rewrite IH].
Qed.

Lemma strip_prefix_shorter (p s rest : string) :
  p <> "" -> strip_prefix p s = Some rest ->
  (String.length rest < String.length s)%nat.
Proof.
  intros Hp H. rewrite (strip_prefix_app _ _ _ H).
  rewrite string_length_append. destruct p; [contradiction |].
  cbn [String.length]. lia.
Qed.

Lemma replace_fuel_enough (old new : string) :
  old <> "" ->
  forall (f1 f2 : nat) (s : string),
    (String.length s < f1)%nat -> (String.length s < f2)%nat ->
    replace_fuel f1 old new s = replace_fuel f2 old new s.
Proof.
  intros Hold. induction f1 as [| f1 IH]; intros f2 s H1 H2; [lia |].
  destruct f2 as [| f2]; [lia |]. cbn [replace_fuel].
  destruct (strip_prefix old s) as [rest |] eqn:E.
  - pose proof (strip_prefix_shorter _ _ _ Hold E).
    f_equal. apply IH; lia.
  - destruct s as [| c s]; [reflexivity |].
    cbn [String.length] in H1, H2. f_equal. apply IH; lia.
Qed.

Lemma str_replace_step (old new s : string) :
  old <> "" ->
  str_replace old new s
  = match strip_prefix old s with
    | Some rest => new ++ str_replace old new rest
    | None =>
        match s with
        | EmptyString => EmptyString
        | String c s' => String c (str_replace old new s')
        end
    end.
Proof.
  intros Hold. unfold str_replace at 1. cbn [replace_fuel].
  destruct (strip_prefix old s) as [rest |] eqn:E.
  - pose proof (strip_prefix_shorter _ _ _ Hold E).
    f_equal. apply replace_fuel_enough; [exact Hold | lia | lia].
  - destruct s as [| c s]; reflexivity.
Qed.

Lemma append_assoc (a b c : string) : (a ++ b) ++ c = a ++ (b ++ c).
Proof. induction a as [| x a IH]; cbn [append]; [reflexivity | now rewrite IH]. Qed.

Lemma str_replace_first (old new : string) :
  old <> "" ->
  forall s : string,
    match find_first old s with
    | None => str_replace old new s = s
    | Some (pre, post) =>
        s = pre ++ old ++ post
        /\ str_replace old new s = pre ++ new ++ str_replace old new post
    end.
Proof.
  intros Hold. induction s as [| c s IH].
  - rewrite str_replace_step by exact Hold. cbn [find_first].
    destruct (strip_prefix old "") as [rest |] eqn:E.
    + split; [exact (strip_prefix_app _ _ _ E) | reflexivity].
    + reflexivity.
  - rewrite str_replace_step by exact Hold. cbn [find_first].
    destruct (strip_prefix old (String c s)) as [rest |] eqn:E.
    + split; [exact (strip_prefix_app _ _ _ E) | reflexivity].
    + destruct (find_first old s) as [[pre post] |].
      * destruct IH as [Hs Hr]. split.
        -- cbn [append]. now rewrite <- Hs.
        -- cbn [append]. now rewrite Hr.
      * now rewrite IH.
Qed.

Section MainFurther.

Variable World : Type.
Variable post : World -> request -> reply * World.
Variables JIRA_EMAIL JIRA_API_TOKEN JIRA_BASE_URL : string.
Variable json_dumps : Dataset -> string.
Variable utcnow : World -> string.
Variable write_cut : string -> option string.

#[local] Abbreviation main :=
  (main World post JIRA_EMAIL JIRA_API_TOKEN JIRA_BASE_URL json_dumps utcnow
     write_cut).
#[local] Abbreviation fetch_jira_issues :=
  (fetch_jira_issues World post JIRA_EMAIL JIRA_API_TOKEN JIRA_BASE_URL).

(** X14.  [generate_html] replaces the placeholder where it finds it and
    keeps the rest of the template: a template without the placeholder
    comes back as it is, with no data in it and no error; in a template
    with the placeholder the text before its first occurrence is kept, the
    serialized dataset follows, and the text after it is treated the same
    way.  A missing template file raises. *)
Theorem generate_html_substitutes (fs : FileSystem) (data : Dataset) :
  (template fs = None -> generate_html json_dumps fs data = Raise FileNotFoundError)
  /\ (forall text,
         template fs = Some text ->
         find_first PLACEHOLDER text = None ->
         generate_html json_dumps fs data = Ok text)
  /\ (forall text before after,
         template fs = Some text ->
         find_first PLACEHOLDER text = Some (before, after) ->
         text = before ++ PLACEHOLDER ++ after
         /\ generate_html json_dumps fs data
            = Ok (before ++ json_dumps data
                  ++ str_replace PLACEHOLDER (json_dumps data) after)).
Proof.
  assert (PLACEHOLDER <> "") as Hne by discriminate.
  unfold generate_html. split; [| split].
  - now intros ->.
  - intros text -> Hf.
    pose proof (str_replace_first PLACEHOLDER (json_dumps data) Hne text) as H.
    rewrite Hf in H. now rewrite H.
  - intros text before after -> Hf.
    pose proof (str_replace_first PLACEHOLDER (json_dumps data) Hne text) as H.
    rewrite Hf in H. destruct H as [Ht Hr]. split; [exact Ht |].
    now rewrite Hr.
Qed.

(** X15.  A run that reports success has put together the stages in this
    way: the issues, initiatives and epics are those of
    [fetch_jira_issues], the dataset is [process_issues] of them under the
    intervals of January, February and March 2026, stamped with the clock
    read after the fetch, and the artifact is the template with the
    placeholder replaced by the serialized dataset, written in full.  The
    template file is not changed. *)
Theorem main_success_pipeline (fuel : nat) (w : World) (fs : FileSystem)
    (w' : World) (fs' : FileSystem) :
  main fuel w fs = Some (Ok true, w', fs') ->
  exists issues initiatives epics data text,
    fetch_jira_issues fuel w = Some (Ok (issues, initiatives, epics), w')
    /\ issues <> []
    /\ process_issues (utcnow w') issues configured_intervals initiatives epics
       = Ok data
    /\ template fs = Some text
    /\ docs_writable fs = true
    /\ fs' = mkFS (Some text)
               (Some (str_replace PLACEHOLDER (json_dumps data) text)) true
    /\ write_cut (str_replace PLACEHOLDER (json_dumps data) text) = None.
Proof.
  unfold main.
  destruct (fetch_jira_issues fuel w)
    as [[[[[issues initiatives] epics] | e] w1] |]; try discriminate.
  destruct issues as [| issue issues]; [discriminate |].
  change generate_intervals with (Some (Ok configured_intervals)).
  cbv beta iota.
  destruct (process_issues (utcnow w1) (issue :: issues) configured_intervals
              initiatives epics) as [data | e] eqn:P; cbn [rbind];
    [| discriminate].
  unfold generate_html, write_artifact.
  destruct (template fs) as [text |] eqn:T; cbn [rbind]; [| discriminate].
  destruct (docs_writable fs) eqn:D; cbn [rbind]; [| discriminate].
  destruct (write_cut (str_replace PLACEHOLDER (json_dumps data) text))
    as [partial |] eqn:W; [discriminate |].
  intros H. injection H as <- <-.
  exists (issue :: issues), initiatives, epics, data, text.
  split; [reflexivity |]. split; [discriminate |].
  split; [exact P |]. split; [reflexivity |].
  split; [reflexivity |]. split; [reflexivity | exact W].
Qed.

(** X16.  An initiative record without a ['key'] member fails the whole
    run: [main] ends in the exception, after the initiative fetch and
    before any other request, and leaves the files as they were. *)
Theorem main_fails_on_initiative_without_key (fuel : nat) (w : World)
    (fs : FileSystem) (initiatives : list json) (w1 : World) :
  JIRA_EMAIL <> "" -> JIRA_API_TOKEN <> "" ->
  fetch_initiatives World post JIRA_EMAIL JIRA_API_TOKEN JIRA_BASE_URL fuel w
  = Some (initiatives, w1) ->
  Exists (fun i => forall k, py_getitem i "key" <> Ok k) initiatives ->
  exists e, main fuel w fs = Some (Raise e, w1, fs)
            /\ exit_code (Raise e) = 1.
Proof.
  intros He Ht Hini Hex. unfold main, fetch_jira_issues.
  apply String.eqb_neq in He. apply String.eqb_neq in Ht.
  rewrite He, Ht. cbn [orb]. rewrite Hini.
  destruct (mapM_raises _ _ Hex) as [e ->]. exists e. split; reflexivity.
Qed.

End MainFurther.

Lemma generate_html_substitutes_witness :
  generate_html sample_dumps sample_fs
    (mkDataset [] [] [] [] [] [] [] "" "" "")
  = Ok ("<html>" ++ sample_dumps (mkDataset [] [] [] [] [] [] [] "" "" "")
        ++ str_replace PLACEHOLDER
             (sample_dumps (mkDataset [] [] [] [] [] [] [] "" "" "")) "</html>").
Proof.
  apply (proj2 (proj2 (generate_html_substitutes sample_dumps sample_fs
                         (mkDataset [] [] [] [] [] [] [] "" "" "")))
           "<html>__DASHBOARD_DATA__</html>" "<html>" "</html>").
  - reflexivity.
  - reflexivity.
Defined.

Lemma main_success_pipeline_witness :
  exists issues initiatives epics data text,
    fetch_jira_issues script scripted_post "me@example.com" "secret"
      "https://collectors.atlassian.net" 5 one_issue_world
    = Some (Ok (issues, initiatives, epics), [])
    /\ issues <> []
    /\ process_issues (sample_clock []) issues configured_intervals
         initiatives epics = Ok data
    /\ template sample_fs = Some text
    /\ docs_writable sample_fs = true
    /\ mkFS (Some "<html>__DASHBOARD_DATA__</html>") (Some "<html>{}</html>") true
       = mkFS (Some text)
           (Some (str_replace PLACEHOLDER (sample_dumps data) text)) true
    /\ sample_disk (str_replace PLACEHOLDER (sample_dumps data) text) = None.
Proof.
  apply (main_success_pipeline script scripted_post "me@example.com" "secret"
           "https://collectors.atlassian.net" sample_dumps sample_clock
           sample_disk 5%nat one_issue_world sample_fs []
           (mkFS (Some "<html>__DASHBOARD_DATA__</html>")
                 (Some "<html>{}</html>") true)).
  vm_compute. reflexivity.
Defined.

Lemma main_fails_on_initiative_without_key_witness :
  exists e,
    main script scripted_post "me@example.com" "secret"
      "https://collectors.atlassian.net" sample_dumps sample_clock sample_disk
      5 [last_page [JObj [("fields", JObj [])]]; last_page [JStr "B"]]
      sample_fs
    = Some (Raise e, [last_page [JStr "B"]], sample_fs)
    /\ exit_code (Raise e) = 1.
Proof.
  apply (main_fails_on_initiative_without_key script scripted_post
           "me@example.com" "secret" "https://collectors.atlassian.net"
           sample_dumps sample_clock sample_disk 5%nat
           [last_page [JObj [("fields", JObj [])]]; last_page [JStr "B"]]
           sample_fs [JObj [("fields", JObj [])]] [last_page [JStr "B"]]).
  - discriminate.
  - discriminate.
  - reflexivity.
  - constructor. intros k H. discriminate H.
Defined.

(** ** Initiatives and epics in the dataset *)

Lemma mapM_Forall2 {A B : Type} (f : A -> result B) (l : list A) (l' : list B) :
  mapM f l = Ok l' -> Forall2 (fun x y => f x = Ok y) l l'.
Proof.
  revert l'. induction l as [| x l IH]; intros l' H; cbn [mapM] in H.
  - injection H as <-. constructor.
  - destruct (f x) as [y | e] eqn:E; [| discriminate H]. cbn [rbind] in H.
    destruct (mapM f l) as [ys | e]; [| discriminate H]. cbn [rbind] in H.
    injection H as <-. constructor; [exact E | now apply IH].
Qed.

Lemma process_initiative_projection (issue : json) (r : ProcessedInitiative) :
  process_initiative issue = Ok r ->
  projection_of issue (pi_key r) (pi_summary r) (pi_status r).
Proof.
  intros H. unfold process_initiative in H. bind_inv H. injection H as <-.
  cbn [pi_key pi_summary pi_status]. unfold projection_of.
  eexists. eexists. repeat split; eassumption.
Qed.

Lemma parent_of_get (issue fields pk : json) :
  py_get issue "fields" (JObj []) = Ok fields ->
  parent_key_of fields = Ok pk ->
  parent_of issue = pk.
Proof.
  intros H1 H2. apply py_get_ok in H1. destruct H1 as [ms [-> Hf]].
  unfold parent_key_of in H2.
  destruct (py_get fields "parent" JNull) as [p | e] eqn:E1;
    cbn [rbind] in H2; [| discriminate H2].
  apply py_get_ok in E1. destruct E1 as [fs [-> Hp]].
  cbn [py_getitem] in H2. unfold parent_of.
  assert (match assoc "parent" fs with
          | Some (JObj parent) =>
              match assoc "key" parent with Some k => k | None => JNull end
          | _ => JNull
          end = pk) as Hfs.
  { destruct (assoc "parent" fs) as [x |].
    - subst p. destruct (truthy x) eqn:T.
      + cbn [rbind] in H2. apply py_get_ok in H2.
        destruct H2 as [pm [-> ->]]. reflexivity.
      + injection H2 as <-.
        destruct x as [| | | | | members]; try reflexivity.
        destruct members; [reflexivity | discriminate T].
    - subst p. cbn [truthy] in H2. now injection H2 as <-. }
  destruct (assoc "fields" ms) as [f |].
  - subst f. exact Hfs.
  - injection Hf as ->. cbn [assoc] in Hfs. exact Hfs.
Qed.

Lemma process_epic_projection (issue : json) (r : ProcessedEpic) :
  process_epic issue = Ok r ->
  projection_of issue (pe_key r) (pe_summary r) (pe_status r)
  /\ pe_parent r = parent_of issue.
Proof.
  intros H. unfold process_epic in H. bind_inv H. injection H as <-.
  cbn [pe_key pe_summary pe_status pe_parent]. unfold projection_of. split.
  - eexists. eexists. repeat split; eassumption.
  - symmetry. eapply parent_of_get; eassumption.
Qed.

(** X17.  In a dataset the initiatives and the epics are the fetched ones,
    one record each and in the same order; a record carries the key, the
    summary and the raw status name of its issue (no status group), and an
    epic also the key of its parent, the [key] of the [parent] of its
    [fields], null when it has no parent or the parent no key.  The intervals,
    the two configured dates and the clock reading are passed through.  An
    initiative that does not process (its [fields] member is null, say)
    makes [process_issues] raise, whatever the child issues are. *)
Theorem dataset_projections (utcnow : string) (issues : list json)
    (intervals : list Interval) (initiatives epics : list json) :
  (forall data,
      process_issues utcnow issues intervals initiatives epics = Ok data ->
      Forall2 (fun issue r =>
                 projection_of issue (pi_key r) (pi_summary r) (pi_status r))
        initiatives (ds_initiatives data)
      /\ Forall2 (fun issue r =>
                    projection_of issue (pe_key r) (pe_summary r) (pe_status r)
                    /\ pe_parent r = parent_of issue)
           epics (ds_epics data)
      /\ ds_intervals data = intervals
      /\ ds_startDate data = "2026-01-07"
      /\ ds_endDate data = "2026-03-31"
      /\ ds_lastUpdated data = utcnow)
  /\ (Exists (fun i => forall r, process_initiative i <> Ok r) initiatives ->
      exists e, process_issues utcnow issues intervals initiatives epics
                = Raise e).
Proof.
  split.
  - intros data H. unfold process_issues in H. bind_inv H. injection H as <-.
    cbn [ds_initiatives ds_epics ds_intervals ds_startDate ds_endDate
         ds_lastUpdated].
    split; [| split; [| repeat split]].
    + match goal with
      | E : mapM process_initiative _ = Ok _ |- _ =>
          apply mapM_Forall2 in E;
          eapply Forall2_impl; [| exact E]
      end.
      intros issue r. apply process_initiative_projection.
    + match goal with
      | E : mapM process_epic _ = Ok _ |- _ =>
          apply mapM_Forall2 in E;
          eapply Forall2_impl; [| exact E]
      end.
      intros issue r. apply process_epic_projection.
  - intros Hex. unfold process_issues.
    destruct (mapM_raises _ _ Hex) as [e ->]. now exists e.
Qed.

Lemma dataset_projections_witness :
  exists data,
    process_issues "2026-02-01T00:00:00Z" three_issues configured_intervals
      [] sample_epics = Ok data
    /\ (Forall2 (fun issue r =>
                   projection_of issue (pi_key r) (pi_summary r) (pi_status r))
          [] (ds_initiatives data)
        /\ Forall2 (fun issue r =>
                      projection_of issue (pe_key r) (pe_summary r)
                        (pe_status r)
                      /\ pe_parent r = parent_of issue)
             sample_epics (ds_epics data)
        /\ ds_intervals data = configured_intervals
        /\ ds_startDate data = "2026-01-07"
        /\ ds_endDate data = "2026-03-31"
        /\ ds_lastUpdated data = "2026-02-01T00:00:00Z").
Proof.
  eexists. split.
  - vm_compute. reflexivity.
  - apply (proj1 (dataset_projections "2026-02-01T00:00:00Z" three_issues
                    configured_intervals [] sample_epics)).
    vm_compute. reflexivity.
Defined.

(** The parent keys of the two sample epics, and an initiative whose
    [fields] member is null. *)
Example sample_epic_parents :
  option_map (fun data => map pe_parent (ds_epics data))
    (match process_issues "2026-02-01T00:00:00Z" three_issues
             configured_intervals [] sample_epics with
     | Ok data => Some data
     | Raise _ => None
     end)
  = Some [JStr "CPF-81"; JNull]
  /\ map parent_of sample_epics = [JStr "CPF-81"; JNull].
Proof. split; vm_compute; reflexivity. Qed.

Example initiative_with_null_fields_raises :
  process_issues "2026-02-01T00:00:00Z" three_issues configured_intervals
    [JObj [("key", JStr "CPF-80"); ("fields", JNull)]] []
  = Raise AttributeError.
Proof. vm_compute. reflexivity. Qed.
